(** * numerals-converter-js: the converter, the two cache backends and the
    conversion service, embedded from the TypeScript sources.

    - [Regex]     : the fragment of JavaScript regular expressions used by
                    [ConversionService.isValidRomanNumeral].
    - [Converter] : [convertArabicToRoman], [convertRomanToArabic],
                    [isValidRomanNumeral] (backend/src/services/ConversionService.ts).
    - [Redis]     : the key-value engine and both revisions of
                    [RedisRepository] (pipeline and Lua script).
    - [Postgres]  : the [conversions] table and [PostgresRepository].
    - [Service]   : [ConversionService.arabicToRoman] / [romanToArabic] over
                    the [IConverterRepository] interface. *)

From Stdlib Require Import ZArith String Ascii List Lia Bool.
From stdpp Require Import base option gmap strings pretty list sorting.

Local Open Scope string_scope.
Local Open Scope Z_scope.

(** ** JavaScript values the sources rely on *)

Module JS.

(** An [Error] object: its message and, for the errors raised by the
    PostgreSQL driver, the SQLSTATE [code] and the violated [constraint]
    ([None] is [undefined]). *)
Record Error : Type := mkError {
  message : string;
  code : option string;
  constraint : option string
}.

(** [new Error(message)] *)
Definition new_Error (msg : string) : Error :=
  {| message := msg; code := None; constraint := None |}.

(** How a call (or an awaited promise) ends. *)
Inductive outcome (A : Type) : Type :=
| Returned (a : A)
| Thrown (e : Error).
Arguments Returned {A} a.
Arguments Thrown {A} e.

(** A [number].  Every call site of the repositories passes an integer; the
    HTTP layer may hand any number to the service.  [Frac f] stands for a
    finite non-integral number strictly between [f] and [f + 1]: the sources
    only test such a number with [Number.isInteger] and compare it with
    integer literals. *)
Inductive number : Type :=
| Int (z : Z)
| Frac (floor : Z)
| NaN
| PosInfinity
| NegInfinity.

Definition Number_isInteger (n : number) : bool :=
  match n with Int _ => true | _ => false end.

(** [n < k] and [n > k] for an integer literal [k]. *)
Definition lt_literal (n : number) (k : Z) : bool :=
  match n with
  | Int z => z <? k
  | Frac f => f <? k
  | NaN => false
  | PosInfinity => false
  | NegInfinity => true
  end.

Definition gt_literal (n : number) (k : Z) : bool :=
  match n with
  | Int z => z >? k
  | Frac f => f >=? k
  | NaN => false
  | PosInfinity => true
  | NegInfinity => false
  end.

(** The integer an integral number denotes. *)
Definition integer_value (n : number) : Z :=
  match n with Int z => z | _ => 0 end.

(** Truthiness of a string: only the empty string is falsy. *)
Definition truthy (s : string) : bool :=
  match s with EmptyString => false | String _ _ => true end.

(** [n.toString()] and [`${n}`] for an integer: plain decimal digits with a
    leading [-] for negatives.  This is what JavaScript prints below 1e21
    in absolute value; from there on it prints an exponent form, which is
    not modelled: what is stated of stored numbers is stated of safe
    integers. *)
Definition toString (n : Z) : string := pretty n.

(** [Number.MAX_SAFE_INTEGER], 2^53 - 1. *)
Definition MAX_SAFE_INTEGER : Z := 9007199254740991.

(** [Number.isSafeInteger] on an integer: every such integer is a [number],
    [+] and [-] are exact while their result is one, it prints as plain
    digits and [parseInt] reads it back. *)
Definition Number_isSafeInteger (z : Z) : bool :=
  (- MAX_SAFE_INTEGER <=? z) && (z <=? MAX_SAFE_INTEGER).

Definition is_whitespace (c : ascii) : bool :=
  let n := N_of_ascii c in
  ((9 <=? n) && (n <=? 13) || (n =? 32))%N.

Definition digit_value (c : ascii) : option Z :=
  let n := N_of_ascii c in
  if ((48 <=? n) && (n <=? 57))%N then Some (Z.of_N n - 48) else None.

Fixpoint skip_whitespace (s : string) : string :=
  match s with
  | String c s' => if is_whitespace c then skip_whitespace s' else s
  | EmptyString => s
  end.

(** The value of the longest prefix of decimal digits, [acc] being the value
    read so far. *)
Fixpoint digits_prefix (acc : Z) (s : string) : Z :=
  match s with
  | String c s' =>
      match digit_value c with
      | Some d => digits_prefix (acc * 10 + d) s'
      | None => acc
      end
  | EmptyString => acc
  end.

Definition starts_with_digit (s : string) : bool :=
  match s with
  | String c _ => bool_decide (is_Some (digit_value c))
  | EmptyString => false
  end.

Definition unsigned_prefix (s : string) : number :=
  if starts_with_digit s then Int (digits_prefix 0 s) else NaN.

Definition negate (n : number) : number :=
  match n with Int z => Int (- z) | _ => n end.

(** [parseInt(s, 10)]: leading white space, an optional sign, then the
    longest run of decimal digits; [NaN] when there is none. *)
Definition parseInt (s : string) : number :=
  match skip_whitespace s with
  | String "-" s' => negate (unsigned_prefix s')
  | String "+" s' => unsigned_prefix s'
  | s' => unsigned_prefix s'
  end.

(** [String.prototype.trim] and [toUpperCase] on ASCII text. *)
Fixpoint trim_end (s : string) : string :=
  match s with
  | String c s' =>
      match trim_end s' with
      | EmptyString => if is_whitespace c then EmptyString else String c EmptyString
      | t => String c t
      end
  | EmptyString => EmptyString
  end.

Definition trim (s : string) : string := trim_end (skip_whitespace s).

Definition upper (c : ascii) : ascii :=
  let n := N_of_ascii c in
  if ((97 <=? n) && (n <=? 122))%N then ascii_of_N (n - 32) else c.

Fixpoint toUpperCase (s : string) : string :=
  match s with
  | String c s' => String (upper c) (toUpperCase s')
  | EmptyString => EmptyString
  end.

(** [s.split(sep)] for a one-character separator. *)
Fixpoint split (sep : ascii) (s : string) : list string :=
  match s with
  | EmptyString => [EmptyString]
  | String c s' =>
      if Ascii.eqb c sep then EmptyString :: split sep s'
      else match split sep s' with
           | piece :: pieces => String c piece :: pieces
           | [] => [String c EmptyString]
           end
  end.

(** Strings of decimal digits, and strings without a colon. *)
Fixpoint all_digits (s : string) : bool :=
  match s with
  | EmptyString => true
  | String c s' => bool_decide (is_Some (digit_value c)) && all_digits s'
  end.

Fixpoint no_colon (s : string) : bool :=
  match s with
  | EmptyString => true
  | String c s' => negb (Ascii.eqb c ":") && no_colon s'
  end.

End JS.

(** ** JavaScript regular expressions (the fragment the validator uses) *)

Module Regex.

(** [Class cs] is a bracket expression [[...]], [AtLeast n r] is [r{n,}]
    (so [r+] is [AtLeast 1 r]); [Void] and [Eps] only arise as derivatives. *)
Inductive regex : Type :=
| Void
| Eps
| Chr (c : ascii)
| Class (cs : list ascii)
| Cat (r1 r2 : regex)
| Alt (r1 r2 : regex)
| AtLeast (n : nat) (r : regex).

Fixpoint nullable (r : regex) : bool :=
  match r with
  | Void => false
  | Eps => true
  | Chr _ => false
  | Class _ => false
  | Cat r1 r2 => nullable r1 && nullable r2
  | Alt r1 r2 => nullable r1 || nullable r2
  | AtLeast n r => match n with O => true | S _ => nullable r end
  end.

Definition mem (c : ascii) (cs : list ascii) : bool :=
  existsb (Ascii.eqb c) cs.

(** Brzozowski derivative of [r] by the character [c]. *)
Fixpoint deriv (c : ascii) (r : regex) : regex :=
  match r with
  | Void => Void
  | Eps => Void
  | Chr d => if Ascii.eqb c d then Eps else Void
  | Class cs => if mem c cs then Eps else Void
  | Cat r1 r2 =>
      if nullable r1
      then Alt (Cat (deriv c r1) r2) (deriv c r2)
      else Cat (deriv c r1) r2
  | Alt r1 r2 => Alt (deriv c r1) (deriv c r2)
  | AtLeast n r => Cat (deriv c r) (AtLeast (Nat.pred n) r)
  end.

(** The whole string matches [r]: a pattern written [/^r$/]. *)
Fixpoint full_match (r : regex) (s : string) : bool :=
  match s with
  | EmptyString => nullable r
  | String c s' => full_match (deriv c r) s'
  end.

(** Some prefix of the string matches [r]. *)
Fixpoint prefix_match (r : regex) (s : string) : bool :=
  nullable r ||
  match s with
  | EmptyString => false
  | String c s' => prefix_match (deriv c r) s'
  end.

(** [RegExp.prototype.test] for an unanchored pattern [/r/]: some substring
    matches. *)
Fixpoint test (r : regex) (s : string) : bool :=
  prefix_match r s ||
  match s with
  | EmptyString => false
  | String _ s' => test r s'
  end.

(** A literal such as [/IL/]. *)
Fixpoint lit (s : string) : regex :=
  match s with
  | EmptyString => Eps
  | String c EmptyString => Chr c
  | String c s' => Cat (Chr c) (lit s')
  end.

(** *** Syntactic classes of expressions

    [void r]: no string matches [r].  [over cs r]: every character [r]
    mentions is in [cs].  [spans cs r]: [r] matches every string over [cs]
    (it ends in a star of a class that contains [cs]).  [all_in cs s]: the
    string [s] is over [cs]. *)
Fixpoint void (r : regex) : bool :=
  match r with
  | Void => true
  | Cat r1 r2 => void r1 || void r2
  | Alt r1 r2 => void r1 && void r2
  | AtLeast (S _) r => void r
  | _ => false
  end.

Fixpoint over (cs : list ascii) (r : regex) : bool :=
  match r with
  | Void | Eps => true
  | Chr c => mem c cs
  | Class ds => forallb (λ d, mem d cs) ds
  | Cat r1 r2 | Alt r1 r2 => over cs r1 && over cs r2
  | AtLeast _ r => over cs r
  end.

Fixpoint spans (cs : list ascii) (r : regex) : bool :=
  match r with
  | AtLeast O (Class ds) => forallb (λ c, mem c ds) cs
  | Cat r1 r2 => nullable r1 && spans cs r2
  | Alt r1 r2 => spans cs r1 || spans cs r2
  | _ => false
  end.

Fixpoint all_in (cs : list ascii) (s : string) : bool :=
  match s with
  | EmptyString => true
  | String c s' => mem c cs && all_in cs s'
  end.

End Regex.

(** ** The converter (ConversionService.ts, private methods) *)

Module Converter.
Import JS Regex.

(** [romanNumerals], lines 4-18. *)
Definition romanNumerals : list (Z * string) :=
  [ (1000, "M"); (900, "CM"); (500, "D"); (400, "CD");
    (100, "C"); (90, "XC"); (50, "L"); (40, "XL");
    (10, "X"); (9, "IX"); (5, "V"); (4, "IV"); (1, "I") ].

(** [romanToArabicMap], lines 20-24. *)
Definition romanToArabicMap : gmap string Z :=
  list_to_map
    [ ("M", 1000); ("CM", 900); ("D", 500); ("CD", 400);
      ("C", 100); ("XC", 90); ("L", 50); ("XL", 40);
      ("X", 10); ("IX", 9); ("V", 5); ("IV", 4); ("I", 1) ].

(** The inner [while (remaining >= value)] loop of [convertArabicToRoman].
    [None] means the fuel ran out before the loop condition failed. *)
Fixpoint while_fits (fuel : nat) (value : Z) (symbol : string)
    (result : string) (remaining : Z) : option (string * Z) :=
  if remaining >=? value then
    match fuel with
    | O => None
    | S fuel' =>
        while_fits fuel' value symbol (result +:+ symbol) (remaining - value)
    end
  else Some (result, remaining).

(** The outer [for (const { value, symbol } of this.romanNumerals)] loop. *)
Fixpoint for_each (fuel : nat) (table : list (Z * string))
    (result : string) (remaining : Z) : option string :=
  match table with
  | [] => Some result
  | (value, symbol) :: table' =>
      match while_fits fuel value symbol result remaining with
      | Some (result', remaining') => for_each fuel table' result' remaining'
      | None => None
      end
  end.

(** [convertArabicToRoman], lines 75-87.  Every pass of the inner loop takes
    at least 1 off [remaining], so [arabic] passes are enough for each table
    entry ([convertArabicToRoman_total] below). *)
Definition convertArabicToRoman (arabic : Z) : option string :=
  for_each (Z.to_nat arabic) romanNumerals "" arabic.

(** [convertRomanToArabic], lines 89-115, as a scan over the suffix of
    [roman] starting at index [i]; [result] is the running sum. *)
Fixpoint scan (roman : string) (result : Z) : outcome Z :=
  match roman with
  | EmptyString => Returned result
  | String c1 rest =>
      let oneChar := String c1 EmptyString in
      let single :=
        match romanToArabicMap !! oneChar with
        | Some v => scan rest (result + v)
        | None =>
            Thrown (new_Error ("Invalid Roman numeral character: " +:+ oneChar))
        end in
      match rest with
      | String c2 rest2 =>
          let twoChar := String c1 (String c2 EmptyString) in
          match romanToArabicMap !! twoChar with
          | Some v => scan rest2 (result + v)
          | None => single
          end
      | EmptyString => single
      end
  end.

Definition convertRomanToArabic (roman : string) : outcome Z :=
  scan roman 0.

(** [invalidPatterns], lines 124-150, in source order. *)
Definition invalidPatterns : list regex :=
  [ AtLeast 4 (Chr "I"); AtLeast 4 (Chr "X");
    AtLeast 4 (Chr "C"); AtLeast 4 (Chr "M");
    AtLeast 2 (Chr "V"); AtLeast 2 (Chr "L"); AtLeast 2 (Chr "D");
    lit "IL"; lit "IC"; lit "ID"; lit "IM";
    lit "XD"; lit "XM";
    lit "VL"; lit "VC"; lit "VD"; lit "VM";
    lit "LC"; lit "LD"; lit "LM";
    lit "DM";
    Cat (AtLeast 2 (Chr "I")) (Class ["V"; "X"]%char);
    Cat (AtLeast 2 (Chr "X")) (Class ["L"; "C"]%char);
    Cat (AtLeast 2 (Chr "C")) (Class ["D"; "M"]%char) ].

(** [/^[IVXLCDM]+$/] *)
Definition validCharacters : regex :=
  AtLeast 1 (Class ["I"; "V"; "X"; "L"; "C"; "D"; "M"]%char).

(** [isValidRomanNumeral], lines 117-166.  The round-trip comparison is
    disabled in the source: the [try] block returns [true] as soon as the
    scan does not throw. *)
Definition isValidRomanNumeral (roman : string) : bool :=
  if negb (full_match validCharacters roman) then false
  else if existsb (fun pattern => test pattern roman) invalidPatterns then false
  else match convertRomanToArabic roman with
       | Returned _ => true
       | Thrown _ => false
       end.

(** *** The round trip, as a check

    The check run on each integer of the domain: the numeral survives
    normalisation, passes the validator and scans back to [n]. *)
Definition round_trip_ok (n : Z) : bool :=
  match convertArabicToRoman n with
  | Some roman =>
      String.eqb (toUpperCase (trim roman)) roman &&
      isValidRomanNumeral roman &&
      match convertRomanToArabic roman with
      | Returned m => m =? n
      | Thrown _ => false
      end
  | None => false
  end.

(** The valid domain, 1 to 3999. *)
Definition domain : list Z := Z.of_nat <$> seq 1 3999.

(** *** The alphabet of numerals *)

Definition numeral_characters : list ascii :=
  ["I"; "V"; "X"; "L"; "C"; "D"; "M"]%char.

Definition is_numeral (c : ascii) : bool := mem c numeral_characters.

(** The first character of a string that is not a numeral character. *)
Fixpoint first_other (s : string) : option ascii :=
  match s with
  | EmptyString => None
  | String c s' => if is_numeral c then first_other s' else Some c
  end.

(** A pair as the service caches it: [roman] is a normalised string the
    validator accepts, and [arabic] is the value the scan gives it. *)
Definition consistent_pair (arabic : Z) (roman : string) : Prop :=
  toUpperCase (trim roman) = roman
  ∧ isValidRomanNumeral roman = true
  ∧ convertRomanToArabic roman = Returned arabic.

(** A cache that holds such pairs only. *)
Definition consistent_cache (records : list (Z * string)) : Prop :=
  Forall (λ pair, consistent_pair pair.1 pair.2) records.

End Converter.

(** ** Shared types (backend/src/types/index.ts) *)

Module Types.
Import JS.

(** [roman] is [None] when the field is [undefined], which only the Redis
    listing can produce (an index member without a colon). *)
Record Conversion : Type := mkConversion {
  arabic : number;
  roman : option string
}.

Record PaginatedResult : Type := mkPaginatedResult {
  data : list Conversion;
  total : number;
  limit : Z;
  offset : Z
}.

(** A stored pair as a listing shows it. *)
Definition conversion_of (pair : Z * string) : Conversion :=
  {| arabic := Int pair.1; roman := Some pair.2 |}.

End Types.

(** ** The repository interface (IConverterRepository.ts) *)

Module Repository.
Import JS Types.

(** A backend with state [S].  Lookups and listings are queries: they read
    the state and leave it as it is. *)
Record IConverterRepository (S : Type) : Type := {
  save : Z → string → S → outcome unit * S;
  findByArabic : Z → S → outcome (option string);
  findByRoman : string → S → outcome (option number);
  getAll : Z → Z → S → outcome PaginatedResult;
  deleteAll : S → outcome Z * S
}.
Arguments save {S} _ _ _ _.
Arguments findByArabic {S} _ _ _.
Arguments findByRoman {S} _ _ _.
Arguments getAll {S} _ _ _ _.
Arguments deleteAll {S} _ _.

(** The operations that change a store, and a sequence of them applied in
    order. *)
Inductive op : Type :=
| Save (arabic : Z) (roman : string)
| Clear.

Definition step {S} (repo : IConverterRepository S) (st : S) (o : op) : S :=
  match o with
  | Save arabic roman => (save repo arabic roman st).2
  | Clear => (deleteAll repo st).2
  end.

Definition run {S} (repo : IConverterRepository S) (ops : list op) (st : S)
    : S :=
  foldl (step repo) st ops.

(** One [save] per pair, in order. *)
Definition saves (pairs : list (Z * string)) : list op :=
  (λ pair, Save pair.1 pair.2) <$> pairs.

(** Every [save] of the sequence is handed a safe integer. *)
Definition safe_integers (ops : list op) : bool :=
  forallb (λ o, match o with
                | Save arabic _ => Number_isSafeInteger arabic
                | Clear => true
                end) ops.

(** No two calls of a sequence conflict: two pairs share their arabic value
    exactly when they share their roman value. *)
Definition conflict_free (pairs : list (Z * string)) : Prop :=
  ∀ a r a' r', (a, r) ∈ pairs → (a', r') ∈ pairs → (a = a' ↔ r = r').


End Repository.

(** ** The Redis engine and RedisRepository *)

Module Redis.
Import JS Types.

(** A key holds a string or a sorted set (member to score). *)
Inductive value : Type :=
| VString (s : string)
| VZSet (members : gmap string Z).

Abbreviation keyspace := (gmap string value).

Definition WRONGTYPE : Error :=
  new_Error "WRONGTYPE Operation against a key holding the wrong kind of value".

(** *** Commands *)

Definition GET (key : string) (db : keyspace) : outcome (option string) :=
  match db !! key with
  | None => Returned None
  | Some (VString s) => Returned (Some s)
  | Some (VZSet _) => Thrown WRONGTYPE
  end.

Definition SET (key v : string) (db : keyspace) : keyspace :=
  <[key := VString v]> db.

Definition ZADD (key : string) (score : Z) (member : string) (db : keyspace)
    : outcome keyspace :=
  match db !! key with
  | None => Returned (<[key := VZSet {[member := score]}]> db)
  | Some (VZSet members) =>
      Returned (<[key := VZSet (<[member := score]> members)]> db)
  | Some (VString _) => Thrown WRONGTYPE
  end.

Definition ZCARD (key : string) (db : keyspace) : outcome Z :=
  match db !! key with
  | None => Returned 0
  | Some (VZSet members) => Returned (Z.of_nat (size members))
  | Some (VString _) => Thrown WRONGTYPE
  end.

(** Sorted-set order: by score, ties broken by the member's bytes. *)
Definition zset_leb (x y : string * Z) : bool :=
  (x.2 <? y.2) || ((x.2 =? y.2) && String.leb x.1 y.1).

Fixpoint zset_insert (x : string * Z) (l : list (string * Z))
    : list (string * Z) :=
  match l with
  | [] => [x]
  | y :: l' => if zset_leb x y then x :: l else y :: zset_insert x l'
  end.

Definition zset_sorted (members : gmap string Z) : list (string * Z) :=
  foldr zset_insert [] (map_to_list members).

(** The index window of ZRANGE: negative indices count from the end. *)
Definition window {A} (start stop : Z) (l : list A) : list A :=
  let n := Z.of_nat (List.length l) in
  let start := if start <? 0 then Z.max 0 (n + start) else start in
  let stop := if stop <? 0 then n + stop else stop in
  let stop := Z.min stop (n - 1) in
  if (start >? stop) || (start >=? n) then []
  else take (Z.to_nat (stop - start + 1)) (drop (Z.to_nat start) l).

(** The server reads an index argument as a signed 64-bit integer, before
    it looks at the key. *)
Definition in_int64 (z : Z) : bool :=
  (-9223372036854775808 <=? z) && (z <=? 9223372036854775807).

Definition not_an_integer : Error :=
  new_Error "ERR value is not an integer or out of range".

Definition ZRANGE (key : string) (start stop : Z) (db : keyspace)
    : outcome (list string) :=
  if negb (in_int64 start && in_int64 stop) then Thrown not_an_integer
  else
    match db !! key with
    | None => Returned []
    | Some (VZSet members) =>
        Returned (window start stop (zset_sorted members).*1)
    | Some (VString _) => Thrown WRONGTYPE
    end.

(** [KEYS prefix*]: the only glob patterns the repository issues end in a
    single [*] after a literal prefix. *)
Definition KEYS (prefix : string) (db : keyspace) : list string :=
  (map_to_list (filter (λ kv, String.prefix prefix kv.1 = true) db)).*1.

Definition DEL (keys : list string) (db : keyspace) : keyspace :=
  foldr delete db keys.

(** *** Lua scripts

    A script runs against the keyspace without interleaving; [redis.call]
    raises on an error reply, which ends the script (writes already made
    stay). *)

Definition script (A : Type) : Type := keyspace → outcome A * keyspace.

#[export] Instance script_ret : MRet script :=
  λ A a db, (Returned a, db).

#[export] Instance script_bind : MBind script :=
  λ A B f m db,
    match m db with
    | (Returned a, db') => f a db'
    | (Thrown e, db') => (Thrown e, db')
    end.

Definition call_GET (key : string) : script (option string) :=
  λ db, (GET key db, db).

Definition call_SET (key v : string) : script unit :=
  λ db, (Returned tt, SET key v db).

Definition call_ZADD (key : string) (score : Z) (member : string)
    : script unit :=
  λ db,
    match ZADD key score member db with
    | Returned db' => (Returned tt, db')
    | Thrown e => (Thrown e, db)
    end.

(** *** RedisRepository *)

Definition arabicKeyPrefix : string := "arabic:".
Definition romanKeyPrefix : string := "roman:".
Definition allConversionsKey : string := "conversions:all".

Definition arabicKey (arabic : Z) : string :=
  arabicKeyPrefix +:+ toString arabic.
Definition romanKey (roman : string) : string :=
  romanKeyPrefix +:+ roman.
Definition entry (arabic : Z) (roman : string) : string :=
  toString arabic +:+ ":" +:+ roman.

(** [luaScript] of the script revision of [save] (part_010, lines 123-145).
    [ARGV[1]] is the decimal text of [arabic]: it is stored as that text by
    SET and read as the number it denotes by ZADD, so the script takes the
    integer and prints it where the text is needed.  A missing key reads as
    [false] in Lua, here [None]. *)
Definition luaScript (arabicKey romanKey sortedSetKey : string)
    (arabicValue : Z) (romanValue entry : string) : script Z :=
  existingArabic ← call_GET arabicKey;
  existingRoman ← call_GET romanKey;
  match existingArabic, existingRoman with
  | None, None =>
      call_SET arabicKey romanValue ;;
      call_SET romanKey (toString arabicValue) ;;
      call_ZADD sortedSetKey arabicValue entry ;;
      mret 1
  | _, _ => mret 0
  end.

(** [save], script revision (part_010, lines 120-164): the reply (1 or 0)
    is dropped; an error reply rejects the promise. *)
Definition save (arabic : Z) (roman : string) (db : keyspace)
    : outcome unit * keyspace :=
  match luaScript (arabicKey arabic) (romanKey roman) allConversionsKey
          arabic roman (entry arabic roman) db with
  | (Returned _, db') => (Returned tt, db')
  | (Thrown e, db') => (Thrown e, db')
  end.

(** [save], pipeline revision (part_010, lines 22-33): the three commands
    are queued and run in order; [exec] reports a failed command in its
    reply array and does not throw. *)
Definition save_pipeline (arabic : Z) (roman : string) (db : keyspace)
    : outcome unit * keyspace :=
  let db := SET (arabicKey arabic) roman db in
  let db := SET (romanKey roman) (toString arabic) db in
  let db :=
    match ZADD allConversionsKey arabic (entry arabic roman) db with
    | Returned db' => db'
    | Thrown _ => db
    end in
  (Returned tt, db).

Definition findByArabic (arabic : Z) (db : keyspace)
    : outcome (option string) :=
  GET (arabicKey arabic) db.

(** [result ? parseInt(result, 10) : null] *)
Definition findByRoman (roman : string) (db : keyspace)
    : outcome (option number) :=
  match GET (romanKey roman) db with
  | Returned (Some result) =>
      Returned (if truthy result then Some (parseInt result) else None)
  | Returned None => Returned None
  | Thrown e => Thrown e
  end.

(** [const [arabic, roman] = item.split(':')] *)
Definition parse_item (item : string) : Conversion :=
  let pieces := split ":" item in
  {| arabic := parseInt (List.nth 0 pieces EmptyString);
     roman := pieces !! 1%nat |}.

(** [getAll], part_010 lines 175-200.  [offset + limit - 1] is the sum of
    the integers, which is what the addition of two numbers gives while
    the integers involved are safe. *)
Definition getAll (limit offset : Z) (db : keyspace)
    : outcome PaginatedResult :=
  match ZCARD allConversionsKey db with
  | Thrown e => Thrown e
  | Returned total =>
      match ZRANGE allConversionsKey offset (offset + limit - 1) db with
      | Thrown e => Thrown e
      | Returned results =>
          Returned {| data := parse_item <$> results;
                      total := Int total; limit := limit; offset := offset |}
      end
  end.

(** [deleteAll] (both revisions): the reply is the number of keys handed to
    DEL minus one. *)
Definition deleteAll (db : keyspace) : outcome Z * keyspace :=
  let arabicKeys := KEYS arabicKeyPrefix db in
  let romanKeys := KEYS romanKeyPrefix db in
  let allKeys := (arabicKeys ++ romanKeys ++ [allConversionsKey])%list in
  if (List.length allKeys =? 0)%nat then (Returned 0, db)
  else (Returned (Z.of_nat (List.length allKeys) - 1), DEL allKeys db).

(** *** The records a keyspace holds *)

(** The sorted index, empty while its key is missing. *)
Definition index (db : keyspace) : gmap string Z :=
  match db !! allConversionsKey with
  | Some (VZSet members) => members
  | _ => ∅
  end.

(** [represents db records]: the keyspace holds exactly [records], each one
    under its arabic key, under its roman key and in the index. *)
Definition represents (db : keyspace) (records : list (Z * string)) : Prop :=
  (∀ a v, db !! arabicKey a = Some v ↔ ∃ r, v = VString r ∧ (a, r) ∈ records)
  ∧ (∀ r v, db !! romanKey r = Some v
            ↔ ∃ a, v = VString (toString a) ∧ (a, r) ∈ records)
  ∧ (∀ v, db !! allConversionsKey = Some v → ∃ members, v = VZSet members)
  ∧ (∀ member score,
       index db !! member = Some score
       ↔ ∃ a r, (a, r) ∈ records ∧ member = entry a r ∧ score = a).

(** The keyspace after the three writes of a [save]. *)
Definition written (a : Z) (r : string) (db : keyspace) : keyspace :=
  <[allConversionsKey := VZSet (<[entry a r := a]> (index db))]>
    (<[romanKey r := VString (toString a)]>
       (<[arabicKey a := VString r]> db)).

Definition index_is_a_set (db : keyspace) : Prop :=
  ∀ v, db !! allConversionsKey = Some v → ∃ members, v = VZSet members.

(** The invariant of the script revision: the keyspace holds the records
    [l], no two of which share a value, under as many arabic keys and as
    many roman keys as there are records. *)
Definition holds (db : keyspace) (l : list (Z * string)) : Prop :=
  represents db l
  ∧ NoDup l.*1 ∧ NoDup l.*2
  ∧ List.length (KEYS arabicKeyPrefix db) = List.length l
  ∧ List.length (KEYS romanKeyPrefix db) = List.length l.

(** The index member and score of a record. *)
Definition member_of (pair : Z * string) : string * Z :=
  (entry pair.1 pair.2, pair.1).

Definition repository : Repository.IConverterRepository keyspace :=
  {| Repository.save := save;
     Repository.findByArabic := findByArabic;
     Repository.findByRoman := findByRoman;
     Repository.getAll := getAll;
     Repository.deleteAll := deleteAll |}.

(** The same repository with the pipeline revision of [save]. *)
Definition repository_pipeline : Repository.IConverterRepository keyspace :=
  {| Repository.save := save_pipeline;
     Repository.findByArabic := findByArabic;
     Repository.findByRoman := findByRoman;
     Repository.getAll := getAll;
     Repository.deleteAll := deleteAll |}.

End Redis.

(** ** The PostgreSQL engine and PostgresRepository *)

Module Postgres.
Import JS.

(** A row of [conversions]; [created_at] is never read. *)
Record row : Type := mkRow {
  id : Z;
  arabic : Z;
  roman : string
}.

(** The table and the sequence behind [id SERIAL] (its last value). *)
Record database : Type := mkDatabase {
  conversions : list row;
  conversions_id_seq : Z
}.

(** The database after [initialize]. *)
Definition empty : database :=
  {| conversions := []; conversions_id_seq := 0 |}.

Definition sqlstate (msg c : string) (k : option string) : Error :=
  {| message := msg; code := Some c; constraint := k |}.

Definition unique_violation (name : string) : Error :=
  sqlstate ("duplicate key value violates unique constraint " +:+ name)
    "23505" (Some name).
Definition numeric_value_out_of_range : Error :=
  sqlstate "integer out of range" "22003" None.
Definition string_data_right_truncation : Error :=
  sqlstate "value too long for type character varying(20)" "22001" None.
Definition invalid_row_count_in_limit_clause : Error :=
  sqlstate "LIMIT must not be negative" "2201W" None.
Definition invalid_row_count_in_result_offset_clause : Error :=
  sqlstate "OFFSET must not be negative" "2201X" None.
(** A parameter of type [bigint] whose decimal text is out of range. *)
Definition bigint_out_of_range (n : Z) : Error :=
  sqlstate ("value " +:+ String "034"%char (toString n)
              +:+ String "034"%char " is out of range for type bigint")
    "22003" None.

(** A [text] value cannot hold the character of code zero (the server
    rejects such a parameter): a string is one when it has none. *)
Fixpoint no_nul (s : string) : bool :=
  match s with
  | EmptyString => true
  | String c s' => negb (Ascii.eqb c "000") && no_nul s'
  end.

(** [BIGINT], the type of the LIMIT and OFFSET parameters. *)
Definition in_int8 (z : Z) : bool :=
  (-9223372036854775808 <=? z) && (z <=? 9223372036854775807).

(** [INTEGER] *)
Definition in_int4 (z : Z) : bool :=
  (-2147483648 <=? z) && (z <=? 2147483647).

Fixpoint all_spaces (s : string) : bool :=
  match s with
  | EmptyString => true
  | String c s' => Ascii.eqb c " " && all_spaces s'
  end.

(** Assignment to [VARCHAR(20)]: excess characters are an error unless they
    are all spaces, which are cut off. *)
Definition to_varchar20 (s : string) : outcome string :=
  if (String.length s <=? 20)%nat then Returned s
  else if all_spaces (String.substring 20 (String.length s - 20) s)
       then Returned (String.substring 0 20 s)
       else Thrown string_data_right_truncation.

(** [INSERT INTO conversions (arabic, roman) VALUES ($1, $2)
     ON CONFLICT (arabic) DO NOTHING].  The reply is the row count.  A row
    whose [arabic] is taken is skipped; the other unique indexes
    ([conversions_pkey], [conversions_roman_key]) raise 23505.  The value
    drawn from the sequence is not given back. *)
Definition INSERT_ON_CONFLICT_arabic_DO_NOTHING (arabic : Z) (roman : string)
    (db : database) : outcome Z * database :=
  if negb (in_int4 arabic) then (Thrown numeric_value_out_of_range, db)
  else
    match to_varchar20 roman with
    | Thrown e => (Thrown e, db)
    | Returned roman =>
        let id := conversions_id_seq db + 1 in
        let rows := conversions db in
        let db := {| conversions := rows; conversions_id_seq := id |} in
        if negb (in_int4 id) then (Thrown numeric_value_out_of_range, db)
        else if existsb (λ r, Postgres.arabic r =? arabic) rows then
          (Returned 0, db)
        else if existsb (λ r, Postgres.id r =? id) rows then
          (Thrown (unique_violation "conversions_pkey"), db)
        else if existsb (λ r, String.eqb (Postgres.roman r) roman) rows then
          (Thrown (unique_violation "conversions_roman_key"), db)
        else
          (Returned 1,
           {| conversions :=
                (rows ++ [{| id := id; arabic := arabic; roman := roman |}])%list;
              conversions_id_seq := id |})
    end.

(** [SELECT roman FROM conversions WHERE arabic = $1] *)
Definition SELECT_roman_WHERE_arabic (arabic : Z) (db : database)
    : outcome (list string) :=
  if negb (in_int4 arabic) then Thrown numeric_value_out_of_range
  else Returned
         (Postgres.roman <$>
            List.filter (λ r, Postgres.arabic r =? arabic) (conversions db)).

(** [SELECT arabic FROM conversions WHERE roman = $1] *)
Definition SELECT_arabic_WHERE_roman (roman : string) (db : database)
    : outcome (list Z) :=
  Returned
    (Postgres.arabic <$>
       List.filter (λ r, String.eqb (Postgres.roman r) roman) (conversions db)).

(** [SELECT COUNT( * ) FROM conversions]: the driver returns the count as
    decimal text. *)
Definition SELECT_COUNT (db : database) : outcome string :=
  Returned (toString (Z.of_nat (List.length (conversions db)))).

Fixpoint insert_by_arabic (r : row) (l : list row) : list row :=
  match l with
  | [] => [r]
  | r' :: l' =>
      if Postgres.arabic r <? Postgres.arabic r' then r :: l
      else r' :: insert_by_arabic r l'
  end.

Definition ORDER_BY_arabic (rows : list row) : list row :=
  foldr insert_by_arabic [] rows.

(** [SELECT arabic, roman FROM conversions ORDER BY arabic
     LIMIT $1 OFFSET $2].  The parameters are read as [bigint] when the
    statement is bound, [$1] first; the executor then checks OFFSET before
    LIMIT. *)
Definition SELECT_ORDER_BY_arabic_LIMIT_OFFSET (limit offset : Z)
    (db : database) : outcome (list row) :=
  if negb (in_int8 limit) then Thrown (bigint_out_of_range limit)
  else if negb (in_int8 offset) then Thrown (bigint_out_of_range offset)
  else if offset <? 0 then Thrown invalid_row_count_in_result_offset_clause
  else if limit <? 0 then Thrown invalid_row_count_in_limit_clause
  else Returned
         (take (Z.to_nat limit)
            (drop (Z.to_nat offset) (ORDER_BY_arabic (conversions db)))).

(** [DELETE FROM conversions]: the reply is the row count. *)
Definition DELETE_FROM_conversions (db : database) : outcome Z * database :=
  (Returned (Z.of_nat (List.length (conversions db))),
   {| conversions := []; conversions_id_seq := conversions_id_seq db |}).

(** *** PostgresRepository *)

(** The [try { ... } catch (error) { if (error.code !== '23505') throw error }]
    block of [save], applied to the outcome of the query inside it. *)
Definition catch_duplicate_key {A} (query : outcome A) : outcome unit :=
  match query with
  | Returned _ => Returned tt
  | Thrown error =>
      if bool_decide (code error ≠ Some "23505") then Thrown error
      else Returned tt
  end.

(** [save], lines 50-71. *)
Definition save (arabic : Z) (roman : string) (db : database)
    : outcome unit * database :=
  let '(reply, db') := INSERT_ON_CONFLICT_arabic_DO_NOTHING arabic roman db in
  (catch_duplicate_key reply, db').

(** [result.rows[0]?.roman || null], lines 73-84. *)
Definition findByArabic (arabic : Z) (db : database)
    : outcome (option string) :=
  match SELECT_roman_WHERE_arabic arabic db with
  | Thrown e => Thrown e
  | Returned [] => Returned None
  | Returned (roman :: _) =>
      Returned (if truthy roman then Some roman else None)
  end.

(** [result.rows[0]?.arabic || null], lines 86-97: zero is falsy. *)
Definition findByRoman (roman : string) (db : database)
    : outcome (option number) :=
  match SELECT_arabic_WHERE_roman roman db with
  | Thrown e => Thrown e
  | Returned [] => Returned None
  | Returned (arabic :: _) =>
      Returned (if arabic =? 0 then None else Some (Int arabic))
  end.

(** [getAll], lines 99-126. *)
Definition getAll (limit offset : Z) (db : database)
    : outcome Types.PaginatedResult :=
  match SELECT_COUNT db with
  | Thrown e => Thrown e
  | Returned count =>
      let total := parseInt count in
      match SELECT_ORDER_BY_arabic_LIMIT_OFFSET limit offset db with
      | Thrown e => Thrown e
      | Returned rows =>
          Returned
            {| Types.data :=
                 (λ row, {| Types.arabic := Int (arabic row);
                            Types.roman := Some (roman row) |}) <$> rows;
               Types.total := total;
               Types.limit := limit;
               Types.offset := offset |}
      end
  end.

(** [return result.rowCount || 0], lines 128-136. *)
Definition deleteAll (db : database) : outcome Z * database :=
  match DELETE_FROM_conversions db with
  | (Returned rowCount, db') => (Returned rowCount, db')
  | (Thrown e, db') => (Thrown e, db')
  end.

(** The pairs the table holds, in row order. *)
Definition records (db : database) : list (Z * string) :=
  (λ row, (arabic row, roman row)) <$> conversions db.

(** The invariant of the table: the two unique constraints, and the column
    type of [arabic]. *)
Definition holds (db : database) : Prop :=
  NoDup (arabic <$> conversions db)
  ∧ NoDup (roman <$> conversions db)
  ∧ Forall (λ row, in_int4 (arabic row) = true) (conversions db).

(** A table whose sequence lags behind its rows (a row written by hand):
    the next [id] is taken. *)
Definition tampered : database :=
  {| conversions := [mkRow 1 5 "V"]; conversions_id_seq := 0 |}.

(** The sequence is ahead of every [id] in the table, as it is when every
    row came from the INSERT of [save]. *)
Definition sequence_ahead (db : database) : Prop :=
  0 <= conversions_id_seq db
  ∧ Forall (λ row, id row <= conversions_id_seq db) (conversions db).

(** [contents db records]: the table keeps its constraints and holds the
    pairs [records], in some order. *)
Definition contents (db : database) (records : list (Z * string)) : Prop :=
  holds db ∧ ∀ pair, pair ∈ records ↔ pair ∈ Postgres.records db.

Definition repository : Repository.IConverterRepository database :=
  {| Repository.save := save;
     Repository.findByArabic := findByArabic;
     Repository.findByRoman := findByRoman;
     Repository.getAll := getAll;
     Repository.deleteAll := deleteAll |}.

End Postgres.

(** ** ConversionService (public methods) *)

Module Service.
Import JS Converter Repository.

(** The repository methods a request invokes, in order. *)
Inductive call : Type :=
| FindByArabic (arabic : Z)
| FindByRoman (roman : string)
| SaveCall (arabic : Z) (roman : string).

(** What a request leaves behind: how its promise settles, the repository
    calls it made, and the store once the detached [save] has settled. *)
Record response (A S : Type) : Type := mkResponse {
  result : outcome A;
  calls : list call;
  store : S
}.
Arguments mkResponse {A S} _ _ _.
Arguments result {A S} _.
Arguments calls {A S} _.
Arguments store {A S} _.

Definition range_error : Error :=
  new_Error "Arabic number must be an integer between 1 and 3999".
Definition format_error : Error :=
  new_Error "Invalid Roman numeral format".

(** The valid domain of [arabicToRoman]: the integers from 1 to 3999. *)
Definition in_range (arabic : number) : Prop :=
  ∃ z, arabic = Int z ∧ 1 <= z <= 3999.

(** The test [if (cached)] on a [string | null]: [null] and the empty
    string are falsy. *)
Definition if_truthy (cached : option string) : option string :=
  match cached with
  | Some text => if truthy text then Some text else None
  | None => None
  end.

Section WithRepository.

Context {S : Type} (repository : IConverterRepository S).

(** [arabicToRoman], lines 28-49.  The [save] on a miss is not awaited and
    its rejection is only logged: its outcome is dropped, its effect on the
    store is kept.  [None] only if [convertArabicToRoman] runs out of fuel. *)
Definition arabicToRoman (arabic : number) (st : S)
    : option (response string S) :=
  if negb (Number_isInteger arabic) || lt_literal arabic 1
     || gt_literal arabic 3999
  then
    Some (mkResponse (Thrown range_error) [] st)
  else
    let n := integer_value arabic in
    match findByArabic repository n st with
    | Thrown e => Some (mkResponse (Thrown e) [FindByArabic n] st)
    | Returned cached =>
        match if_truthy cached with
        | Some roman => Some (mkResponse (Returned roman) [FindByArabic n] st)
        | None =>
            roman ← convertArabicToRoman n;
            Some (mkResponse (Returned roman)
                    [FindByArabic n; SaveCall n roman]
                    (save repository n roman st).2)
        end
    end.

(** [romanToArabic], lines 51-73. *)
Definition romanToArabic (roman : string) (st : S) : response number S :=
  let normalizedRoman := toUpperCase (trim roman) in
  if negb (isValidRomanNumeral normalizedRoman) then
    mkResponse (Thrown format_error) [] st
  else
    match findByRoman repository normalizedRoman st with
    | Thrown e => mkResponse (Thrown e) [FindByRoman normalizedRoman] st
    | Returned (Some cached) =>
        mkResponse (Returned cached) [FindByRoman normalizedRoman] st
    | Returned None =>
        match convertRomanToArabic normalizedRoman with
        | Thrown e => mkResponse (Thrown e) [FindByRoman normalizedRoman] st
        | Returned arabic =>
            mkResponse (Returned (Int arabic))
              [FindByRoman normalizedRoman; SaveCall arabic normalizedRoman]
              (save repository arabic normalizedRoman st).2
        end
    end.

(** [backToArabic === arabic], where [arabic] is known to be an integer. *)
Definition strict_equal_integer (x : number) (z : Z) : bool :=
  match x with Int a => a =? z | _ => false end.

(** [testInverseProperty], lines 169-177: both calls in turn, [false] in
    place of any rejection.  The second call is only reached when the first
    has accepted [arabic], which is then an integer. *)
Definition testInverseProperty (arabic : number) (st : S)
    : option (response bool S) :=
  first ← arabicToRoman arabic st;
  match result first with
  | Thrown _ => Some (mkResponse (Returned false) (calls first) (store first))
  | Returned roman =>
      let second := romanToArabic roman (store first) in
      Some (mkResponse
              (Returned
                 match result second with
                 | Returned backToArabic =>
                     strict_equal_integer backToArabic (integer_value arabic)
                 | Thrown _ => false
                 end)
              (calls first ++ calls second)
              (store second))
  end.

(** The two conversions as requests, and the store a sequence of requests
    leaves behind. *)
Inductive request : Type :=
| ArabicToRoman (arabic : number)
| RomanToArabic (roman : string).

Definition serve (st : S) (req : request) : S :=
  match req with
  | ArabicToRoman arabic =>
      match arabicToRoman arabic st with
      | Some response => store response
      | None => st
      end
  | RomanToArabic roman => store (romanToArabic roman st)
  end.

Definition serve_all (requests : list request) (st : S) : S :=
  foldl serve st requests.

End WithRepository.

(** A request whose numeral, once normalised, fits a [VARCHAR(20)] column. *)
Definition fits_varchar20 (req : request) : Prop :=
  match req with
  | ArabicToRoman _ => True
  | RomanToArabic roman =>
      (String.length (toUpperCase (trim roman)) <= 20)%nat
  end.

End Service.

(** ** The form validators (frontend/src/utils/validation.ts) *)

Module Frontend.
Import JS Regex.

Record ValidationResult : Type := mkValidationResult {
  isValid : bool;
  error : option string
}.

Definition rejected (message : string) : ValidationResult :=
  {| isValid := false; error := Some message |}.

Definition accepted : ValidationResult :=
  {| isValid := true; error := None |}.

(** [/^\d+$/] *)
Definition digits : regex :=
  AtLeast 1 (Class ["0"; "1"; "2"; "3"; "4"; "5"; "6"; "7"; "8"; "9"]%char).

Definition isNaN (n : number) : bool :=
  match n with NaN => true | _ => false end.

(** [validateArabicNumber], lines 6-31.  [parseInt] is exact here; on long
    digit strings JavaScript rounds it (or gives [Infinity]), which the
    comparison with 3999 does not see. *)
Definition validateArabicNumber (value : string) : ValidationResult :=
  if negb (truthy (trim value)) then rejected "Please enter a number"
  else if negb (full_match digits value) then
    rejected "Please enter only digits (no letters, spaces, or decimals)"
  else
    let num := parseInt value in
    if isNaN num then rejected "Please enter a valid number"
    else if lt_literal num 1 then rejected "Number must be greater than 0"
    else if gt_literal num 3999 then
      rejected "Number must be less than or equal to 3999"
    else accepted.

(** [invalidPatterns], lines 46-68. *)
Definition invalidPatterns : list (regex * string) :=
  [ (AtLeast 4 (Chr "I"), "Cannot have more than 3 consecutive I's");
    (AtLeast 4 (Chr "X"), "Cannot have more than 3 consecutive X's");
    (AtLeast 4 (Chr "C"), "Cannot have more than 3 consecutive C's");
    (AtLeast 4 (Chr "M"), "Cannot have more than 3 consecutive M's");
    (AtLeast 2 (Chr "V"), "Cannot have more than 1 V");
    (AtLeast 2 (Chr "L"), "Cannot have more than 1 L");
    (AtLeast 2 (Chr "D"), "Cannot have more than 1 D");
    (lit "IL", "Invalid combination: IL");
    (lit "IC", "Invalid combination: IC");
    (lit "ID", "Invalid combination: ID");
    (lit "IM", "Invalid combination: IM");
    (lit "XD", "Invalid combination: XD");
    (lit "XM", "Invalid combination: XM");
    (lit "VL", "Invalid combination: VL");
    (lit "VC", "Invalid combination: VC");
    (lit "VD", "Invalid combination: VD");
    (lit "VM", "Invalid combination: VM");
    (lit "LC", "Invalid combination: LC");
    (lit "LD", "Invalid combination: LD");
    (lit "LM", "Invalid combination: LM");
    (lit "DM", "Invalid combination: DM") ].

(** The loop of lines 70-74: the message of the first pattern found. *)
Fixpoint first_match (patterns : list (regex * string)) (roman : string)
    : option string :=
  match patterns with
  | [] => None
  | (pattern, message) :: patterns' =>
      if test pattern roman then Some message
      else first_match patterns' roman
  end.

(** [validateRomanNumeral], lines 33-77. *)
Definition validateRomanNumeral (value : string) : ValidationResult :=
  if negb (truthy (trim value)) then rejected "Please enter a Roman numeral"
  else
    let roman := toUpperCase (trim value) in
    if negb (full_match Converter.validCharacters roman) then
      rejected "Roman numeral can only contain I, V, X, L, C, D, M"
    else
      match first_match invalidPatterns roman with
      | Some message => rejected message
      | None => accepted
      end.

(** The patterns the service checks and the form does not. *)
Definition subtractive_patterns : list regex :=
  [ Cat (AtLeast 2 (Chr "I")) (Class ["V"; "X"]%char);
    Cat (AtLeast 2 (Chr "X")) (Class ["L"; "C"]%char);
    Cat (AtLeast 2 (Chr "C")) (Class ["D"; "M"]%char) ].

End Frontend.

(** * Properties *)

(** ** The converter *)

Module ConverterFacts.
Import JS Regex Converter.

(** The inner loop ends by its own condition once the fuel covers
    [remaining]: every table value is at least 1. *)
Lemma while_fits_enough fuel value symbol result remaining :
  1 <= value → remaining <= Z.of_nat fuel →
  ∃ result' remaining',
    while_fits fuel value symbol result remaining = Some (result', remaining')
    ∧ remaining' <= remaining ∧ remaining' < value.
Proof.
  intros Hv. revert result remaining.
  induction fuel as [|fuel IH]; intros result remaining Hf; simpl.
  - destruct (Z.geb_spec remaining value) as [Hge|Hlt]; [lia|].
    exists result, remaining. split; [done | lia].
  - destruct (Z.geb_spec remaining value) as [Hge|Hlt].
    + destruct (IH (result +:+ symbol) (remaining - value)) as (r' & m' & -> & ? & ?);
        [lia|].
      exists r', m'. split; [done | lia].
    + exists result, remaining. split; [done | lia].
Qed.

Lemma for_each_enough fuel table result remaining :
  Forall (λ e, 1 <= e.1) table → remaining <= Z.of_nat fuel →
  is_Some (for_each fuel table result remaining).
Proof.
  intros Ht. revert result remaining.
  induction Ht as [|[value symbol] table Hv Ht IH]; intros result remaining Hf;
    simpl; [by eexists|].
  destruct (while_fits_enough fuel value symbol result remaining)
    as (r' & m' & -> & ? & ?); [done..|].
  apply IH. lia.
Qed.

(** [convertArabicToRoman] returns on every integer. *)
Lemma convertArabicToRoman_total arabic :
  is_Some (convertArabicToRoman arabic).
Proof.
  apply for_each_enough; [|lia].
  unfold romanNumerals. repeat (constructor; [simpl; lia|]). constructor.
Qed.

Lemma domain_spec n : 1 <= n <= 3999 → n ∈ domain.
Proof.
  intros Hn. unfold domain. apply list_elem_of_fmap.
  exists (Z.to_nat n). split; [lia|].
  apply list_elem_of_In, in_seq. lia.
Qed.

Lemma round_trip_domain : forallb round_trip_ok domain = true.
Proof. vm_compute. reflexivity. Qed.

Lemma round_trip_ok_domain n : 1 <= n <= 3999 → round_trip_ok n = true.
Proof.
  intros Hn. apply domain_spec, list_elem_of_In in Hn.
  pose proof round_trip_domain as H.
  rewrite forallb_forall in H. by apply H.
Qed.

Lemma round_trip_ok_inv n :
  round_trip_ok n = true →
  ∃ roman,
    convertArabicToRoman n = Some roman
    ∧ toUpperCase (trim roman) = roman
    ∧ isValidRomanNumeral roman = true
    ∧ convertRomanToArabic roman = Returned n.
Proof.
  unfold round_trip_ok. intros H.
  destruct (convertArabicToRoman n) as [roman|]; [|done].
  apply andb_true_iff in H as [H Hscan].
  apply andb_true_iff in H as [Hnorm Hvalid].
  exists roman. split; [done|]. split; [by apply String.eqb_eq|].
  split; [done|].
  destruct (convertRomanToArabic roman) as [m|]; [|done].
  apply Z.eqb_eq in Hscan. by subst.
Qed.

(** C2.  Round trip: for every integer [n] with [1 <= n <= 3999],
    [convertArabicToRoman] returns a numeral, and [convertRomanToArabic]
    (two-character match first, then one character) reads that numeral back
    as [n]. *)
Theorem round_trip n :
  1 <= n <= 3999 →
  ∃ roman,
    convertArabicToRoman n = Some roman
    ∧ convertRomanToArabic roman = Returned n.
Proof.
  intros Hn.
  destruct (round_trip_ok_inv n (round_trip_ok_domain n Hn))
    as (roman & ? & _ & _ & ?).
  by exists roman.
Qed.

Lemma round_trip_witness :
  ∃ roman,
    convertArabicToRoman 1994 = Some roman
    ∧ convertRomanToArabic roman = Returned 1994.
Proof. apply (round_trip 1994). lia. Defined.

(** C10.  ["VIV"] passes [isValidRomanNumeral] and scans to 9, whose
    numeral is ["IX"]: the validator accepts a string that
    [convertArabicToRoman] never produces, while it accepts every numeral
    that [convertArabicToRoman] produces on the domain. *)
Theorem validator_accepts_non_canonical :
  isValidRomanNumeral "VIV" = true
  ∧ convertRomanToArabic "VIV" = Returned 9
  ∧ convertArabicToRoman 9 = Some "IX"
  ∧ "IX" ≠ "VIV"
  ∧ (∀ n, 1 <= n <= 3999 → convertArabicToRoman n ≠ Some "VIV")
  ∧ (∀ n, 1 <= n <= 3999 →
       ∃ roman, convertArabicToRoman n = Some roman
                ∧ isValidRomanNumeral roman = true)
  ∧ Service.result (Service.romanToArabic Redis.repository "VIV" ∅)
    = Returned (Int 9).
Proof.
  split; [by vm_compute|]. split; [by vm_compute|].
  split; [by vm_compute|]. split; [done|]. split.
  - intros n Hn Hviv.
    destruct (round_trip_ok_inv n (round_trip_ok_domain n Hn))
      as (roman & Hroman & _ & _ & Hback).
    rewrite Hviv in Hroman. injection Hroman as <-.
    assert (convertRomanToArabic "VIV" = Returned 9) as H9 by (by vm_compute).
    rewrite H9 in Hback. injection Hback as <-.
    by vm_compute in Hviv.
  - split; [|by vm_compute].
    intros n Hn.
    destruct (round_trip_ok_inv n (round_trip_ok_domain n Hn))
      as (roman & ? & _ & ? & _).
    by exists roman.
Qed.

Lemma validator_accepts_non_canonical_witness :
  convertArabicToRoman 9 ≠ Some "VIV"
  ∧ ∃ roman, convertArabicToRoman 2023 = Some roman
             ∧ isValidRomanNumeral roman = true.
Proof.
  destruct validator_accepts_non_canonical
    as (_ & _ & _ & _ & Hne & Hin & _).
  split; [apply Hne; lia | apply Hin; lia].
Defined.

End ConverterFacts.

(** ** The service *)

Module ServiceFacts.
Import JS Converter Repository Service.

Section WithRepository.

Context {S : Type} (repository : IConverterRepository S).

Lemma arabicToRoman_invalid arabic st :
  ¬ in_range arabic →
  arabicToRoman repository arabic st
  = Some (mkResponse (Thrown range_error) [] st).
Proof.
  intros Hout. unfold arabicToRoman.
  destruct arabic as [z| | | |]; simpl; try done.
  - destruct (Z.ltb_spec z 1); [done|].
    destruct (Z.gtb_spec z 3999); [done|].
    destruct Hout. exists z. split; [done | lia].
Qed.

Lemma arabicToRoman_valid z st :
  1 <= z <= 3999 →
  arabicToRoman repository (Int z) st
  = match findByArabic repository z st with
    | Thrown e => Some (mkResponse (Thrown e) [FindByArabic z] st)
    | Returned cached =>
        match if_truthy cached with
        | Some roman => Some (mkResponse (Returned roman) [FindByArabic z] st)
        | None =>
            roman ← convertArabicToRoman z;
            Some (mkResponse (Returned roman)
                    [FindByArabic z; SaveCall z roman]
                    (save repository z roman st).2)
        end
    end.
Proof.
  intros Hz. unfold arabicToRoman. simpl.
  destruct (Z.ltb_spec z 1); [lia|].
  destruct (Z.gtb_spec z 3999); [lia|]. done.
Qed.

Lemma romanToArabic_invalid roman st :
  isValidRomanNumeral (toUpperCase (trim roman)) = false →
  romanToArabic repository roman st
  = mkResponse (Thrown format_error) [] st.
Proof. intros H. unfold romanToArabic. by rewrite H. Qed.

Lemma romanToArabic_valid roman st :
  isValidRomanNumeral (toUpperCase (trim roman)) = true →
  romanToArabic repository roman st
  = let normalizedRoman := toUpperCase (trim roman) in
    match findByRoman repository normalizedRoman st with
    | Thrown e => mkResponse (Thrown e) [FindByRoman normalizedRoman] st
    | Returned (Some cached) =>
        mkResponse (Returned cached) [FindByRoman normalizedRoman] st
    | Returned None =>
        match convertRomanToArabic normalizedRoman with
        | Thrown e => mkResponse (Thrown e) [FindByRoman normalizedRoman] st
        | Returned arabic =>
            mkResponse (Returned (Int arabic))
              [FindByRoman normalizedRoman; SaveCall arabic normalizedRoman]
              (save repository arabic normalizedRoman st).2
        end
    end.
Proof. intros H. unfold romanToArabic. by rewrite H. Qed.

(** C5.  [arabicToRoman] throws the range error on every number that is not
    an integer or lies outside [1, 3999].  On an integer of the domain the
    validation does not throw: the call returns a numeral whenever the cache
    lookup answers, and otherwise ends with the very error the lookup
    raised. *)
Theorem arabicToRoman_range_check arabic st :
  (¬ in_range arabic →
     arabicToRoman repository arabic st
     = Some (mkResponse (Thrown range_error) [] st))
  ∧ (in_range arabic →
     ∃ response,
       arabicToRoman repository arabic st = Some response
       ∧ match findByArabic repository (integer_value arabic) st with
         | Returned _ => ∃ roman, result response = Returned roman
         | Thrown e => result response = Thrown e
         end).
Proof.
  split; [apply arabicToRoman_invalid|].
  intros (z & -> & Hz). rewrite arabicToRoman_valid by done. simpl.
  destruct (findByArabic repository z st) as [cached|e]; [|by eexists].
  destruct (if_truthy cached) as [roman|]; [by eexists; eauto|].
  destruct (ConverterFacts.convertArabicToRoman_total z) as [roman ->].
  simpl. eexists. split; [done|]. by eexists.
Qed.

(** C7.  An invalid request is rejected before the repository is touched:
    the validation error is the result, no repository method is called
    (neither a lookup nor [save]) and the store is the one the request
    found. *)
Theorem validation_fails_fast st :
  (∀ arabic, ¬ in_range arabic →
     arabicToRoman repository arabic st
     = Some (mkResponse (Thrown range_error) [] st))
  ∧ (∀ roman, isValidRomanNumeral (toUpperCase (trim roman)) = false →
     romanToArabic repository roman st
     = mkResponse (Thrown format_error) [] st).
Proof.
  split; [intros; by apply arabicToRoman_invalid|].
  intros; by apply romanToArabic_invalid.
Qed.

(** C6.  A cache hit short-cuts the request: when the lookup finds the
    counterpart of a valid value, that counterpart is the result, the lookup
    is the only repository call (no [save]) and the store is unchanged. *)
Theorem cache_hit st :
  (∀ n roman, 1 <= n <= 3999 → roman ≠ "" →
     findByArabic repository n st = Returned (Some roman) →
     arabicToRoman repository (Int n) st
     = Some (mkResponse (Returned roman) [FindByArabic n] st))
  ∧ (∀ roman cached,
     isValidRomanNumeral (toUpperCase (trim roman)) = true →
     findByRoman repository (toUpperCase (trim roman)) st
     = Returned (Some cached) →
     romanToArabic repository roman st
     = mkResponse (Returned cached)
         [FindByRoman (toUpperCase (trim roman))] st).
Proof.
  split.
  - intros n roman Hn Hne Hfind. rewrite arabicToRoman_valid by done.
    rewrite Hfind. by destruct roman.
  - intros roman cached Hvalid Hfind. rewrite romanToArabic_valid by done.
    simpl. by rewrite Hfind.
Qed.

End WithRepository.

Lemma arabicToRoman_range_check_witness :
  arabicToRoman Redis.repository (Frac 2) ∅
  = Some (mkResponse (Thrown range_error) [] ∅)
  ∧ arabicToRoman Postgres.repository (Int 4000) Postgres.empty
    = Some (mkResponse (Thrown range_error) [] Postgres.empty)
  ∧ ∃ response,
      arabicToRoman Redis.repository (Int 2023) ∅ = Some response
      ∧ ∃ roman, result response = Returned roman.
Proof.
  split; [|split].
  - apply (arabicToRoman_range_check Redis.repository (Frac 2) ∅).
    intros (z & Hz & _). discriminate Hz.
  - apply (arabicToRoman_range_check Postgres.repository (Int 4000)).
    intros (z & Hz & ?). injection Hz as <-. lia.
  - destruct (arabicToRoman_range_check Redis.repository (Int 2023) ∅)
      as [_ Hin].
    destruct Hin as (response & Hresponse & Hresult).
    + exists 2023. split; [reflexivity | lia].
    + exists response. split; [exact Hresponse | exact Hresult].
Defined.

Lemma validation_fails_fast_witness :
  arabicToRoman Redis.repository NaN ∅
  = Some (mkResponse (Thrown range_error) [] ∅)
  ∧ romanToArabic Postgres.repository "iiii" Postgres.empty
    = mkResponse (Thrown format_error) [] Postgres.empty.
Proof.
  destruct (validation_fails_fast Redis.repository ∅) as [Harabic _].
  destruct (validation_fails_fast Postgres.repository Postgres.empty)
    as [_ Hroman].
  split.
  - apply Harabic. intros (z & Hz & _). discriminate Hz.
  - apply Hroman. vm_compute. reflexivity.
Defined.

Lemma cache_hit_witness :
  let redis := (Redis.save 2023 "MMXXIII" ∅).2 in
  let postgres := (Postgres.save 2023 "MMXXIII" Postgres.empty).2 in
  arabicToRoman Redis.repository (Int 2023) redis
  = Some (mkResponse (Returned "MMXXIII") [FindByArabic 2023] redis)
  ∧ romanToArabic Postgres.repository "mmxxiii" postgres
    = mkResponse (Returned (Int 2023)) [FindByRoman "MMXXIII"] postgres.
Proof.
  intros redis postgres.
  destruct (cache_hit Redis.repository redis) as [Harabic _].
  destruct (cache_hit Postgres.repository postgres) as [_ Hroman].
  split.
  - apply Harabic; [lia | discriminate | vm_compute; reflexivity].
  - apply (Hroman "mmxxiii" (Int 2023)); vm_compute; reflexivity.
Defined.

(** C8.  The service rejects ["IIII"], ["VV"], ["IL"], ["IIV"] and ["XXL"]
    with the format error whatever the store holds; the validator accepts
    ["MMXXIII"], ["MMMCMXCIX"], ["IV"] and ["IX"], which scan to 2023, 3999,
    4 and 9, and so does the service on either backend with nothing cached. *)
Theorem grammar_examples :
  (∀ S (repository : IConverterRepository S) st,
     Forall (λ roman,
       romanToArabic repository roman st
       = mkResponse (Thrown format_error) [] st)
       ["IIII"; "VV"; "IL"; "IIV"; "XXL"])
  ∧ Forall (λ '(roman, arabic),
       isValidRomanNumeral roman = true
       ∧ convertRomanToArabic roman = Returned arabic
       ∧ result (romanToArabic Redis.repository roman ∅)
         = Returned (Int arabic)
       ∧ result (romanToArabic Postgres.repository roman Postgres.empty)
         = Returned (Int arabic))
      [("MMXXIII", 2023); ("MMMCMXCIX", 3999); ("IV", 4); ("IX", 9)].
Proof.
  split.
  - intros S repository st.
    repeat (constructor; [by apply romanToArabic_invalid; vm_compute|]).
    constructor.
  - repeat (constructor; [by vm_compute|]). constructor.
Qed.

End ServiceFacts.

(** ** Decimal text of integers *)

Module DecimalFacts.
Import JS.

#[local] Arguments String.append : simpl nomatch.

Lemma append_assoc (s t u : string) : (s +:+ t) +:+ u = s +:+ (t +:+ u).
Proof. induction s as [|c s IH]; simpl; [done | by rewrite IH]. Qed.

Lemma all_digits_app s t :
  all_digits (s +:+ t) = all_digits s && all_digits t.
Proof.
  induction s as [|c s IH]; simpl; [done|]. by rewrite IH, andb_assoc.
Qed.

Lemma digit_value_char x :
  (x < 10)%N → digit_value (pretty_N_char x) = Some (Z.of_N x).
Proof.
  intros Hx.
  assert (x = 0 ∨ x = 1 ∨ x = 2 ∨ x = 3 ∨ x = 4 ∨ x = 5 ∨ x = 6 ∨ x = 7
          ∨ x = 8 ∨ x = 9)%N as Hcases by lia.
  repeat (destruct Hcases as [->|Hcases]; [reflexivity|]).
  by subst.
Qed.

Lemma pretty_N_go_app x s : pretty_N_go x s = pretty_N_go x "" +:+ s.
Proof.
  revert s. induction (N.lt_wf_0 x) as [x _ IH]; intros s.
  destruct (decide (x = 0)%N) as [->|Hx]; [by rewrite !pretty_N_go_0|].
  assert (x `div` 10 < x)%N as Hlt by (apply N.div_lt; lia).
  rewrite !(pretty_N_go_step x) by lia.
  set (c := pretty_N_char (x `mod` 10)).
  rewrite (IH _ Hlt (String c s)), (IH _ Hlt (String c "")).
  by rewrite append_assoc.
Qed.

Lemma pretty_N_go_snoc x :
  (0 < x)%N →
  pretty_N_go x ""
  = pretty_N_go (x `div` 10) "" +:+ String (pretty_N_char (x `mod` 10)) "".
Proof. intros Hx. by rewrite pretty_N_go_step, pretty_N_go_app. Qed.

Lemma pretty_N_go_digits x : all_digits (pretty_N_go x "") = true.
Proof.
  induction (N.lt_wf_0 x) as [x _ IH].
  destruct (decide (x = 0)%N) as [->|Hx]; [done|].
  rewrite pretty_N_go_snoc, all_digits_app by lia.
  rewrite IH by (apply N.div_lt; lia). simpl.
  rewrite digit_value_char by (apply N.mod_lt; lia). done.
Qed.

Lemma append_nonempty_r s c t : s +:+ String c t ≠ "".
Proof. by destruct s. Qed.

Lemma pretty_N_go_nonempty x : (0 < x)%N → pretty_N_go x "" ≠ "".
Proof. intros Hx. rewrite pretty_N_go_snoc by done. apply append_nonempty_r. Qed.

Lemma digits_prefix_app acc s t :
  all_digits s = true →
  digits_prefix acc (s +:+ t) = digits_prefix (digits_prefix acc s) t.
Proof.
  revert acc. induction s as [|c s IH]; intros acc Hs; simpl in *; [done|].
  apply andb_true_iff in Hs as [Hc Hs].
  apply bool_decide_eq_true in Hc as [d Hd]. rewrite Hd. by apply IH.
Qed.

Lemma digits_prefix_pretty x acc :
  ∃ k, digits_prefix acc (pretty_N_go x "") = acc * k + Z.of_N x.
Proof.
  revert acc. induction (N.lt_wf_0 x) as [x _ IH]; intros acc.
  destruct (decide (x = 0)%N) as [->|Hx].
  { exists 1. rewrite pretty_N_go_0. simpl. lia. }
  rewrite pretty_N_go_snoc by lia.
  rewrite digits_prefix_app by apply pretty_N_go_digits.
  destruct (IH (x `div` 10)%N ltac:(apply N.div_lt; lia) acc) as [k ->].
  simpl. rewrite digit_value_char by (apply N.mod_lt; lia).
  exists (k * 10).
  pose proof (N.div_mod x 10 ltac:(lia)) as Hdm.
  rewrite N2Z.inj_div, N2Z.inj_mod.
  rewrite (Z.div_mod (Z.of_N x) 10) at 3 by lia. simpl Z.of_N. lia.
Qed.

Lemma digit_not_special c :
  is_Some (digit_value c) →
  is_whitespace c = false ∧ c ≠ "-"%char ∧ c ≠ "+"%char.
Proof.
  destruct c as [[] [] [] [] [] [] [] []]; vm_compute; intros [d Hd];
    try discriminate Hd; by repeat split.
Qed.

Lemma parseInt_digits c s :
  is_Some (digit_value c) →
  parseInt (String c s) = Int (digits_prefix 0 (String c s)).
Proof.
  intros Hc. destruct (digit_not_special c Hc) as (Hws & Hminus & Hplus).
  unfold parseInt. cbn [skip_whitespace]. rewrite Hws.
  assert (unsigned_prefix (String c s) = Int (digits_prefix 0 (String c s)))
    as Hu.
  { unfold unsigned_prefix. cbn [starts_with_digit].
    by rewrite bool_decide_eq_true_2. }
  destruct c as [[] [] [] [] [] [] [] []]; try done.
Qed.

Lemma pretty_pos_shape p :
  ∃ c s, pretty (N.pos p) = String c s
         ∧ is_Some (digit_value c)
         ∧ all_digits s = true
         ∧ digits_prefix 0 (String c s) = Z.pos p.
Proof.
  assert (pretty (N.pos p) = pretty_N_go (N.pos p) "") as Hp by done.
  pose proof (pretty_N_go_digits (N.pos p)) as Hd.
  pose proof (pretty_N_go_nonempty (N.pos p) ltac:(lia)) as Hne.
  destruct (digits_prefix_pretty (N.pos p) 0) as [k Hk].
  rewrite Hp. destruct (pretty_N_go (N.pos p) "") as [|c s]; [done|].
  simpl in Hd. apply andb_true_iff in Hd as [Hc Hs].
  apply bool_decide_eq_true in Hc.
  exists c, s. repeat split; try done; rewrite Hk; simpl; lia.
Qed.

(** [parseInt] reads back what [toString] printed. *)
Lemma parseInt_toString z : parseInt (toString z) = Int z.
Proof.
  unfold toString, pretty, pretty_Z. destruct z as [|p|p]; [done|..].
  - destruct (pretty_pos_shape p) as (c & s & Hp & Hc & _ & Hv).
    unfold pretty, pretty_positive. rewrite Hp.
    by rewrite parseInt_digits, Hv.
  - destruct (pretty_pos_shape p) as (c & s & Hp & Hc & _ & Hv).
    unfold pretty, pretty_positive. rewrite Hp.
    change ("-" +:+ String c s) with (String "-" (String c s)).
    unfold parseInt. cbn [skip_whitespace].
    change (is_whitespace "-") with false. cbv iota.
    unfold unsigned_prefix. cbn [starts_with_digit].
    rewrite bool_decide_eq_true_2 by done. unfold negate. by rewrite Hv.
Qed.

Lemma toString_nonempty z : truthy (toString z) = true.
Proof.
  unfold toString, pretty, pretty_Z. destruct z as [|p|p]; [done| |done].
  destruct (pretty_pos_shape p) as (c & s & Hp & _).
  unfold pretty, pretty_positive. by rewrite Hp.
Qed.

Lemma all_digits_no_colon s : all_digits s = true → no_colon s = true.
Proof.
  induction s as [|c s IH]; simpl; [done|]. intros H.
  apply andb_true_iff in H as [Hc Hs]. rewrite IH by done.
  apply bool_decide_eq_true in Hc.
  destruct c as [[] [] [] [] [] [] [] []]; try done;
    by destruct Hc as [d Hd]; vm_compute in Hd.
Qed.

Lemma toString_no_colon z : no_colon (toString z) = true.
Proof.
  unfold toString, pretty, pretty_Z. destruct z as [|p|p]; [done|..].
  - destruct (pretty_pos_shape p) as (c & s & Hp & Hc & Hs & _).
    unfold pretty, pretty_positive. rewrite Hp.
    apply (all_digits_no_colon (String c s)). simpl.
    by rewrite bool_decide_eq_true_2, Hs.
  - destruct (pretty_pos_shape p) as (c & s & Hp & Hc & Hs & _).
    unfold pretty, pretty_positive. rewrite Hp.
    change ("-" +:+ String c s) with (String "-" (String c s)).
    change (no_colon (String "-" (String c s)))
      with (no_colon (String c s)).
    apply (all_digits_no_colon (String c s)). simpl.
    by rewrite bool_decide_eq_true_2, Hs.
Qed.

Lemma split_at_colon s1 s2 t1 t2 :
  no_colon s1 = true → no_colon s2 = true →
  s1 +:+ String ":" t1 = s2 +:+ String ":" t2 → s1 = s2 ∧ t1 = t2.
Proof.
  revert s2. induction s1 as [|c s1 IH]; intros [|d s2] H1 H2 Heq;
    simpl in *.
  - by injection Heq as ->.
  - injection Heq as <- _. by rewrite Ascii.eqb_refl in H2.
  - injection Heq as -> _. by rewrite Ascii.eqb_refl in H1.
  - injection Heq as -> Heq.
    apply andb_true_iff in H1 as [_ H1]. apply andb_true_iff in H2 as [_ H2].
    destruct (IH s2 H1 H2 Heq) as [-> ->]. done.
Qed.

Lemma toString_inj a b : toString a = toString b → a = b.
Proof. apply pretty_Z_inj. Qed.

(** *** Safe integers *)

Lemma Number_isSafeInteger_spec z :
  Number_isSafeInteger z = true
  ↔ -9007199254740991 <= z <= 9007199254740991.
Proof.
  unfold Number_isSafeInteger, MAX_SAFE_INTEGER.
  rewrite andb_true_iff, !Z.leb_le. lia.
Qed.

Lemma in_int64_spec z :
  Redis.in_int64 z = true
  ↔ -9223372036854775808 <= z <= 9223372036854775807.
Proof. unfold Redis.in_int64. rewrite andb_true_iff, !Z.leb_le. lia. Qed.

Lemma in_int8_spec z :
  Postgres.in_int8 z = true
  ↔ -9223372036854775808 <= z <= 9223372036854775807.
Proof. unfold Postgres.in_int8. rewrite andb_true_iff, !Z.leb_le. lia. Qed.

(** Index arguments made of safe integers are read by the server. *)
Lemma ZRANGE_safe key limit offset db :
  Number_isSafeInteger limit = true → Number_isSafeInteger offset = true →
  Redis.ZRANGE key offset (offset + limit - 1) db
  = match db !! key with
    | None => Returned []
    | Some (Redis.VZSet members) =>
        Returned (Redis.window offset (offset + limit - 1)
                    (Redis.zset_sorted members).*1)
    | Some (Redis.VString _) => Thrown Redis.WRONGTYPE
    end.
Proof.
  intros Hl%Number_isSafeInteger_spec Ho%Number_isSafeInteger_spec.
  unfold Redis.ZRANGE.
  assert (Redis.in_int64 offset = true) as -> by (apply in_int64_spec; lia).
  assert (Redis.in_int64 (offset + limit - 1) = true) as ->
    by (apply in_int64_spec; lia).
  done.
Qed.

End DecimalFacts.

(** ** The Redis repository *)

Module RedisFacts.
Import JS Types Redis DecimalFacts.

#[local] Arguments String.append : simpl nomatch.

(** *** Keys *)

Lemma arabicKey_inj a b : arabicKey a = arabicKey b → a = b.
Proof. intros H. apply String.app_inj in H. by apply toString_inj. Qed.

Lemma romanKey_inj r s : romanKey r = romanKey s → r = s.
Proof. intros H. by apply String.app_inj in H. Qed.

Lemma arabicKey_romanKey a r : arabicKey a ≠ romanKey r.
Proof. discriminate. Qed.

Lemma arabicKey_allConversionsKey a : arabicKey a ≠ allConversionsKey.
Proof. discriminate. Qed.

Lemma romanKey_allConversionsKey r : romanKey r ≠ allConversionsKey.
Proof. discriminate. Qed.

Lemma entry_inj a r b s : entry a r = entry b s → a = b ∧ r = s.
Proof.
  unfold entry. intros H.
  apply split_at_colon in H as [H ->]; [|apply toString_no_colon..].
  split; [by apply toString_inj | done].
Qed.

Lemma prefix_empty s : String.prefix "" s = true.
Proof. by destruct s. Qed.

Lemma prefix_arabicKey a :
  String.prefix arabicKeyPrefix (arabicKey a) = true
  ∧ String.prefix romanKeyPrefix (arabicKey a) = false.
Proof. split; [apply prefix_empty | reflexivity]. Qed.

Lemma prefix_romanKey r :
  String.prefix arabicKeyPrefix (romanKey r) = false
  ∧ String.prefix romanKeyPrefix (romanKey r) = true.
Proof. split; [reflexivity | apply prefix_empty]. Qed.

Lemma prefix_allConversionsKey :
  String.prefix arabicKeyPrefix allConversionsKey = false
  ∧ String.prefix romanKeyPrefix allConversionsKey = false.
Proof. split; reflexivity. Qed.

(** *** What [save] writes *)

Lemma ZADD_index score member db :
  index_is_a_set db →
  ZADD allConversionsKey score member db
  = Returned (<[allConversionsKey := VZSet (<[member := score]> (index db))]> db).
Proof.
  intros Hset. unfold ZADD, index.
  destruct (db !! allConversionsKey) as [[s|members]|] eqn:Hall.
  - destruct (Hset _ Hall) as [? [=]].
  - done.
  - by rewrite insert_empty.
Qed.

Lemma index_is_a_set_SET key v db :
  key ≠ allConversionsKey → index_is_a_set db → index_is_a_set (SET key v db).
Proof.
  intros Hne Hset w. unfold SET. rewrite lookup_insert_ne by done. apply Hset.
Qed.

Lemma index_SET key v db :
  key ≠ allConversionsKey → index (SET key v db) = index db.
Proof. intros Hne. unfold index, SET. by rewrite lookup_insert_ne. Qed.

Lemma save_pipeline_written a r db :
  index_is_a_set db →
  save_pipeline a r db = (Returned tt, written a r db).
Proof.
  intros Hset. unfold save_pipeline.
  rewrite ZADD_index
    by auto using index_is_a_set_SET, arabicKey_allConversionsKey,
         romanKey_allConversionsKey.
  rewrite !index_SET
    by auto using arabicKey_allConversionsKey, romanKey_allConversionsKey.
  done.
Qed.

(** Both candidate keys absent: the script makes the three writes. *)
Lemma save_absent a r db :
  index_is_a_set db →
  db !! arabicKey a = None → db !! romanKey r = None →
  save a r db = (Returned tt, written a r db).
Proof.
  intros Hset Ha Hr.
  unfold save, luaScript, mbind, script_bind, call_GET, GET.
  rewrite Ha, Hr. unfold call_SET, call_ZADD, mret, script_ret.
  rewrite ZADD_index
    by auto using index_is_a_set_SET, arabicKey_allConversionsKey,
         romanKey_allConversionsKey.
  rewrite !index_SET
    by auto using arabicKey_allConversionsKey, romanKey_allConversionsKey.
  done.
Qed.

(** A candidate key present: the script writes nothing. *)
Lemma save_present_store a r db :
  ¬ (db !! arabicKey a = None ∧ db !! romanKey r = None) →
  (save a r db).2 = db.
Proof.
  intros Hpresent.
  unfold save, luaScript, mbind, script_bind, call_GET, GET.
  destruct (db !! arabicKey a) as [[s|ms]|] eqn:Ha;
    destruct (db !! romanKey r) as [[t|mt]|] eqn:Hr; try done.
  destruct Hpresent. split; reflexivity.
Qed.


(** *** The abstraction is kept by the writes *)

Lemma represents_empty : represents ∅ [].
Proof.
  unfold represents, index. repeat split.
  - by rewrite lookup_empty.
  - intros (r & _ & Hin). by apply elem_of_nil in Hin.
  - by rewrite lookup_empty.
  - intros (a & _ & Hin). by apply elem_of_nil in Hin.
  - by rewrite lookup_empty.
  - by rewrite lookup_empty.
  - intros (a & r & Hin & _). by apply elem_of_nil in Hin.
Qed.

Lemma represents_index_is_a_set db l : represents db l → index_is_a_set db.
Proof. by intros (_ & _ & H & _). Qed.

Lemma represents_arabic db l a r :
  represents db l → (a, r) ∈ l ↔ db !! arabicKey a = Some (VString r).
Proof.
  intros (Ha & _). rewrite Ha. split.
  - intros Hin. by exists r.
  - by intros (r' & [= ->] & Hin).
Qed.

Lemma represents_roman db l a r :
  represents db l →
  (a, r) ∈ l ↔ db !! romanKey r = Some (VString (toString a)).
Proof.
  intros (_ & Hr & _). rewrite Hr. split.
  - intros Hin. by exists a.
  - intros (a' & [= Heq] & Hin). by apply toString_inj in Heq as ->.
Qed.

Lemma represents_equiv db l l' :
  (∀ x, x ∈ l ↔ x ∈ l') → represents db l → represents db l'.
Proof.
  intros Heq (Ha & Hr & Hset & Hi). repeat split.
  - intros H. apply Ha in H as (r & -> & Hin). exists r. by rewrite <- Heq.
  - intros (r & -> & Hin). apply Ha. exists r. by rewrite Heq.
  - intros H. apply Hr in H as (a & -> & Hin). exists a. by rewrite <- Heq.
  - intros (a & -> & Hin). apply Hr. exists a. by rewrite Heq.
  - done.
  - intros H. apply Hi in H as (a & r & Hin & ? & ?).
    exists a, r. by rewrite <- Heq.
  - intros (a & r & Hin & ? & ?). apply Hi. exists a, r. by rewrite Heq.
Qed.

Lemma index_written a r db :
  index (written a r db) = <[entry a r := a]> (index db).
Proof. unfold written, index at 1. by rewrite lookup_insert_eq. Qed.

Lemma written_arabicKey a r db b :
  written a r db !! arabicKey b
  = if decide (a = b) then Some (VString r) else db !! arabicKey b.
Proof.
  unfold written.
  rewrite lookup_insert_ne by (symmetry; apply arabicKey_allConversionsKey).
  rewrite lookup_insert_ne by (symmetry; apply arabicKey_romanKey).
  destruct (decide (a = b)) as [->|Hne]; [by rewrite lookup_insert_eq|].
  rewrite lookup_insert_ne; [done|]. intros H. by apply arabicKey_inj in H.
Qed.

Lemma written_romanKey a r db s :
  written a r db !! romanKey s
  = if decide (r = s) then Some (VString (toString a)) else db !! romanKey s.
Proof.
  unfold written.
  rewrite lookup_insert_ne by (symmetry; apply romanKey_allConversionsKey).
  destruct (decide (r = s)) as [->|Hne]; [by rewrite lookup_insert_eq|].
  rewrite lookup_insert_ne by (intros H; by apply romanKey_inj in H).
  rewrite lookup_insert_ne by apply arabicKey_romanKey. done.
Qed.

Lemma represents_written a r db l :
  represents db l →
  (∀ r', (a, r') ∉ l) → (∀ a', (a', r) ∉ l) →
  represents (written a r db) ((a, r) :: l).
Proof.
  intros (Ha & Hr & Hset & Hi) Hfa Hfr. split; [|split; [|split]].
  - intros b v. rewrite written_arabicKey.
    destruct (decide (a = b)) as [<-|Hne].
    + split.
      * intros [= <-]. exists r. split; [done | by left].
      * intros (r' & -> & Hin). apply elem_of_cons in Hin as [[= ->]|Hin];
          [done | by destruct (Hfa r')].
    + rewrite Ha. split.
      * intros (r' & -> & Hin). exists r'. split; [done | by right].
      * intros (r' & -> & Hin). exists r'. split; [done|].
        apply elem_of_cons in Hin as [[= ? ?]|Hin]; [by subst | done].
  - intros s v. rewrite written_romanKey.
    destruct (decide (r = s)) as [<-|Hne].
    + split.
      * intros [= <-]. exists a. split; [done | by left].
      * intros (a' & -> & Hin). apply elem_of_cons in Hin as [[= ->]|Hin];
          [done | by destruct (Hfr a')].
    + rewrite Hr. split.
      * intros (a' & -> & Hin). exists a'. split; [done | by right].
      * intros (a' & -> & Hin). exists a'. split; [done|].
        apply elem_of_cons in Hin as [[= ? ?]|Hin]; [by subst | done].
  - intros v. unfold written. rewrite lookup_insert_eq. intros [= <-].
    by eexists.
  - intros member score. rewrite index_written.
    destruct (decide (entry a r = member)) as [<-|Hne].
    + rewrite lookup_insert_eq. split.
      * intros [= <-]. exists a, r. split; [by left | done].
      * intros (a' & r' & _ & Heq & ->).
        by apply entry_inj in Heq as [-> _].
    + rewrite lookup_insert_ne by done. rewrite Hi. split.
      * intros (a' & r' & Hin & ? & ?). exists a', r'. split; [by right|done].
      * intros (a' & r' & Hin & -> & ->). exists a', r'.
        apply elem_of_cons in Hin as [[= -> ->]|Hin]; [done | by split].
Qed.

(** Saving a record that is there again rewrites what is there. *)
Lemma written_same a r db l :
  represents db l → (a, r) ∈ l → written a r db = db.
Proof.
  intros Hrep Hin.
  pose proof (proj1 (represents_arabic db l a r Hrep) Hin) as Ha.
  pose proof (proj1 (represents_roman db l a r Hrep) Hin) as Hr.
  destruct Hrep as (_ & _ & Hset & Hi).
  assert (index db !! entry a r = Some a) as He.
  { apply Hi. by exists a, r. }
  unfold written. rewrite (insert_id (index db)) by done.
  rewrite (insert_id db (arabicKey a)) by done.
  rewrite (insert_id db (romanKey r)) by done.
  unfold index in *.
  destruct (db !! allConversionsKey) as [[s|members]|] eqn:Hall.
  - by rewrite lookup_empty in He.
  - by rewrite insert_id.
  - by rewrite lookup_empty in He.
Qed.

(** *** [deleteAll] *)

Lemma elem_of_KEYS prefix key db :
  key ∈ KEYS prefix db ↔ is_Some (db !! key) ∧ String.prefix prefix key = true.
Proof.
  unfold KEYS. rewrite list_elem_of_fmap. split.
  - intros ([k v] & -> & Hin). apply elem_of_map_to_list in Hin.
    apply map_lookup_filter_Some in Hin as [Hk HP]. by split; [eexists|].
  - intros ([v Hv] & HP). exists (key, v). split; [done|].
    apply elem_of_map_to_list, map_lookup_filter_Some. by split.
Qed.

Lemma length_KEYS prefix db :
  List.length (KEYS prefix db)
  = size (filter (λ kv : string * value, String.prefix prefix kv.1 = true) db).
Proof. unfold KEYS. by rewrite length_fmap, length_map_to_list. Qed.

Lemma length_KEYS_insert_fresh prefix key v db :
  db !! key = None → String.prefix prefix key = true →
  List.length (KEYS prefix (<[key := v]> db))
  = Datatypes.S (List.length (KEYS prefix db)).
Proof.
  intros Hfresh Hp. rewrite !length_KEYS.
  rewrite map_filter_insert_True by done.
  apply map_size_insert_None, map_lookup_filter_None. by left.
Qed.

Lemma length_KEYS_insert_other prefix key v db :
  String.prefix prefix key = false →
  List.length (KEYS prefix (<[key := v]> db)) = List.length (KEYS prefix db).
Proof.
  intros Hp. rewrite !length_KEYS.
  rewrite map_filter_insert_not; [done|].
  intros y. simpl. by rewrite Hp.
Qed.

Lemma length_KEYS_written a r db :
  db !! arabicKey a = None → db !! romanKey r = None →
  List.length (KEYS arabicKeyPrefix (written a r db))
  = Datatypes.S (List.length (KEYS arabicKeyPrefix db))
  ∧ List.length (KEYS romanKeyPrefix (written a r db))
    = Datatypes.S (List.length (KEYS romanKeyPrefix db)).
Proof.
  intros Ha Hr. unfold written. split.
  - rewrite length_KEYS_insert_other by apply prefix_allConversionsKey.
    rewrite length_KEYS_insert_other by apply prefix_romanKey.
    apply length_KEYS_insert_fresh; [done | apply prefix_arabicKey].
  - rewrite length_KEYS_insert_other by apply prefix_allConversionsKey.
    rewrite length_KEYS_insert_fresh; [|..|apply prefix_romanKey].
    + by rewrite length_KEYS_insert_other by apply prefix_arabicKey.
    + rewrite lookup_insert_ne by apply arabicKey_romanKey. done.
Qed.

Lemma lookup_DEL keys db key :
  DEL keys db !! key = if decide (key ∈ keys) then None else db !! key.
Proof.
  unfold DEL. induction keys as [|k keys IH]; simpl.
  - destruct (decide (key ∈ [])) as [Hin|]; [|done].
    by apply elem_of_nil in Hin.
  - destruct (decide (k = key)) as [->|Hne].
    + rewrite lookup_delete_eq. rewrite decide_True; [done | by left].
    + rewrite lookup_delete_ne by done. rewrite IH.
      destruct (decide (key ∈ keys)) as [Hin|Hnin].
      * rewrite decide_True; [done | by right].
      * rewrite decide_False; [done|].
        intros [->|Hin]%elem_of_cons; done.
Qed.

Lemma deleteAll_eq db :
  deleteAll db
  = (Returned
       (Z.of_nat (List.length (KEYS arabicKeyPrefix db))
        + Z.of_nat (List.length (KEYS romanKeyPrefix db))),
     DEL (KEYS arabicKeyPrefix db ++ KEYS romanKeyPrefix db
            ++ [allConversionsKey]) db).
Proof.
  unfold deleteAll. rewrite !length_app. simpl List.length.
  destruct (Nat.eqb_spec
              (List.length (KEYS arabicKeyPrefix db)
               + (List.length (KEYS romanKeyPrefix db) + 1)) 0) as [H0|_];
    [lia|].
  do 2 f_equal. lia.
Qed.

Lemma lookup_deleteAll db key :
  (String.prefix arabicKeyPrefix key = true
   ∨ String.prefix romanKeyPrefix key = true
   ∨ key = allConversionsKey) →
  (deleteAll db).2 !! key = None.
Proof.
  intros Hkey. rewrite deleteAll_eq. simpl. rewrite lookup_DEL.
  destruct (decide _) as [|Hnin]; [done|].
  destruct (db !! key) as [v|] eqn:Hv; [|done].
  destruct Hnin. rewrite !elem_of_app, !elem_of_KEYS, list_elem_of_singleton.
  rewrite Hv. destruct Hkey as [?|[?|?]]; eauto.
Qed.

Lemma deleteAll_represents db : represents (deleteAll db).2 [].
Proof.
  assert (∀ x : Z * string, x ∉ []) as Hnil by (intros x H; by apply elem_of_nil in H).
  unfold represents, index.
  rewrite (lookup_deleteAll db allConversionsKey) by auto.
  repeat split.
  - rewrite lookup_deleteAll; [done|]. left. apply prefix_arabicKey.
  - intros (? & _ & Hin). by apply Hnil in Hin.
  - rewrite lookup_deleteAll; [done|]. right; left. apply prefix_romanKey.
  - intros (? & _ & Hin). by apply Hnil in Hin.
  - done.
  - by rewrite lookup_empty.
  - intros (? & ? & Hin & _). by apply Hnil in Hin.
Qed.

Lemma deleteAll_no_KEYS db prefix :
  prefix = arabicKeyPrefix ∨ prefix = romanKeyPrefix →
  KEYS prefix (deleteAll db).2 = [].
Proof.
  intros Hp. destruct (KEYS prefix (deleteAll db).2) as [|key keys] eqn:HK;
    [done|].
  assert (key ∈ KEYS prefix (deleteAll db).2) as Hin by (rewrite HK; by left).
  apply elem_of_KEYS in Hin as [[v Hv] Hpre].
  rewrite lookup_deleteAll in Hv; [done|].
  destruct Hp as [->| ->]; auto.
Qed.

(** *** Reachable keyspaces *)

Lemma holds_empty : holds ∅ [].
Proof.
  split; [apply represents_empty|]. repeat split; try constructor.
Qed.

Lemma represents_fresh db l a r :
  represents db l →
  db !! arabicKey a = None → db !! romanKey r = None →
  (∀ r', (a, r') ∉ l) ∧ (∀ a', (a', r) ∉ l).
Proof.
  intros Hrep Ha Hr. split.
  - intros r' Hin. apply (represents_arabic _ _ _ _ Hrep) in Hin. congruence.
  - intros a' Hin. apply (represents_roman _ _ _ _ Hrep) in Hin. congruence.
Qed.

Lemma represents_strings db l :
  represents db l →
  (∀ a v, db !! arabicKey a = Some v → ∃ s, v = VString s)
  ∧ (∀ r v, db !! romanKey r = Some v → ∃ s, v = VString s).
Proof.
  intros (Ha & Hr & _). split.
  - intros a v Hv. apply Ha in Hv as (r & -> & _). by eexists.
  - intros r v Hv. apply Hr in Hv as (a & -> & _). by eexists.
Qed.

Lemma holds_save db l a r :
  holds db l → ∃ l', holds (save a r db).2 l'.
Proof.
  intros (Hrep & Hnd1 & Hnd2 & Hca & Hcr).
  destruct (decide (db !! arabicKey a = None ∧ db !! romanKey r = None))
    as [[Ha Hr]|Hpresent].
  - rewrite save_absent by eauto using represents_index_is_a_set. simpl.
    destruct (represents_fresh db l a r Hrep Ha Hr) as [Hfa Hfr].
    destruct (length_KEYS_written a r db Ha Hr) as [Hla Hlr].
    exists ((a, r) :: l). split; [by apply represents_written|].
    rewrite !fmap_cons. simpl. repeat split.
    + constructor; [|done]. intros Hin.
      apply list_elem_of_fmap in Hin as ([a' r'] & Heq & Hin).
      simpl in Heq. subst a'. by destruct (Hfa r').
    + constructor; [|done]. intros Hin.
      apply list_elem_of_fmap in Hin as ([a' r'] & Heq & Hin).
      simpl in Heq. subst r'. by destruct (Hfr a').
    + by rewrite Hla, Hca.
    + by rewrite Hlr, Hcr.
  - rewrite save_present_store by done. exists l. unfold holds. tauto.
Qed.

Lemma holds_deleteAll db : holds (deleteAll db).2 [].
Proof.
  split; [apply deleteAll_represents|].
  rewrite !deleteAll_no_KEYS by auto. repeat split; constructor.
Qed.

Lemma holds_step db l o :
  holds db l → ∃ l', holds (Repository.step repository db o) l'.
Proof.
  intros H. destruct o as [a r|]; simpl.
  - by apply (holds_save db l).
  - exists []. apply holds_deleteAll.
Qed.

Lemma holds_run ops db l :
  holds db l → ∃ l', holds (Repository.run repository ops db) l'.
Proof.
  revert db l. induction ops as [|o ops IH]; intros db l H; simpl.
  - by exists l.
  - destruct (holds_step db l o H) as [l' H']. by apply (IH _ l').
Qed.

(** *** Lookups on a keyspace that represents [l] *)

Lemma findByArabic_represents db l a r :
  represents db l →
  (a, r) ∈ l ↔ findByArabic a db = Returned (Some r).
Proof.
  intros Hrep. rewrite (represents_arabic db l a r Hrep).
  unfold findByArabic, GET.
  destruct (db !! arabicKey a) as [[s|ms]|] eqn:Ha.
  - split; by intros [= ->].
  - by apply (represents_strings db l Hrep) in Ha as [? [=]].
  - done.
Qed.

Lemma findByRoman_represents db l a r :
  represents db l →
  (a, r) ∈ l ↔ findByRoman r db = Returned (Some (Int a)).
Proof.
  intros Hrep. unfold findByRoman, GET.
  destruct (db !! romanKey r) as [[s|ms]|] eqn:Hr.
  - pose proof Hrep as (_ & Hroman & _).
    destruct (proj1 (Hroman r _) Hr) as (a' & [= ->] & Hin).
    rewrite toString_nonempty, parseInt_toString.
    split.
    + intros Hin'.
      apply (represents_roman db l a r Hrep) in Hin'.
      rewrite Hr in Hin'. injection Hin' as Heq.
      by apply toString_inj in Heq as ->.
    + by intros [= <-].
  - by apply (represents_strings db l Hrep) in Hr as [? [=]].
  - split; [|done]. intros Hin.
    apply (represents_roman db l a r Hrep) in Hin. congruence.
Qed.

(** *** The two revisions of [save] *)

Lemma run_snoc {S} (repo : Repository.IConverterRepository S) ops o st :
  Repository.run repo (ops ++ [o]) st
  = Repository.step repo (Repository.run repo ops st) o.
Proof. unfold Repository.run. by rewrite foldl_app. Qed.

Lemma saves_snoc pairs a r :
  Repository.saves (pairs ++ [(a, r)])
  = (Repository.saves pairs ++ [Repository.Save a r])%list.
Proof. unfold Repository.saves. by rewrite fmap_app. Qed.

Lemma conflict_free_app pairs x :
  Repository.conflict_free (pairs ++ [x]) → Repository.conflict_free pairs.
Proof.
  intros H a r a' r' Hin Hin'. apply H; apply elem_of_app; by left.
Qed.

Lemma run_revisions pairs :
  Repository.conflict_free pairs →
  Repository.run repository (Repository.saves pairs) ∅
  = Repository.run repository_pipeline (Repository.saves pairs) ∅
  ∧ represents (Repository.run repository (Repository.saves pairs) ∅) pairs.
Proof.
  induction pairs as [|[a r] pairs IH] using rev_ind; intros Hfree.
  { split; [done | apply represents_empty]. }
  destruct (IH (conflict_free_app _ _ Hfree)) as [Heq Hrep].
  rewrite saves_snoc, !run_snoc, <- Heq.
  set (db := Repository.run repository (Repository.saves pairs) ∅) in *.
  change (Repository.step repository db (Repository.Save a r))
    with (save a r db).2.
  change (Repository.step repository_pipeline db (Repository.Save a r))
    with (save_pipeline a r db).2.
  rewrite save_pipeline_written by eauto using represents_index_is_a_set.
  destruct (decide ((a, r) ∈ pairs)) as [Hin|Hnin].
  - pose proof (proj1 (represents_arabic db pairs a r Hrep) Hin) as Ha.
    rewrite save_present_store by (intros [? _]; congruence). simpl.
    rewrite (written_same a r db pairs) by done. split; [done|].
    apply (represents_equiv db pairs); [|done].
    intros x. rewrite elem_of_app, list_elem_of_singleton.
    split; [by left | by intros [?| ->]].
  - assert ((∀ r', (a, r') ∉ pairs) ∧ (∀ a', (a', r) ∉ pairs)) as [Hfa Hfr].
    { split.
      - intros r' Hin. destruct Hnin.
        assert (r' = r) as <-; [|done].
        apply (Hfree a r' a r); [| |done];
          apply elem_of_app; [by left | right; by left].
      - intros a' Hin. destruct Hnin.
        assert (a' = a) as <-; [|done].
        apply (Hfree a' r a r); [| |done];
          apply elem_of_app; [by left | right; by left]. }
    assert (db !! arabicKey a = None) as Ha.
    { destruct (db !! arabicKey a) as [v|] eqn:Hv; [|done].
      destruct Hrep as (Harabic & _).
      apply Harabic in Hv as (r' & _ & Hin). by destruct (Hfa r'). }
    assert (db !! romanKey r = None) as Hr.
    { destruct (db !! romanKey r) as [v|] eqn:Hv; [|done].
      destruct Hrep as (_ & Hroman & _).
      apply Hroman in Hv as (a' & _ & Hin). by destruct (Hfr a'). }
    rewrite save_absent by eauto using represents_index_is_a_set. simpl.
    split; [done|].
    apply (represents_equiv _ ((a, r) :: pairs)).
    + intros x. rewrite elem_of_cons, elem_of_app, list_elem_of_singleton. tauto.
    + by apply represents_written.
Qed.

End RedisFacts.

(** ** The PostgreSQL repository *)

Module PostgresFacts.
Import JS Postgres.

Lemma existsb_false {A} (f : A → bool) l x :
  existsb f l = false → x ∈ l → f x = false.
Proof.
  intros Hf Hin. apply list_elem_of_In in Hin.
  destruct (f x) eqn:Hx; [|done].
  assert (existsb f l = true) as Ht by (apply existsb_exists; eauto).
  congruence.
Qed.

Lemma table_holds_empty : holds empty.
Proof. repeat split; constructor. Qed.

Lemma NoDup_snoc {A} (l : list A) x : NoDup l → x ∉ l → NoDup (l ++ [x]).
Proof.
  intros Hl Hx. apply NoDup_app. split; [done|]. split.
  - intros y Hy ->%list_elem_of_singleton. done.
  - apply NoDup_singleton.
Qed.

(** What the INSERT statement does to the rows: nothing, or one row more
    whose [arabic] and [roman] were both free. *)
Lemma INSERT_rows a r db :
  let reply := (INSERT_ON_CONFLICT_arabic_DO_NOTHING a r db).1 in
  let db' := (INSERT_ON_CONFLICT_arabic_DO_NOTHING a r db).2 in
  (reply = Returned 1
   ∧ in_int4 a = true
   ∧ (∃ r' i, to_varchar20 r = Returned r'
        ∧ conversions db' = (conversions db ++ [mkRow i a r'])%list
        ∧ (a ∉ arabic <$> conversions db)
        ∧ (r' ∉ roman <$> conversions db)))
  ∨ (reply ≠ Returned 1 ∧ conversions db' = conversions db).
Proof.
  unfold INSERT_ON_CONFLICT_arabic_DO_NOTHING.
  destruct (in_int4 a) eqn:Ha; simpl; [|by right].
  destruct (to_varchar20 r) as [r'|e] eqn:Hr; simpl; [|by right].
  destruct (in_int4 (conversions_id_seq db + 1)); simpl; [|by right].
  destruct (existsb (λ r0, arabic r0 =? a) (conversions db)) eqn:Hea;
    simpl; [by right|].
  destruct (existsb (λ r0, id r0 =? conversions_id_seq db + 1)
              (conversions db)) eqn:Hei; simpl; [by right|].
  destruct (existsb (λ r0, String.eqb (roman r0) r') (conversions db))
    eqn:Her; simpl; [by right|].
  left. split; [done|]. split; [done|].
  exists r', (conversions_id_seq db + 1). repeat split.
  - intros (row & -> & Hin)%list_elem_of_fmap.
    apply (existsb_false _ _ _ Hea) in Hin. simpl in Hin. lia.
  - intros (row & -> & Hin)%list_elem_of_fmap.
    apply (existsb_false _ _ _ Her) in Hin. simpl in Hin.
    by rewrite String.eqb_refl in Hin.
Qed.

Lemma save_store a r db :
  (save a r db).2 = (INSERT_ON_CONFLICT_arabic_DO_NOTHING a r db).2.
Proof.
  unfold save. by destruct (INSERT_ON_CONFLICT_arabic_DO_NOTHING a r db).
Qed.

Lemma table_holds_save a r db : holds db → holds (save a r db).2.
Proof.
  intros (Hna & Hnr & Hint). rewrite save_store.
  destruct (INSERT_rows a r db)
    as [(_ & Ha & r' & i & _ & Hrows & Hfa & Hfr)|[_ Hrows]];
    unfold holds; rewrite Hrows; [|done].
  rewrite !fmap_app. simpl. repeat split.
  - by apply NoDup_snoc.
  - by apply NoDup_snoc.
  - apply Forall_app. split; [done|]. by constructor.
Qed.



(** *** Lookups *)

Lemma filter_unique {A} (f : A → Z) (l : list A) x :
  NoDup (f <$> l) → x ∈ l → List.filter (λ y, f y =? f x) l = [x].
Proof.
  induction l as [|y l IH]; intros Hnd Hin; [by apply elem_of_nil in Hin|].
  rewrite fmap_cons in Hnd. apply NoDup_cons in Hnd as [Hy Hnd]. simpl.
  assert (∀ z, z ∈ l → f z ≠ f y) as Hother.
  { intros z Hz Heq. apply Hy. rewrite <- Heq. by apply list_elem_of_fmap_2. }
  apply elem_of_cons in Hin as [->|Hin].
  - rewrite Z.eqb_refl. f_equal.
    clear IH Hy Hnd. induction l as [|z l IHl]; [done|]. simpl.
    destruct (Z.eqb_spec (f z) (f y)) as [Heq|_].
    + destruct (Hother z); [by left | done].
    + apply IHl. intros w Hw. apply Hother. by right.
  - destruct (Z.eqb_spec (f y) (f x)) as [Heq|_].
    + destruct (Hother x Hin). done.
    + by apply IH.
Qed.

Lemma filter_unique_string {A} (f : A → string) (l : list A) x :
  NoDup (f <$> l) → x ∈ l → List.filter (λ y, String.eqb (f y) (f x)) l = [x].
Proof.
  induction l as [|y l IH]; intros Hnd Hin; [by apply elem_of_nil in Hin|].
  rewrite fmap_cons in Hnd. apply NoDup_cons in Hnd as [Hy Hnd]. simpl.
  assert (∀ z, z ∈ l → f z ≠ f y) as Hother.
  { intros z Hz Heq. apply Hy. rewrite <- Heq. by apply list_elem_of_fmap_2. }
  apply elem_of_cons in Hin as [->|Hin].
  - rewrite String.eqb_refl. f_equal.
    clear IH Hy Hnd. induction l as [|z l IHl]; [done|]. simpl.
    destruct (String.eqb_spec (f z) (f y)) as [Heq|_].
    + destruct (Hother z); [by left | done].
    + apply IHl. intros w Hw. apply Hother. by right.
  - destruct (String.eqb_spec (f y) (f x)) as [Heq|_].
    + destruct (Hother x Hin). done.
    + by apply IH.
Qed.

Lemma elem_of_records db a r :
  (a, r) ∈ records db ↔ ∃ row, row ∈ conversions db ∧ arabic row = a ∧ roman row = r.
Proof.
  unfold records. rewrite list_elem_of_fmap. split.
  - intros (row & [= -> ->] & Hin). by exists row.
  - intros (row & Hin & <- & <-). by exists row.
Qed.

Lemma findByArabic_holds db a r :
  holds db → r ≠ "" →
  (a, r) ∈ records db ↔ findByArabic a db = Returned (Some r).
Proof.
  intros (Hna & Hnr & Hint) Hr. rewrite elem_of_records.
  unfold findByArabic, SELECT_roman_WHERE_arabic. split.
  - intros (row & Hin & <- & <-).
    rewrite Forall_forall in Hint. rewrite (Hint row Hin). simpl.
    rewrite (filter_unique arabic) by done. simpl.
    by destruct (roman row).
  - destruct (in_int4 a); simpl; [|done].
    destruct (List.filter _ (conversions db)) as [|row rows] eqn:Hf;
      simpl; [done|].
    assert (In row (List.filter (λ r0, arabic r0 =? a) (conversions db)))
      as Hin by (rewrite Hf; by left).
    apply filter_In in Hin as [Hin Ha]. apply Z.eqb_eq in Ha.
    destruct (truthy (roman row)); intros [= <-].
    exists row. by rewrite list_elem_of_In.
Qed.

Lemma findByRoman_holds db a r :
  holds db → a ≠ 0 →
  (a, r) ∈ records db ↔ findByRoman r db = Returned (Some (Int a)).
Proof.
  intros (Hna & Hnr & Hint) Ha. rewrite elem_of_records.
  unfold findByRoman, SELECT_arabic_WHERE_roman. split.
  - intros (row & Hin & <- & <-).
    rewrite (filter_unique_string roman) by done. simpl.
    by destruct (Z.eqb_spec (arabic row) 0).
  - destruct (List.filter _ (conversions db)) as [|row rows] eqn:Hf;
      simpl; [done|].
    assert (In row (List.filter (λ r0, String.eqb (roman r0) r)
                      (conversions db)))
      as Hin by (rewrite Hf; by left).
    apply filter_In in Hin as [Hin Hr]. apply String.eqb_eq in Hr.
    destruct (arabic row =? 0); intros [= <-].
    exists row. by rewrite list_elem_of_In.
Qed.

Lemma records_NoDup db :
  holds db → NoDup (records db).*1 ∧ NoDup (records db).*2.
Proof.
  intros (Hna & Hnr & _). unfold records.
  rewrite <- !list_fmap_compose. by split.
Qed.

End PostgresFacts.

(** ** The cache: both backends behind the interface *)

Module CacheFacts.
Import JS Types Repository.






(** *** The two revisions of the Redis [save] *)

(** C9 as stated fails: after [save(5, "V")] and [save(5, "VI")] the script
    revision keeps ["V"] under [arabic:5], the pipeline revision has
    overwritten it. *)
Lemma revisions_disagree_on_conflict :
  run Redis.repository (saves [(5, "V"); (5, "VI")]) ∅
  ≠ run Redis.repository_pipeline (saves [(5, "V"); (5, "VI")]) ∅.
Proof.
  intros H. apply (f_equal (λ db, db !! Redis.arabicKey 5)) in H.
  vm_compute in H. discriminate H.
Qed.

(** C9, amended.  On every sequence of [save] calls without a conflict (two
    calls share their arabic value exactly when they share their roman
    value) the pipeline revision and the script revision leave the same
    keyspace when run from the empty one. *)
Theorem revisions_agree_without_conflict pairs :
  conflict_free pairs →
  run Redis.repository (saves pairs) ∅
  = run Redis.repository_pipeline (saves pairs) ∅.
Proof. intros Hfree. by apply RedisFacts.run_revisions. Qed.

Lemma revisions_agree_without_conflict_witness :
  run Redis.repository (saves [(5, "V"); (9, "IX"); (5, "V")]) ∅
  = run Redis.repository_pipeline (saves [(5, "V"); (9, "IX"); (5, "V")]) ∅.
Proof.
  apply revisions_agree_without_conflict.
  intros a r a' r' H1 H2.
  repeat (apply elem_of_cons in H1 as [H1|H1]);
    [| | |by apply elem_of_nil in H1];
    repeat (apply elem_of_cons in H2 as [H2|H2]);
    try (by apply elem_of_nil in H2);
    injection H1 as -> ->; injection H2 as -> ->;
    split; intros H; first [reflexivity | discriminate H].
Defined.

(** *** Errors of the PostgreSQL [save] *)

(** C3.  The [catch] block of [save] tests the code of the error and not
    the constraint that raised it.  On [Postgres.tampered], a table whose
    sequence lags behind a row written by hand, the INSERT of
    [save(6, "VI")] raises the unique violation of [conversions_pkey]: not
    the conflict on the roman column, and no conflict on the arabic column
    either.  [save] swallows it and resolves, and the pair is not stored.
    An error with another code is thrown on. *)
Theorem save_swallows_primary_key_violation :
  (Postgres.INSERT_ON_CONFLICT_arabic_DO_NOTHING 6 "VI" Postgres.tampered).1
  = Thrown (Postgres.unique_violation "conversions_pkey")
  ∧ constraint (Postgres.unique_violation "conversions_pkey")
    ≠ Some "conversions_roman_key"
  ∧ (Postgres.save 6 "VI" Postgres.tampered).1 = Returned tt
  ∧ Postgres.conversions (Postgres.save 6 "VI" Postgres.tampered).2
    = Postgres.conversions Postgres.tampered
  ∧ Postgres.findByArabic 6 (Postgres.save 6 "VI" Postgres.tampered).2
    = Returned None
  ∧ (∀ A e, code e ≠ Some "23505" →
       Postgres.catch_duplicate_key (@Thrown A e) = Thrown e).
Proof.
  split; [vm_compute; reflexivity|].
  split; [intros H; vm_compute in H; discriminate H|].
  split; [vm_compute; reflexivity|].
  split; [vm_compute; reflexivity|].
  split; [vm_compute; reflexivity|].
  intros A e He. unfold Postgres.catch_duplicate_key.
  by rewrite bool_decide_eq_true_2.
Qed.

(** *** Clearing the store *)

Lemma NoDup_fmap_eq {A B} (f : A → B) (l : list A) x y :
  NoDup (f <$> l) → x ∈ l → y ∈ l → f x = f y → x = y.
Proof.
  induction l as [|z l IH]; intros Hnd Hx Hy Heq;
    [by apply elem_of_nil in Hx|].
  rewrite fmap_cons in Hnd. apply NoDup_cons in Hnd as [Hz Hnd].
  apply elem_of_cons in Hx as [->|Hx]; apply elem_of_cons in Hy as [->|Hy].
  - done.
  - destruct Hz. rewrite Heq. by apply list_elem_of_fmap_2.
  - destruct Hz. rewrite <- Heq. by apply list_elem_of_fmap_2.
  - by apply IH.
Qed.

Lemma distinct_conflict_free pairs :
  NoDup pairs.*1 → NoDup pairs.*2 → conflict_free pairs.
Proof.
  intros Hn1 Hn2 a r a' r' Hin Hin'. split; intros Heq.
  - by injection (NoDup_fmap_eq fst pairs _ _ Hn1 Hin Hin' Heq).
  - by injection (NoDup_fmap_eq snd pairs _ _ Hn2 Hin Hin' Heq).
Qed.

(** What the Redis [deleteAll] returns after [N] inserts of pairwise
    distinct pairs: the number of keys under both prefixes, [2 * N]. *)
Lemma redis_deleteAll_after_inserts pairs :
  NoDup pairs.*1 → NoDup pairs.*2 →
  (Redis.deleteAll (run Redis.repository (saves pairs) ∅)).1
  = Returned (2 * Z.of_nat (List.length pairs)).
Proof.
  intros Hn1 Hn2.
  destruct (RedisFacts.run_revisions pairs (distinct_conflict_free _ Hn1 Hn2))
    as [_ Hrep].
  destruct (RedisFacts.holds_run (saves pairs) ∅ [] RedisFacts.holds_empty)
    as (l & Hrep' & Hl1 & _ & Hca & Hcr).
  assert (l ≡ₚ pairs) as Hperm.
  { apply NoDup_Permutation; [by eapply NoDup_fmap_1 | by eapply NoDup_fmap_1 |].
    intros [a r].
    rewrite (RedisFacts.represents_arabic _ _ a r Hrep').
    by rewrite (RedisFacts.represents_arabic _ _ a r Hrep). }
  rewrite RedisFacts.deleteAll_eq. simpl.
  rewrite Hca, Hcr, (Permutation_length Hperm). f_equal. lia.
Qed.

(** What the PostgreSQL [deleteAll] returns: the number of rows. *)
Lemma postgres_deleteAll_rows db :
  Postgres.deleteAll db
  = (Returned (Z.of_nat (List.length (Postgres.conversions db))),
     {| Postgres.conversions := [];
        Postgres.conversions_id_seq := Postgres.conversions_id_seq db |}).
Proof. done. Qed.

(** The listing that follows a clear is empty with a total of zero. *)
Lemma redis_getAll_after_deleteAll db limit offset :
  Number_isSafeInteger limit = true → Number_isSafeInteger offset = true →
  Redis.getAll limit offset (Redis.deleteAll db).2
  = Returned {| data := []; total := Int 0; limit := limit; offset := offset |}.
Proof.
  intros Hl Ho. unfold Redis.getAll, Redis.ZCARD.
  rewrite (DecimalFacts.ZRANGE_safe _ limit offset _ Hl Ho).
  by rewrite (RedisFacts.lookup_deleteAll db Redis.allConversionsKey) by auto.
Qed.

Lemma postgres_getAll_after_deleteAll db limit offset :
  Number_isSafeInteger limit = true → Number_isSafeInteger offset = true →
  0 <= limit → 0 <= offset →
  Postgres.getAll limit offset (Postgres.deleteAll db).2
  = Returned {| data := []; total := Int 0; limit := limit; offset := offset |}.
Proof.
  intros Hsl%DecimalFacts.Number_isSafeInteger_spec
    Hso%DecimalFacts.Number_isSafeInteger_spec Hl Ho.
  unfold Postgres.getAll. simpl.
  unfold Postgres.SELECT_ORDER_BY_arabic_LIMIT_OFFSET.
  assert (Postgres.in_int8 limit = true) as ->
    by (apply DecimalFacts.in_int8_spec; lia).
  assert (Postgres.in_int8 offset = true) as ->
    by (apply DecimalFacts.in_int8_spec; lia).
  simpl.
  destruct (Z.ltb_spec offset 0); [lia|].
  destruct (Z.ltb_spec limit 0); [lia|].
  by rewrite drop_nil, take_nil.
Qed.

(** C4.  One insert into each empty store, then [deleteAll]: PostgreSQL
    answers 1, the number of records removed; Redis answers 2, the number of
    keys removed.  On both, the listing that follows is empty with a total
    of zero. *)
Theorem redis_deleteAll_counts_keys :
  let redis := run Redis.repository (saves [(2023, "MMXXIII")]) ∅ in
  let postgres :=
    run Postgres.repository (saves [(2023, "MMXXIII")]) Postgres.empty in
  (Redis.deleteAll redis).1 = Returned 2
  ∧ (Postgres.deleteAll postgres).1 = Returned 1
  ∧ Redis.getAll 100 0 (Redis.deleteAll redis).2
    = Returned {| data := []; total := Int 0; limit := 100; offset := 0 |}
  ∧ Postgres.getAll 100 0 (Postgres.deleteAll postgres).2
    = Returned {| data := []; total := Int 0; limit := 100; offset := 0 |}.
Proof. repeat split; vm_compute; reflexivity. Qed.

End CacheFacts.

(** ** Regular expressions over a class of characters *)

Module RegexFacts.
Import Regex.

Lemma void_not_nullable r : void r = true → nullable r = false.
Proof.
  induction r as [| | | |r1 IH1 r2 IH2|r1 IH1 r2 IH2|n r IH]; simpl; try done.
  - intros [H|H]%orb_true_iff; [by rewrite IH1 | by rewrite IH2, andb_false_r].
  - intros [H1 H2]%andb_true_iff. by rewrite IH1, IH2.
  - destruct n; [done | exact IH].
Qed.

Lemma void_deriv c r : void r = true → void (deriv c r) = true.
Proof.
  induction r as [| | | |r1 IH1 r2 IH2|r1 IH1 r2 IH2|n r IH]; simpl; try done.
  - intros [H|H]%orb_true_iff.
    + rewrite (void_not_nullable r1 H). simpl. by rewrite IH1.
    + destruct (nullable r1); simpl; rewrite ?H, ?IH2, ?orb_true_r; done.
  - intros [H1 H2]%andb_true_iff. by rewrite IH1, IH2.
  - destruct n; [done|]. intros H. by rewrite IH.
Qed.

Lemma void_full_match r s : void r = true → full_match r s = false.
Proof.
  revert r. induction s as [|c s IH]; intros r H; simpl.
  - by apply void_not_nullable.
  - by apply IH, void_deriv.
Qed.

Lemma mem_subset c ds cs :
  forallb (λ d, mem d cs) ds = true → mem c ds = true → mem c cs = true.
Proof.
  unfold mem at 2. intros Hall (d & Hd & Heq)%existsb_exists.
  apply Ascii.eqb_eq in Heq as ->.
  rewrite forallb_forall in Hall. by apply Hall.
Qed.

Lemma over_deriv cs c r : over cs r = true → over cs (deriv c r) = true.
Proof.
  induction r as [| |d|ds|r1 IH1 r2 IH2|r1 IH1 r2 IH2|n r IH]; simpl; try done.
  - by destruct (Ascii.eqb c d).
  - by destruct (mem c ds).
  - intros [H1 H2]%andb_true_iff.
    destruct (nullable r1); simpl; by rewrite ?IH1, ?IH2, ?H2.
  - intros [H1 H2]%andb_true_iff. by rewrite IH1, IH2.
  - intros H. by rewrite IH, H.
Qed.

Lemma over_deriv_void cs c r :
  over cs r = true → mem c cs = false → void (deriv c r) = true.
Proof.
  intros Hover Hc.
  induction r as [| |d|ds|r1 IH1 r2 IH2|r1 IH1 r2 IH2|n r IH]; simpl in *;
    try done.
  - destruct (Ascii.eqb_spec c d) as [->|]; [congruence | done].
  - destruct (mem c ds) eqn:Hm; [|done].
    by rewrite (mem_subset c ds cs) in Hc.
  - apply andb_true_iff in Hover as [H1 H2].
    destruct (nullable r1); simpl; by rewrite IH1, ?IH2.
  - apply andb_true_iff in Hover as [H1 H2]. by rewrite IH1, IH2.
  - by rewrite IH.
Qed.

(** A match of an expression over [cs] is a string over [cs]. *)
Lemma full_match_over cs r s :
  over cs r = true → full_match r s = true → all_in cs s = true.
Proof.
  revert r. induction s as [|c s IH]; intros r Hover Hm; simpl in *; [done|].
  destruct (mem c cs) eqn:Hc; simpl.
  - by apply (IH (deriv c r)); [apply over_deriv|].
  - by rewrite (void_full_match _ s (over_deriv_void cs c r Hover Hc)) in Hm.
Qed.

Lemma spans_nullable cs r : spans cs r = true → nullable r = true.
Proof.
  induction r as [| | | |r1 IH1 r2 IH2|r1 IH1 r2 IH2|n r IH]; simpl; try done.
  - intros [H1 H2]%andb_true_iff. by rewrite H1, IH2.
  - intros [H|H]%orb_true_iff; [by rewrite IH1 | by rewrite IH2, orb_true_r].
  - by destruct n.
Qed.

Lemma spans_deriv cs c r :
  mem c cs = true → spans cs r = true → spans cs (deriv c r) = true.
Proof.
  intros Hc.
  induction r as [| | | |r1 IH1 r2 IH2|r1 IH1 r2 IH2|n r IH]; simpl; try done.
  - intros [H1 H2]%andb_true_iff. rewrite H1. simpl.
    by rewrite IH2, orb_true_r.
  - intros [H|H]%orb_true_iff; [by rewrite IH1 | by rewrite IH2, orb_true_r].
  - destruct n as [|n]; [|done]. destruct r as [| | |ds| | |]; try done.
    intros Hall. simpl.
    assert (mem c ds = true) as -> by (by apply (mem_subset c cs ds)).
    done.
Qed.

Lemma full_match_spans cs r s :
  spans cs r = true → all_in cs s = true → full_match r s = true.
Proof.
  revert r. induction s as [|c s IH]; intros r Hr Hs; simpl in *.
  - by apply (spans_nullable cs).
  - apply andb_true_iff in Hs as [Hc Hs]. by apply IH; [apply spans_deriv|].
Qed.

Lemma forallb_mem_refl cs : forallb (λ c, mem c cs) cs = true.
Proof.
  apply forallb_forall. intros c Hc. unfold mem. apply existsb_exists.
  exists c. split; [done | apply Ascii.eqb_refl].
Qed.

(** [/^[cs]+$/] matches exactly the non-empty strings over [cs]. *)
Lemma full_match_class_plus cs s :
  full_match (AtLeast 1 (Class cs)) s = true ↔ s ≠ "" ∧ all_in cs s = true.
Proof.
  split.
  - intros Hm. split; [by intros ->|].
    apply (full_match_over cs (AtLeast 1 (Class cs))); [|done].
    simpl. apply forallb_mem_refl.
  - intros [Hne Hs]. destruct s as [|c s]; [done|]. simpl in *.
    apply andb_true_iff in Hs as [Hc Hs]. rewrite Hc.
    apply (full_match_spans cs); [|done]. simpl. apply forallb_mem_refl.
Qed.

End RegexFacts.

(** ** The scan of [convertRomanToArabic] *)

Module ScanFacts.
Import JS Regex Converter.

Lemma lookup_single_numeral c :
  is_numeral c = true →
  ∃ v, romanToArabicMap !! String c "" = Some v ∧ 1 <= v <= 1000.
Proof.
  destruct c as [[] [] [] [] [] [] [] []]; intros H; try discriminate H;
    eexists; (split; [vm_compute; reflexivity | lia]).
Qed.

Lemma lookup_single_other c :
  is_numeral c = false → romanToArabicMap !! String c "" = None.
Proof.
  destruct c as [[] [] [] [] [] [] [] []]; intros H; try discriminate H;
    vm_compute; reflexivity.
Qed.

Lemma lookup_pair c1 c2 v :
  romanToArabicMap !! String c1 (String c2 "") = Some v →
  is_numeral c1 = true ∧ is_numeral c2 = true ∧ 2 <= v <= 2000.
Proof.
  destruct c1 as [[] [] [] [] [] [] [] []];
    try (intros H; vm_compute in H; discriminate H);
    destruct c2 as [[] [] [] [] [] [] [] []];
    intros H; vm_compute in H; try discriminate H;
    injection H as <-; repeat split; lia.
Qed.

Lemma scan_cons c1 rest result :
  scan (String c1 rest) result
  = let single :=
      match romanToArabicMap !! String c1 "" with
      | Some v => scan rest (result + v)
      | None =>
          Thrown (new_Error ("Invalid Roman numeral character: "
                             +:+ String c1 ""))
      end in
    match rest with
    | String c2 rest2 =>
        match romanToArabicMap !! String c1 (String c2 "") with
        | Some v => scan rest2 (result + v)
        | None => single
        end
    | EmptyString => single
    end.
Proof. done. Qed.

Lemma scan_spec n s result :
  (String.length s <= n)%nat →
  match first_other s with
  | None =>
      ∃ a, scan s result = Returned (result + a)
           ∧ Z.of_nat (String.length s) <= a
           ∧ a <= 1000 * Z.of_nat (String.length s)
  | Some c =>
      scan s result
      = Thrown (new_Error ("Invalid Roman numeral character: " +:+ String c ""))
  end.
Proof.
  revert s result. induction n as [|n IH]; intros s result Hn.
  { destruct s; [|simpl in Hn; lia]. exists 0. simpl.
    split; [f_equal; lia | lia]. }
  destruct s as [|c1 rest].
  { exists 0. simpl. split; [f_equal; lia | lia]. }
  rewrite scan_cons. cbv zeta.
  assert (match first_other (String c1 rest) with
          | None =>
              ∃ a, match romanToArabicMap !! String c1 "" with
                   | Some v => scan rest (result + v)
                   | None =>
                       Thrown (new_Error ("Invalid Roman numeral character: "
                                          +:+ String c1 ""))
                   end = Returned (result + a)
                   ∧ Z.of_nat (String.length (String c1 rest)) <= a
                   ∧ a <= 1000 * Z.of_nat (String.length (String c1 rest))
          | Some c =>
              match romanToArabicMap !! String c1 "" with
              | Some v => scan rest (result + v)
              | None =>
                  Thrown (new_Error ("Invalid Roman numeral character: "
                                     +:+ String c1 ""))
              end
              = Thrown (new_Error ("Invalid Roman numeral character: "
                                   +:+ String c ""))
          end) as Hsingle.
  { simpl first_other. destruct (is_numeral c1) eqn:Hc1.
    - destruct (lookup_single_numeral c1 Hc1) as (v & -> & Hv).
      specialize (IH rest (result + v) ltac:(simpl in Hn; lia)).
      destruct (first_other rest) as [c|]; [done|].
      destruct IH as (a & -> & Ha1 & Ha2). exists (v + a).
      simpl String.length. split; [f_equal; lia | lia].
    - by rewrite (lookup_single_other c1 Hc1). }
  destruct rest as [|c2 rest2]; [exact Hsingle|].
  destruct (romanToArabicMap !! String c1 (String c2 "")) as [v|] eqn:Hpair;
    [|exact Hsingle].
  destruct (lookup_pair c1 c2 v Hpair) as (Hc1 & Hc2 & Hv).
  simpl first_other. rewrite Hc1, Hc2.
  specialize (IH rest2 (result + v) ltac:(simpl in Hn; lia)).
  destruct (first_other rest2) as [c|]; [done|].
  destruct IH as (a & -> & Ha1 & Ha2). exists (v + a).
  simpl String.length. split; [f_equal; lia | lia].
Qed.

Lemma first_other_all_in s :
  first_other s = None ↔ all_in numeral_characters s = true.
Proof.
  induction s as [|c s IH]; [done|].
  cbn [first_other all_in]. unfold is_numeral.
  destruct (mem c numeral_characters); [exact IH | split; done].
Qed.

Lemma validCharacters_spec s :
  full_match validCharacters s = true
  ↔ s ≠ "" ∧ first_other s = None.
Proof.
  rewrite first_other_all_in.
  apply (RegexFacts.full_match_class_plus numeral_characters).
Qed.

(** X1.  [convertRomanToArabic] throws exactly when the string holds a
    character other than I, V, X, L, C, D, M, and the error names the first
    such character.  Otherwise it returns (0 on the empty string), and the
    value lies between the length of the string and 1000 times that
    length. *)
Theorem convertRomanToArabic_first_other roman :
  match first_other roman with
  | None =>
      ∃ a, convertRomanToArabic roman = Returned a
           ∧ Z.of_nat (String.length roman) <= a
           ∧ a <= 1000 * Z.of_nat (String.length roman)
  | Some c =>
      convertRomanToArabic roman
      = Thrown (new_Error ("Invalid Roman numeral character: " +:+ String c ""))
  end.
Proof.
  pose proof (scan_spec (String.length roman) roman 0 (le_n _)) as H.
  unfold convertRomanToArabic.
  destruct (first_other roman); [done|].
  destruct H as (a & Hscan & Hlo & Hhi). exists a. by rewrite Hscan.
Qed.

Lemma valid_characters_scan roman :
  full_match validCharacters roman = true →
  ∃ a, convertRomanToArabic roman = Returned a ∧ 1 <= a.
Proof.
  intros [Hne Hother]%validCharacters_spec.
  pose proof (scan_spec (String.length roman) roman 0 (le_n _)) as H.
  rewrite Hother in H. destruct H as (a & Ha & Hlo & _).
  exists a. unfold convertRomanToArabic. rewrite Ha.
  split; [done|]. destruct roman; [done | simpl in Hlo; lia].
Qed.

Lemma isValidRomanNumeral_static_aux roman :
  isValidRomanNumeral roman = true →
  full_match validCharacters roman = true
  ∧ existsb (λ pattern, test pattern roman) invalidPatterns = false.
Proof.
  unfold isValidRomanNumeral.
  destruct (full_match validCharacters roman); cbn [negb]; [|done].
  by destruct (existsb (λ pattern, test pattern roman) invalidPatterns).
Qed.

Lemma isValidRomanNumeral_patterns roman :
  isValidRomanNumeral roman
  = full_match validCharacters roman
    && negb (existsb (λ pattern, test pattern roman) invalidPatterns).
Proof.
  unfold isValidRomanNumeral.
  destruct (full_match validCharacters roman) eqn:Hchars; cbn [negb andb];
    [|done].
  destruct (valid_characters_scan roman Hchars) as (a & -> & _).
  by destruct (existsb (λ pattern, test pattern roman) invalidPatterns).
Qed.

(** X2.  The [try] block that ends [isValidRomanNumeral] never rejects: a
    string is accepted exactly when it is a non-empty string of numeral
    characters in which none of the invalid patterns occurs.  An accepted
    string scans to a value of at least 1. *)
Theorem isValidRomanNumeral_is_static roman :
  isValidRomanNumeral roman
  = full_match validCharacters roman
    && negb (existsb (λ pattern, test pattern roman) invalidPatterns)
  ∧ (isValidRomanNumeral roman = true →
     ∃ a, convertRomanToArabic roman = Returned a ∧ 1 <= a).
Proof.
  split; [apply isValidRomanNumeral_patterns|].
  intros [Hchars _]%isValidRomanNumeral_static_aux.
  by apply valid_characters_scan.
Qed.

Lemma isValidRomanNumeral_is_static_witness :
  ∃ a, convertRomanToArabic "MCMXCIV" = Returned a ∧ 1 <= a.
Proof.
  apply (isValidRomanNumeral_is_static "MCMXCIV"). vm_compute. reflexivity.
Defined.

(** Numeral characters are upper case and are not white space: a string
    of them is its own normal form. *)
Lemma is_numeral_plain c :
  is_numeral c = true → is_whitespace c = false ∧ upper c = c.
Proof.
  destruct c as [[] [] [] [] [] [] [] []]; intros H; try discriminate H;
    by vm_compute.
Qed.

Lemma trim_end_plain s :
  first_other s = None → trim_end s = s.
Proof.
  induction s as [|c s IH]; [done|]. cbn [first_other trim_end].
  destruct (is_numeral c) eqn:Hc; [|done]. intros Hs. rewrite IH by done.
  destruct (is_numeral_plain c Hc) as [-> _]. by destruct s.
Qed.

Lemma normalised_numeral s :
  first_other s = None → toUpperCase (trim s) = s.
Proof.
  intros Hs. unfold trim.
  assert (skip_whitespace s = s) as ->.
  { destruct s as [|c s]; [done|]. cbn [first_other] in Hs. simpl.
    destruct (is_numeral c) eqn:Hc; [|done].
    by destruct (is_numeral_plain c Hc) as [-> _]. }
  rewrite trim_end_plain by done.
  induction s as [|c s IH]; [done|]. cbn [first_other] in Hs. simpl.
  destruct (is_numeral c) eqn:Hc; [|done].
  destruct (is_numeral_plain c Hc) as [_ ->]. by rewrite IH.
Qed.

Lemma valid_normalised roman :
  isValidRomanNumeral roman = true → toUpperCase (trim roman) = roman.
Proof.
  intros H. apply normalised_numeral.
  destruct (isValidRomanNumeral_static_aux roman H) as [Hchars _].
  by apply validCharacters_spec in Hchars as [_ ?].
Qed.

End ScanFacts.

(** ** The form validators against the service *)

Module FrontendFacts.
Import JS Regex Converter Frontend.

Lemma first_match_existsb patterns roman :
  first_match patterns roman = None
  ↔ existsb (λ pattern, test pattern roman) patterns.*1 = false.
Proof.
  induction patterns as [|[pattern message] patterns IH]; simpl; [done|].
  destruct (test pattern roman); simpl; [split; done | exact IH].
Qed.

Lemma truthy_toUpperCase s : truthy (toUpperCase s) = truthy s.
Proof. by destruct s. Qed.

(** X3.  The form validator and the service validator agree on the
    normalised string except for the three subtractive patterns, which only
    the service checks: the service accepts exactly what the form accepts
    and that holds none of [I{2,}[VX]], [X{2,}[LC]], [C{2,}[DM]].  So the
    form accepts every numeral the service accepts, and it accepts ["IIV"],
    which the service rejects. *)
Theorem service_validator_refines_form :
  (∀ value,
     isValidRomanNumeral (toUpperCase (trim value))
     = isValid (validateRomanNumeral value)
       && negb (existsb (λ pattern, test pattern (toUpperCase (trim value)))
                  subtractive_patterns))
  ∧ isValid (validateRomanNumeral "IIV") = true
  ∧ isValidRomanNumeral "IIV" = false.
Proof.
  split; [|by vm_compute]. intros value.
  rewrite ScanFacts.isValidRomanNumeral_patterns.
  unfold validateRomanNumeral.
  destruct (truthy (trim value)) eqn:Htrim; cbn [negb].
  - destruct (full_match validCharacters (toUpperCase (trim value)));
      cbn [negb andb]; [|done].
    change Converter.invalidPatterns
      with (Frontend.invalidPatterns.*1 ++ subtractive_patterns)%list.
    rewrite existsb_app, negb_orb.
    destruct (first_match Frontend.invalidPatterns (toUpperCase (trim value)))
      as [message|] eqn:Hfirst.
    + destruct (existsb (λ pattern, test pattern (toUpperCase (trim value)))
                  Frontend.invalidPatterns.*1) eqn:Hex; [done|].
      apply first_match_existsb in Hex. congruence.
    + apply first_match_existsb in Hfirst. by rewrite Hfirst.
  - assert (toUpperCase (trim value) = "") as ->; [|done].
    by destruct (trim value).
Qed.

Lemma mem_digits c :
  mem c ["0"; "1"; "2"; "3"; "4"; "5"; "6"; "7"; "8"; "9"]%char
  = bool_decide (is_Some (digit_value c)).
Proof. by destruct c as [[] [] [] [] [] [] [] []]. Qed.

Lemma all_in_digits s :
  all_in ["0"; "1"; "2"; "3"; "4"; "5"; "6"; "7"; "8"; "9"]%char s
  = all_digits s.
Proof.
  induction s as [|c s IH]; [done|]. cbn [all_in all_digits].
  by rewrite mem_digits, IH.
Qed.

Lemma digits_spec value :
  full_match digits value = true ↔ value ≠ "" ∧ all_digits value = true.
Proof.
  unfold digits. rewrite RegexFacts.full_match_class_plus.
  by rewrite all_in_digits.
Qed.

Lemma truthy_trim_digits value :
  value ≠ "" → all_digits value = true → truthy (trim value) = true.
Proof.
  destruct value as [|c s]; [done|]. intros _ Hd. cbn [all_digits] in Hd.
  apply andb_true_iff in Hd as [Hc _]. apply bool_decide_eq_true in Hc.
  destruct (DecimalFacts.digit_not_special c Hc) as (Hws & _).
  unfold trim. cbn [skip_whitespace]. rewrite Hws. cbn [trim_end].
  rewrite Hws. by destruct (trim_end s).
Qed.

Lemma parseInt_all_digits value :
  value ≠ "" → all_digits value = true →
  parseInt value = Int (digits_prefix 0 value).
Proof.
  destruct value as [|c s]; [done|]. intros _ Hd. cbn [all_digits] in Hd.
  apply andb_true_iff in Hd as [Hc _]. apply bool_decide_eq_true in Hc.
  by apply DecimalFacts.parseInt_digits.
Qed.

(** X4.  [validateArabicNumber] accepts exactly the non-empty strings of
    decimal digits (leading zeros included, no sign, no space) that
    [parseInt] reads as an integer from 1 to 3999: the numbers
    [arabicToRoman] takes. *)
Theorem validateArabicNumber_accepts value :
  isValid (validateArabicNumber value) = true
  ↔ value ≠ "" ∧ all_digits value = true
    ∧ ∃ n, parseInt value = Int n ∧ 1 <= n <= 3999.
Proof.
  unfold validateArabicNumber. split.
  - destruct (truthy (trim value)); cbn [negb]; [|done].
    destruct (full_match digits value) eqn:Hd; cbn [negb]; [|done].
    apply digits_spec in Hd as [Hne Hd].
    rewrite (parseInt_all_digits value Hne Hd). cbn [isNaN lt_literal gt_literal].
    destruct (Z.ltb_spec (digits_prefix 0 value) 1); [done|].
    destruct (Z.gtb_spec (digits_prefix 0 value) 3999); [done|].
    intros _. repeat split; try done. eexists. split; [done | lia].
  - intros (Hne & Hd & n & Hn & Hrange).
    rewrite (truthy_trim_digits value Hne Hd). cbn [negb].
    rewrite (proj2 (digits_spec value)) by done. cbn [negb].
    rewrite Hn. cbn [isNaN lt_literal gt_literal].
    destruct (Z.ltb_spec n 1); [lia|].
    destruct (Z.gtb_spec n 3999); [lia | done].
Qed.

End FrontendFacts.

(** ** What a [save] and a clear leave of a store *)

Module StoreFacts.
Import JS Types.

(** *** Redis, on any keyspace *)

Lemma redis_save_state a r db :
  (Redis.save a r db).2 = db
  ∨ (db !! Redis.arabicKey a = None ∧ db !! Redis.romanKey r = None
     ∧ ((Redis.save a r db).2
        = <[Redis.romanKey r := Redis.VString (toString a)]>
            (<[Redis.arabicKey a := Redis.VString r]> db)
        ∨ ∃ members,
            (Redis.save a r db).2
            = <[Redis.allConversionsKey := Redis.VZSet members]>
                (<[Redis.romanKey r := Redis.VString (toString a)]>
                   (<[Redis.arabicKey a := Redis.VString r]> db)))).
Proof.
  destruct (decide (db !! Redis.arabicKey a = None
                    ∧ db !! Redis.romanKey r = None)) as [[Ha Hr]|Hpresent];
    [|left; by apply RedisFacts.save_present_store].
  right. split; [done|]. split; [done|].
  unfold Redis.save, Redis.luaScript, mbind, Redis.script_bind,
    Redis.call_GET, Redis.GET.
  rewrite Ha, Hr.
  unfold Redis.call_SET, Redis.call_ZADD, Redis.ZADD, Redis.SET, mret,
    Redis.script_ret.
  destruct (_ !! Redis.allConversionsKey) as [[s|members]|]; simpl; eauto.
Qed.

Lemma redis_save_present_key a r db key :
  is_Some (db !! key) → key ≠ Redis.allConversionsKey →
  (Redis.save a r db).2 !! key = db !! key.
Proof.
  intros [v Hv] Hkey.
  destruct (redis_save_state a r db)
    as [->|(Ha & Hr & [->|[members ->]])]; [done|..];
    rewrite ?(lookup_insert_ne _ Redis.allConversionsKey) by done;
    rewrite !lookup_insert_ne; try done; congruence.
Qed.

Lemma redis_save_new_keys a r db :
  db !! Redis.arabicKey a = None → db !! Redis.romanKey r = None →
  (Redis.save a r db).2 !! Redis.arabicKey a = Some (Redis.VString r)
  ∧ (Redis.save a r db).2 !! Redis.romanKey r
    = Some (Redis.VString (toString a)).
Proof.
  intros Ha Hr.
  destruct (redis_save_state a r db)
    as [Heq|(_ & _ & [->|[members ->]])].
  - (* the script wrote nothing: impossible when both keys are absent *)
    exfalso. revert Heq.
    unfold Redis.save, Redis.luaScript, mbind, Redis.script_bind,
      Redis.call_GET, Redis.GET.
    rewrite Ha, Hr.
    unfold Redis.call_SET, Redis.call_ZADD, Redis.ZADD, Redis.SET, mret,
      Redis.script_ret.
    intros Heq.
    assert (db !! Redis.arabicKey a = Some (Redis.VString r)) as Hcontra;
      [|congruence].
    rewrite <- Heq at 1.
    destruct (_ !! Redis.allConversionsKey) as [[s|members]|]; simpl;
      rewrite ?(lookup_insert_ne _ Redis.allConversionsKey)
        by (symmetry; apply RedisFacts.arabicKey_allConversionsKey);
      rewrite lookup_insert_ne by (symmetry; apply RedisFacts.arabicKey_romanKey);
      apply lookup_insert_eq.
  - split.
    + rewrite lookup_insert_ne by (symmetry; apply RedisFacts.arabicKey_romanKey).
      apply lookup_insert_eq.
    + apply lookup_insert_eq.
  - rewrite !(lookup_insert_ne _ Redis.allConversionsKey)
      by (symmetry; first [apply RedisFacts.arabicKey_allConversionsKey
                          | apply RedisFacts.romanKey_allConversionsKey]).
    split.
    + rewrite lookup_insert_ne by (symmetry; apply RedisFacts.arabicKey_romanKey).
      apply lookup_insert_eq.
    + apply lookup_insert_eq.
Qed.

Lemma redis_findByArabic_lookup a db r :
  Redis.findByArabic a db = Returned (Some r)
  ↔ db !! Redis.arabicKey a = Some (Redis.VString r).
Proof.
  unfold Redis.findByArabic, Redis.GET.
  destruct (db !! Redis.arabicKey a) as [[s|ms]|]; split; congruence.
Qed.

Lemma redis_findByRoman_lookup r db x :
  Redis.findByRoman r db = Returned (Some x)
  ↔ ∃ s, db !! Redis.romanKey r = Some (Redis.VString s)
         ∧ truthy s = true ∧ x = parseInt s.
Proof.
  unfold Redis.findByRoman, Redis.GET.
  destruct (db !! Redis.romanKey r) as [[s|ms]|]; split;
    try (intros (s' & [= <-] & Ht & ->); by rewrite Ht);
    try (by intros (? & [=] & _)); try done.
  destruct (truthy s) eqn:Ht; [|done]. intros [= <-]. by exists s.
Qed.

Lemma redis_save_keeps_lookups a' r' db :
  (∀ a r, Redis.findByArabic a db = Returned (Some r) →
          Redis.findByArabic a (Redis.save a' r' db).2 = Returned (Some r))
  ∧ (∀ r x, Redis.findByRoman r db = Returned (Some x) →
            Redis.findByRoman r (Redis.save a' r' db).2 = Returned (Some x)).
Proof.
  split.
  - intros a r Hfind%redis_findByArabic_lookup.
    apply redis_findByArabic_lookup.
    rewrite redis_save_present_key;
      [done | by eexists | apply RedisFacts.arabicKey_allConversionsKey].
  - intros r x (s & Hs & Ht & ->)%redis_findByRoman_lookup.
    apply redis_findByRoman_lookup. exists s. split; [|done].
    rewrite redis_save_present_key;
      [done | by eexists | apply RedisFacts.romanKey_allConversionsKey].
Qed.

(** *** PostgreSQL *)

Lemma postgres_save_rows a r db :
  Postgres.conversions (Postgres.save a r db).2 = Postgres.conversions db
  ∨ ∃ r' i,
      Postgres.to_varchar20 r = Returned r'
      ∧ Postgres.in_int4 a = true
      ∧ Postgres.conversions (Postgres.save a r db).2
        = (Postgres.conversions db ++ [Postgres.mkRow i a r'])%list.
Proof.
  rewrite PostgresFacts.save_store.
  destruct (PostgresFacts.INSERT_rows a r db)
    as [(_ & Ha & r' & i & Hr & Hrows & _)|[_ Hrows]]; [right|by left].
  by exists r', i.
Qed.

Lemma postgres_lookups_extend db db' extra :
  Postgres.conversions db' = (Postgres.conversions db ++ extra)%list →
  (∀ a r, Postgres.findByArabic a db = Returned (Some r) →
          Postgres.findByArabic a db' = Returned (Some r))
  ∧ (∀ r x, Postgres.findByRoman r db = Returned (Some x) →
            Postgres.findByRoman r db' = Returned (Some x)).
Proof.
  intros Hrows. split.
  - intros a r. unfold Postgres.findByArabic, Postgres.SELECT_roman_WHERE_arabic.
    destruct (Postgres.in_int4 a); simpl; [|done].
    rewrite Hrows, List.filter_app.
    by destruct (List.filter _ (Postgres.conversions db)).
  - intros r x. unfold Postgres.findByRoman, Postgres.SELECT_arabic_WHERE_roman.
    rewrite Hrows, List.filter_app.
    by destruct (List.filter _ (Postgres.conversions db)).
Qed.

Lemma postgres_save_keeps_lookups a' r' db :
  (∀ a r, Postgres.findByArabic a db = Returned (Some r) →
          Postgres.findByArabic a (Postgres.save a' r' db).2
          = Returned (Some r))
  ∧ (∀ r x, Postgres.findByRoman r db = Returned (Some x) →
            Postgres.findByRoman r (Postgres.save a' r' db).2
            = Returned (Some x)).
Proof.
  destruct (postgres_save_rows a' r' db) as [Hrows|(r'' & i & _ & _ & Hrows)].
  - apply (postgres_lookups_extend db _ []). by rewrite app_nil_r.
  - by apply (postgres_lookups_extend db _ [Postgres.mkRow i a' r'']).
Qed.

(** X5.  First write wins: once a lookup answers, no later sequence of
    [save] calls changes the answer, on either backend (the Redis keyspace
    and the table may be any). *)
Theorem first_write_wins later :
  (∀ db a r,
     Redis.findByArabic a db = Returned (Some r) →
     Redis.findByArabic a
       (Repository.run Redis.repository (Repository.saves later) db)
     = Returned (Some r))
  ∧ (∀ db r x,
     Redis.findByRoman r db = Returned (Some x) →
     Redis.findByRoman r
       (Repository.run Redis.repository (Repository.saves later) db)
     = Returned (Some x))
  ∧ (∀ db a r,
     Postgres.findByArabic a db = Returned (Some r) →
     Postgres.findByArabic a
       (Repository.run Postgres.repository (Repository.saves later) db)
     = Returned (Some r))
  ∧ (∀ db r x,
     Postgres.findByRoman r db = Returned (Some x) →
     Postgres.findByRoman r
       (Repository.run Postgres.repository (Repository.saves later) db)
     = Returned (Some x)).
Proof.
  induction later as [|[a' r'] later (IH1 & IH2 & IH3 & IH4)];
    [by repeat split|].
  repeat split; intros db ? ? Hfind; simpl.
  - apply IH1. by apply (redis_save_keeps_lookups a' r' db).
  - apply IH2. by apply (redis_save_keeps_lookups a' r' db).
  - apply IH3. by apply (postgres_save_keeps_lookups a' r' db).
  - apply IH4. by apply (postgres_save_keeps_lookups a' r' db).
Qed.

Lemma first_write_wins_witness :
  Redis.findByArabic 5
    (Repository.run Redis.repository
       (Repository.saves [(5, "VI"); (6, "V")]) (Redis.save 5 "V" ∅).2)
  = Returned (Some "V")
  ∧ Postgres.findByRoman "V"
      (Repository.run Postgres.repository
         (Repository.saves [(5, "VI"); (6, "V")])
         (Postgres.save 5 "V" Postgres.empty).2)
    = Returned (Some (Int 5)).
Proof.
  destruct (first_write_wins [(5, "VI"); (6, "V")]) as (H1 & _ & _ & H4).
  split; [apply H1 | apply H4]; vm_compute; reflexivity.
Defined.

(** *** Saving twice *)

Lemma redis_save_twice a r db :
  (Redis.save a r (Redis.save a r db).2).2 = (Redis.save a r db).2.
Proof.
  destruct (decide (db !! Redis.arabicKey a = None
                    ∧ db !! Redis.romanKey r = None)) as [[Ha Hr]|Hpresent].
  - destruct (redis_save_new_keys a r db Ha Hr) as [Ha' _].
    apply RedisFacts.save_present_store. intros [Hnone _]. congruence.
  - rewrite (RedisFacts.save_present_store a r db Hpresent).
    by apply RedisFacts.save_present_store.
Qed.

Lemma existsb_id_ahead rows seq :
  Forall (λ row, Postgres.id row <= seq) rows →
  ∀ k, 0 < k → existsb (λ row, Postgres.id row =? seq + k) rows = false.
Proof.
  intros Hids k Hk. apply not_true_is_false.
  intros (row & Hin & Heq)%existsb_exists.
  rewrite Forall_forall in Hids. apply list_elem_of_In, Hids in Hin.
  apply Z.eqb_eq in Heq. lia.
Qed.

Lemma sequence_ahead_save a r db :
  Postgres.sequence_ahead db → Postgres.sequence_ahead (Postgres.save a r db).2.
Proof.
  intros [Hseq Hids]. rewrite PostgresFacts.save_store.
  unfold Postgres.INSERT_ON_CONFLICT_arabic_DO_NOTHING, Postgres.sequence_ahead.
  assert (Forall (λ row, Postgres.id row <= Postgres.conversions_id_seq db + 1)
            (Postgres.conversions db)) as Hids'.
  { eapply Forall_impl; [exact Hids|]. simpl. intros; lia. }
  repeat case_match; simpl; try (split; [lia|done]); try done.
  split; [lia|]. apply Forall_app. split; [done|].
  constructor; [simpl; lia | constructor].
Qed.

Lemma sequence_ahead_run ops db :
  Postgres.sequence_ahead db →
  Postgres.sequence_ahead (Repository.run Postgres.repository ops db).
Proof.
  revert db. induction ops as [|o ops IH]; intros db H; simpl; [done|].
  apply IH. destruct o as [a r|]; simpl.
  - by apply sequence_ahead_save.
  - destruct H as [Hseq _]. split; [done | constructor].
Qed.

Lemma postgres_save_twice a r db :
  Postgres.sequence_ahead db →
  Postgres.conversions (Postgres.save a r (Postgres.save a r db).2).2
  = Postgres.conversions (Postgres.save a r db).2.
Proof.
  intros [Hseq Hids].
  pose proof (existsb_id_ahead _ _ Hids) as Hfree.
  rewrite !PostgresFacts.save_store.
  unfold Postgres.INSERT_ON_CONFLICT_arabic_DO_NOTHING at 2 3.
  destruct (Postgres.in_int4 a) eqn:Ha; simpl.
  2:{ unfold Postgres.INSERT_ON_CONFLICT_arabic_DO_NOTHING. by rewrite Ha. }
  destruct (Postgres.to_varchar20 r) as [r'|e] eqn:Hr; simpl.
  2:{ unfold Postgres.INSERT_ON_CONFLICT_arabic_DO_NOTHING. by rewrite Ha, Hr. }
  set (seq := Postgres.conversions_id_seq db) in *.
  set (rows := Postgres.conversions db) in *.
  assert (∀ rows',
    (existsb (λ row, Postgres.arabic row =? a) rows' = true
     ∨ existsb (λ row, String.eqb (Postgres.roman row) r') rows' = true
     ∨ Postgres.in_int4 (seq + 1) = false) →
    Postgres.conversions
      (Postgres.INSERT_ON_CONFLICT_arabic_DO_NOTHING a r
         {| Postgres.conversions := rows';
            Postgres.conversions_id_seq := seq + 1 |}).2 = rows') as Hsecond.
  { intros rows' Hcase.
    unfold Postgres.INSERT_ON_CONFLICT_arabic_DO_NOTHING. rewrite Ha, Hr. simpl.
    destruct (Postgres.in_int4 (seq + 1 + 1)) eqn:Hid2; simpl; [|done].
    destruct (existsb (λ row, Postgres.arabic row =? a) rows') eqn:Hea;
      [done|].
    destruct (existsb (λ row, Postgres.id row =? seq + 1 + 1) rows'); [done|].
    destruct (existsb (λ row, String.eqb (Postgres.roman row) r') rows')
      eqn:Her; [done|].
    destruct Hcase as [?|[?|Hid1]]; try done.
    unfold Postgres.in_int4 in Hid1, Hid2. lia. }
  destruct (Postgres.in_int4 (seq + 1)) eqn:Hid; simpl.
  2:{ apply Hsecond. auto. }
  destruct (existsb (λ row, Postgres.arabic row =? a) rows) eqn:Hea; simpl.
  { apply Hsecond. auto. }
  rewrite (Hfree 1) by lia.
  destruct (existsb (λ row, String.eqb (Postgres.roman row) r') rows) eqn:Her;
    simpl.
  { apply Hsecond. auto. }
  apply Hsecond. left. rewrite existsb_app. simpl.
  by rewrite Z.eqb_refl, orb_true_r.
Qed.

(** X6.  [save] is idempotent.  On any Redis keyspace, saving a pair a
    second time leaves the keyspace as the first [save] left it.  On a
    table filled through [save] and [deleteAll], the second [save] leaves
    the rows as the first left them (only the sequence moves on). *)
Theorem save_is_idempotent :
  (∀ db a r,
     (Redis.save a r (Redis.save a r db).2).2 = (Redis.save a r db).2)
  ∧ (∀ ops a r,
       let db := Repository.run Postgres.repository ops Postgres.empty in
       Postgres.conversions (Postgres.save a r (Postgres.save a r db).2).2
       = Postgres.conversions (Postgres.save a r db).2).
Proof.
  split; [intros db a r; apply redis_save_twice|].
  intros ops a r db. apply postgres_save_twice, sequence_ahead_run.
  split; [done | constructor].
Qed.

(** *** Clearing *)

(** X7.  [deleteAll] resets the store, whatever it held: afterwards both
    lookups miss and the listing is empty with a total of zero (for a
    [limit] and an [offset] that are safe integers; PostgreSQL: not
    negative), and a [save] that follows is a first write again, read back
    by both lookups (Redis: the number for a safe integer; PostgreSQL: for
    a string the server takes as [text], and a pair that fits the column
    types and is not falsy). *)
Theorem deleteAll_resets :
  (∀ db a r limit offset,
     let cleared := (Redis.deleteAll db).2 in
     Redis.findByArabic a cleared = Returned None
     ∧ Redis.findByRoman r cleared = Returned None
     ∧ (Number_isSafeInteger limit = true →
        Number_isSafeInteger offset = true →
        Redis.getAll limit offset cleared
        = Returned {| data := []; total := Int 0;
                      limit := limit; offset := offset |})
     ∧ Redis.findByArabic a (Redis.save a r cleared).2 = Returned (Some r)
     ∧ (Number_isSafeInteger a = true →
        Redis.findByRoman r (Redis.save a r cleared).2
        = Returned (Some (Int a))))
  ∧ (∀ db a r limit offset,
     let cleared := (Postgres.deleteAll db).2 in
     Postgres.in_int4 a = true → Postgres.no_nul r = true →
     Number_isSafeInteger limit = true → Number_isSafeInteger offset = true →
     0 <= limit → 0 <= offset →
     Postgres.findByArabic a cleared = Returned None
     ∧ Postgres.findByRoman r cleared = Returned None
     ∧ Postgres.getAll limit offset cleared
       = Returned {| data := []; total := Int 0;
                     limit := limit; offset := offset |}
     ∧ ((String.length r <= 20)%nat → r ≠ "" → a ≠ 0 →
        Postgres.in_int4 (Postgres.conversions_id_seq db + 1) = true →
        Postgres.findByArabic a (Postgres.save a r cleared).2
        = Returned (Some r)
        ∧ Postgres.findByRoman r (Postgres.save a r cleared).2
          = Returned (Some (Int a)))).
Proof.
  split.
  - intros db a r limit offset cleared.
    assert (cleared !! Redis.arabicKey a = None) as Ha.
    { apply RedisFacts.lookup_deleteAll. left. apply RedisFacts.prefix_arabicKey. }
    assert (cleared !! Redis.romanKey r = None) as Hr.
    { apply RedisFacts.lookup_deleteAll. right; left.
      apply RedisFacts.prefix_romanKey. }
    destruct (redis_save_new_keys a r cleared Ha Hr) as [Ha' Hr'].
    split; [|split; [|split; [|split]]].
    + unfold Redis.findByArabic, Redis.GET. by rewrite Ha.
    + unfold Redis.findByRoman, Redis.GET. by rewrite Hr.
    + apply CacheFacts.redis_getAll_after_deleteAll.
    + by apply redis_findByArabic_lookup.
    + intros _. apply redis_findByRoman_lookup. exists (toString a).
      split; [done|]. split; [apply DecimalFacts.toString_nonempty|].
      by rewrite DecimalFacts.parseInt_toString.
  - intros db a r limit offset cleared Ha _ Hsl Hso Hl Ho.
    split; [|split; [done|split]].
    + unfold Postgres.findByArabic, Postgres.SELECT_roman_WHERE_arabic.
      by rewrite Ha.
    + by apply CacheFacts.postgres_getAll_after_deleteAll.
    + intros Hlen Hr Hne Hseq.
      assert (Postgres.conversions (Postgres.save a r cleared).2
              = [Postgres.mkRow (Postgres.conversions_id_seq db + 1) a r])
        as Hrows.
      { rewrite PostgresFacts.save_store.
        unfold Postgres.INSERT_ON_CONFLICT_arabic_DO_NOTHING,
          Postgres.to_varchar20.
        rewrite Ha. simpl.
        destruct (Nat.leb_spec (String.length r) 20); [|lia]. simpl.
        by rewrite Hseq. }
      split.
      * unfold Postgres.findByArabic, Postgres.SELECT_roman_WHERE_arabic.
        rewrite Ha, Hrows. simpl. rewrite Z.eqb_refl. simpl. by destruct r.
      * unfold Postgres.findByRoman, Postgres.SELECT_arabic_WHERE_roman.
        rewrite Hrows. simpl. rewrite String.eqb_refl. simpl.
        by destruct (Z.eqb_spec a 0).
Qed.

Lemma deleteAll_resets_witness :
  let db := (Postgres.save 5 "V" Postgres.empty).2 in
  let cleared := (Postgres.deleteAll db).2 in
  Postgres.findByArabic 5 cleared = Returned None
  ∧ Postgres.findByArabic 5 (Postgres.save 5 "VI" cleared).2
    = Returned (Some "VI").
Proof.
  intros db cleared.
  destruct deleteAll_resets as [_ H].
  destruct (H db 5 "VI" 100 0) as (H1 & _ & _ & H4);
    [reflexivity | reflexivity | reflexivity | reflexivity | lia | lia |].
  split; [exact H1|].
  apply H4; [simpl; lia | discriminate | lia | reflexivity].
Defined.

End StoreFacts.

(** ** Listings *)

Module ListingFacts.
Import JS Types.

#[local] Arguments String.append : simpl nomatch.

(** *** The index window of ZRANGE *)

Lemma window_page {A} (l : list A) limit offset :
  1 <= limit → 0 <= offset →
  Redis.window offset (offset + limit - 1) l
  = take (Z.to_nat limit) (drop (Z.to_nat offset) l).
Proof.
  intros Hl Ho. unfold Redis.window.
  destruct (Z.ltb_spec offset 0); [lia|].
  destruct (Z.ltb_spec (offset + limit - 1) 0); [lia|].
  set (n := Z.of_nat (List.length l)).
  rewrite Z.gtb_ltb, Z.geb_leb.
  destruct (Z.ltb_spec (Z.min (offset + limit - 1) (n - 1)) offset) as [Hlt|Hge];
    simpl.
  - rewrite drop_ge by (unfold n in *; lia). by rewrite take_nil.
  - destruct (Z.leb_spec n offset) as [Hn|Hn].
    + rewrite drop_ge by (unfold n in *; lia). by rewrite take_nil.
    + destruct (Z.le_gt_cases (offset + limit - 1) (n - 1)) as [Hin|Hout].
      * rewrite Z.min_l by done. f_equal. lia.
      * rewrite Z.min_r by lia.
        rewrite !take_ge; [done|..]; rewrite length_drop; unfold n in *; lia.
Qed.

Lemma window_limit_zero {A} (l : list A) offset :
  0 <= offset →
  Redis.window offset (offset + 0 - 1) l = if offset =? 0 then l else [].
Proof.
  intros Ho. unfold Redis.window.
  destruct (Z.ltb_spec offset 0); [lia|].
  set (n := Z.of_nat (List.length l)).
  rewrite Z.gtb_ltb, Z.geb_leb.
  destruct (Z.eqb_spec offset 0) as [->|Hne].
  - simpl. replace (n + -1) with (n - 1) by lia. rewrite Z.min_id.
    destruct (Z.ltb_spec (n - 1) 0) as [Hlt|Hge]; simpl.
    + destruct l; [done | unfold n in Hlt; simpl in Hlt; lia].
    + destruct (Z.leb_spec n 0); [lia|]. simpl.
      apply take_ge. unfold n. lia.
  - destruct (Z.ltb_spec (offset + 0 - 1) 0); [lia|].
    destruct (Z.ltb_spec (Z.min (offset + 0 - 1) (n - 1)) offset);
      [done | lia].
Qed.

(** *** The order of the sorted set *)

Lemma zset_insert_perm x l : Redis.zset_insert x l ≡ₚ x :: l.
Proof.
  induction l as [|y l IH]; simpl; [done|].
  destruct (Redis.zset_leb x y); [done|]. rewrite IH. apply Permutation_swap.
Qed.

Lemma zset_sort_perm l : foldr Redis.zset_insert [] l ≡ₚ l.
Proof.
  induction l as [|x l IH]; simpl; [done|].
  by rewrite zset_insert_perm, IH.
Qed.

Lemma zset_insert_sorted x l :
  StronglySorted (λ y z : string * Z, y.2 <= z.2) l →
  StronglySorted (λ y z : string * Z, y.2 <= z.2) (Redis.zset_insert x l).
Proof.
  induction 1 as [|y l Hl IH Hy]; simpl; [repeat constructor|].
  destruct (Redis.zset_leb x y) eqn:Hleb.
  - constructor; [by constructor|].
    assert (x.2 <= y.2) as Hxy.
    { unfold Redis.zset_leb in Hleb.
      apply orb_true_iff in Hleb as [?%Z.ltb_lt|[?%Z.eqb_eq _]%andb_true_iff];
        lia. }
    constructor; [done|].
    eapply Forall_impl; [exact Hy|]. simpl. intros; lia.
  - constructor; [done|].
    rewrite zset_insert_perm. constructor; [|done].
    unfold Redis.zset_leb in Hleb.
    apply orb_false_iff in Hleb as [?%Z.ltb_ge _]. done.
Qed.

Lemma zset_sort_sorted l :
  StronglySorted (λ y z : string * Z, y.2 <= z.2)
    (foldr Redis.zset_insert [] l).
Proof.
  induction l as [|x l IH]; simpl; [constructor|].
  by apply zset_insert_sorted.
Qed.

(** *** Index members read back *)

Lemma split_no_colon s : no_colon s = true → split ":" s = [s].
Proof.
  induction s as [|c s IH]; [done|]. cbn [no_colon split].
  intros [Hc Hs]%andb_true_iff. apply negb_true_iff in Hc. rewrite Hc.
  by rewrite IH.
Qed.

Lemma split_at_first_colon s t :
  no_colon s = true → split ":" (s +:+ String ":" t) = s :: split ":" t.
Proof.
  induction s as [|c s IH]; [done|]. cbn [no_colon].
  intros [Hc Hs]%andb_true_iff. apply negb_true_iff in Hc.
  simpl. rewrite Hc. by rewrite IH.
Qed.

Lemma parse_item_entry a r :
  no_colon r = true → Redis.parse_item (Redis.entry a r) = conversion_of (a, r).
Proof.
  intros Hr. unfold Redis.parse_item, Redis.entry.
  change (":" +:+ r) with (String ":" r).
  rewrite split_at_first_colon by apply DecimalFacts.toString_no_colon.
  rewrite split_no_colon by done. simpl.
  by rewrite DecimalFacts.parseInt_toString.
Qed.

(** *** The Redis listing *)

Lemma window_nil {A} start stop : Redis.window start stop (@nil A) = [].
Proof.
  unfold Redis.window. change (Z.of_nat (List.length (@nil A))) with 0.
  rewrite Z.geb_leb.
  assert ((0 <=? (if start <? 0 then Z.max 0 (0 + start) else start)) = true)
    as ->.
  { destruct (Z.ltb_spec start 0); apply Z.leb_le; lia. }
  by rewrite orb_true_r.
Qed.

Lemma getAll_index limit offset db :
  Redis.index_is_a_set db →
  Number_isSafeInteger limit = true → Number_isSafeInteger offset = true →
  Redis.getAll limit offset db
  = Returned
      {| data := Redis.parse_item
                   <$> Redis.window offset (offset + limit - 1)
                         (Redis.zset_sorted (Redis.index db)).*1;
         total := Int (Z.of_nat (size (Redis.index db)));
         limit := limit; offset := offset |}.
Proof.
  intros Hset Hl Ho. unfold Redis.getAll, Redis.ZCARD, Redis.index.
  rewrite (DecimalFacts.ZRANGE_safe _ limit offset _ Hl Ho).
  destruct (db !! Redis.allConversionsKey) as [[s|members]|] eqn:Hall.
  - destruct (Hset _ Hall) as [? [=]].
  - done.
  - unfold Redis.zset_sorted. rewrite map_to_list_empty. simpl.
    by rewrite window_nil, map_size_empty.
Qed.

Lemma member_of_inj : Inj (=) (=) Redis.member_of.
Proof.
  intros [a r] [b t] [= Heq ->]. by apply RedisFacts.entry_inj in Heq as [_ ->].
Qed.

(** The sorted set of a reachable keyspace, as the list of its records in
    ascending order of their arabic value. *)
Lemma redis_sorted_records ops :
  let db := Repository.run Redis.repository ops ∅ in
  ∃ sorted : list (Z * string),
    StronglySorted Z.le sorted.*1
    ∧ NoDup sorted.*1
    ∧ (∀ a r, (a, r) ∈ sorted ↔ Redis.findByArabic a db = Returned (Some r))
    ∧ Redis.zset_sorted (Redis.index db) = Redis.member_of <$> sorted
    ∧ size (Redis.index db) = List.length sorted
    ∧ Redis.index_is_a_set db.
Proof.
  intros db.
  destruct (RedisFacts.holds_run ops ∅ [] RedisFacts.holds_empty)
    as (l & Hrep & Hn1 & _). fold db in Hrep.
  pose proof Hrep as (_ & _ & Hset & Hi).
  assert (map_to_list (Redis.index db) ≡ₚ Redis.member_of <$> l) as Hperm.
  { apply NoDup_Permutation.
    - apply NoDup_map_to_list.
    - apply (@NoDup_fmap_2 _ _ Redis.member_of member_of_inj).
      by eapply NoDup_fmap_1.
    - intros [member score]. rewrite elem_of_map_to_list, Hi, list_elem_of_fmap.
      split.
      + intros (a & r & Hin & -> & ->). by exists (a, r).
      + intros ([a r] & [= -> ->] & Hin). by exists a, r. }
  assert (Redis.zset_sorted (Redis.index db) ≡ₚ Redis.member_of <$> l) as Hsorted.
  { unfold Redis.zset_sorted. by rewrite zset_sort_perm. }
  destruct (Permutation_map_inv Redis.member_of _ Hsorted)
    as (sorted & Heq & Hl).
  exists sorted.
  assert (sorted.*1 = (Redis.zset_sorted (Redis.index db)).*2) as Hfst.
  { rewrite Heq. change (map Redis.member_of sorted) with (Redis.member_of <$> sorted).
    rewrite <- list_fmap_compose. done. }
  split; [|split; [|split; [|split; [|split]]]].
  - rewrite Hfst.
    apply (StronglySorted_fmap snd (λ y z : string * Z, y.2 <= z.2));
      [done | apply zset_sort_sorted].
  - by rewrite <- Hl.
  - intros a r. rewrite <- Hl.
    by apply RedisFacts.findByArabic_represents.
  - done.
  - rewrite <- length_map_to_list, Hperm, length_fmap. by rewrite Hl.
  - done.
Qed.

(** X8.  The Redis listing of a keyspace reached from the empty one by
    [save] calls with safe integers and by clear operations: [total] is the
    number of records, and the page of [limit >= 1] items at [offset >= 0],
    with [offset + limit] a safe integer, is that window of the records in
    ascending order of their arabic value (each arabic value once),
    provided no stored roman holds a colon.  With [limit = 0] and
    [offset = 0] the listing is not empty: it holds every record. *)
Theorem redis_listing ops :
  Repository.safe_integers ops = true →
  let db := Repository.run Redis.repository ops ∅ in
  ∃ sorted : list (Z * string),
    StronglySorted Z.le sorted.*1
    ∧ NoDup sorted.*1
    ∧ (∀ a r, (a, r) ∈ sorted ↔ Redis.findByArabic a db = Returned (Some r))
    ∧ (Forall (λ pair, no_colon pair.2 = true) sorted →
       (∀ limit offset, 1 <= limit → 0 <= offset →
          offset + limit <= MAX_SAFE_INTEGER →
          Redis.getAll limit offset db
          = Returned
              {| data := conversion_of
                           <$> take (Z.to_nat limit)
                                 (drop (Z.to_nat offset) sorted);
                 total := Int (Z.of_nat (List.length sorted));
                 limit := limit; offset := offset |})
       ∧ Redis.getAll 0 0 db
         = Returned
             {| data := conversion_of <$> sorted;
                total := Int (Z.of_nat (List.length sorted));
                limit := 0; offset := 0 |}).
Proof.
  intros _ db.
  destruct (redis_sorted_records ops)
    as (sorted & Hss & Hnd & Hin & Hzset & Hsize & Hset).
  fold db in Hin, Hzset, Hsize, Hset.
  exists sorted. split; [done|]. split; [done|]. split; [done|].
  intros Hcolon.
  assert (Redis.parse_item <$> (Redis.member_of <$> sorted).*1
          = conversion_of <$> sorted) as Hitems.
  { rewrite <- !list_fmap_compose. apply Forall_fmap_ext_1.
    eapply Forall_impl; [exact Hcolon|]. intros [a r] Hr. simpl in *.
    by apply parse_item_entry. }
  split.
  - intros limit offset Hl Ho Hmax. unfold MAX_SAFE_INTEGER in Hmax.
    rewrite (getAll_index limit offset db Hset), Hzset, Hsize;
      [|apply DecimalFacts.Number_isSafeInteger_spec; lia..].
    rewrite window_page by done.
    by rewrite fmap_take, fmap_drop, Hitems, <- fmap_drop, <- fmap_take.
  - rewrite (getAll_index 0 0 db Hset), Hzset, Hsize by done.
    rewrite (window_limit_zero _ 0) by done. simpl. by rewrite Hitems.
Qed.

Lemma redis_listing_witness :
  let pairs := [(9, "IX"); (2023, "MMXXIII"); (4, "IV")] in
  let db := Repository.run Redis.repository (Repository.saves pairs) ∅ in
  ∃ sorted : list (Z * string),
    StronglySorted Z.le sorted.*1
    ∧ (∀ a r, (a, r) ∈ sorted ↔ (a, r) ∈ pairs)
    ∧ Redis.getAll 2 1 db
      = Returned
          {| data := conversion_of <$> take 2 (drop 1 sorted);
             total := Int (Z.of_nat (List.length sorted));
             limit := 2; offset := 1 |}.
Proof.
  intros pairs db.
  destruct (redis_listing (Repository.saves pairs) eq_refl)
    as (sorted & Hss & Hnd & Hin & Hpage).
  fold db in Hin, Hpage.
  assert (Redis.represents db pairs) as Hrep.
  { apply RedisFacts.run_revisions, CacheFacts.distinct_conflict_free;
      apply (bool_decide_unpack _); vm_compute; exact I. }
  assert (∀ a r, (a, r) ∈ sorted ↔ (a, r) ∈ pairs) as Hsame.
  { intros a r. rewrite Hin.
    symmetry. apply (RedisFacts.findByArabic_represents db pairs a r Hrep). }
  exists sorted. split; [exact Hss|]. split; [exact Hsame|].
  apply Hpage; [|lia|lia|vm_compute; discriminate].
  apply Forall_forall. intros [a r] Hmem%Hsame. simpl.
  unfold pairs in Hmem.
  repeat (apply elem_of_cons in Hmem as [[= -> ->]|Hmem]; [reflexivity|]).
  by apply elem_of_nil in Hmem.
Defined.

End ListingFacts.

(** ** The service over a store it filled itself *)

Module CachedServiceFacts.
Import JS Converter Service.

Lemma in_range_dec arabic : in_range arabic ∨ ¬ in_range arabic.
Proof.
  destruct arabic as [z| | | |];
    try (right; intros (z' & Hz & _); discriminate).
  destruct (decide (1 <= z <= 3999)) as [Hz|Hz].
  - left. by exists z.
  - right. intros (z' & [= <-] & Hz'). lia.
Qed.

Lemma consistent_pair_truthy a r :
  consistent_pair a r → truthy r = true ∧ 1 <= a.
Proof.
  intros (_ & Hvalid & Hscan).
  destruct (ScanFacts.isValidRomanNumeral_static_aux r Hvalid) as [Hchars _].
  destruct (ScanFacts.valid_characters_scan r Hchars) as (a' & Ha' & Hle).
  rewrite Hscan in Ha'. injection Ha' as <-.
  split; [|done].
  apply ScanFacts.validCharacters_spec in Hchars as [Hne _].
  by destruct r.
Qed.

Lemma consistent_pair_numerals a r : consistent_pair a r → first_other r = None.
Proof.
  intros (_ & Hvalid & _).
  destruct (ScanFacts.isValidRomanNumeral_static_aux r Hvalid) as [Hchars _].
  by apply ScanFacts.validCharacters_spec in Hchars as [_ ?].
Qed.

Lemma canonical_consistent n :
  1 <= n <= 3999 → ∃ r, convertArabicToRoman n = Some r ∧ consistent_pair n r.
Proof.
  intros Hn.
  destruct (ConverterFacts.round_trip_ok_inv n
              (ConverterFacts.round_trip_ok_domain n Hn))
    as (r & ? & ? & ? & ?).
  exists r. by repeat split.
Qed.

Lemma accepted_consistent roman :
  isValidRomanNumeral (toUpperCase (trim roman)) = true →
  ∃ a, convertRomanToArabic (toUpperCase (trim roman)) = Returned a
       ∧ consistent_pair a (toUpperCase (trim roman)).
Proof.
  intros Hvalid.
  destruct (ScanFacts.isValidRomanNumeral_static_aux _ Hvalid) as [Hchars _].
  destruct (ScanFacts.valid_characters_scan _ Hchars) as (a & Ha & _).
  exists a. split; [done|].
  split; [by apply ScanFacts.valid_normalised | done].
Qed.

Lemma consistent_lookup l a r :
  consistent_cache l → (a, r) ∈ l → consistent_pair a r.
Proof. intros Hl Hin. by apply (proj1 (Forall_forall _ _) Hl (a, r)). Qed.

(** *** Any backend that keeps the three laws below

    [contents st l] reads: the store [st] holds the pairs [l].  A lookup
    on a store of consistent pairs answers from [l] or misses, and a
    [save] of a consistent pair adds it or leaves the store's pairs as
    they are. *)

Section Lawful.

Context {S : Type} (repo : Repository.IConverterRepository S).
Variable contents : S → list (Z * string) → Prop.

Hypothesis law_findByArabic : ∀ st l a,
  contents st l → consistent_cache l → 1 <= a <= 3999 →
  Repository.findByArabic repo a st = Returned None
  ∨ ∃ r, (a, r) ∈ l ∧ Repository.findByArabic repo a st = Returned (Some r).

Hypothesis law_findByRoman : ∀ st l r,
  contents st l → consistent_cache l →
  Repository.findByRoman repo r st = Returned None
  ∨ ∃ a, (a, r) ∈ l
         ∧ Repository.findByRoman repo r st = Returned (Some (Int a)).

Hypothesis law_save : ∀ st l a r,
  contents st l → consistent_pair a r →
  contents (Repository.save repo a r st).2 l
  ∨ contents (Repository.save repo a r st).2 ((a, r) :: l).

Lemma save_served st l a r :
  contents st l → consistent_cache l → consistent_pair a r →
  ∃ l', contents (Repository.save repo a r st).2 l' ∧ consistent_cache l'.
Proof.
  intros Hc Hl Hp. destruct (law_save st l a r Hc Hp) as [H|H].
  - by exists l.
  - exists ((a, r) :: l). split; [done|]. by constructor.
Qed.

Lemma romanToArabic_served st l roman :
  contents st l → consistent_cache l →
  isValidRomanNumeral (toUpperCase (trim roman)) = true →
  ∃ a, convertRomanToArabic (toUpperCase (trim roman)) = Returned a
       ∧ result (romanToArabic repo roman st) = Returned (Int a)
       ∧ ∃ l', contents (store (romanToArabic repo roman st)) l'
               ∧ consistent_cache l'.
Proof.
  intros Hc Hl Hvalid.
  destruct (accepted_consistent roman Hvalid) as (a & Ha & Hp).
  exists a. split; [done|].
  rewrite (ServiceFacts.romanToArabic_valid repo roman st Hvalid). cbv zeta.
  destruct (law_findByRoman st l (toUpperCase (trim roman)) Hc Hl)
    as [Hmiss|(a' & Hin & Hhit)].
  - rewrite Hmiss, Ha. simpl. split; [done|]. by apply save_served with l.
  - rewrite Hhit. simpl.
    destruct (consistent_lookup l a' _ Hl Hin) as (_ & _ & Ha').
    rewrite Ha in Ha'. injection Ha' as ->.
    split; [done|]. by exists l.
Qed.

Lemma arabicToRoman_served st l n :
  contents st l → consistent_cache l → 1 <= n <= 3999 →
  ∃ r response,
    arabicToRoman repo (Int n) st = Some response
    ∧ result response = Returned r
    ∧ consistent_pair n r
    ∧ ∃ l', contents (store response) l' ∧ consistent_cache l'.
Proof.
  intros Hc Hl Hn.
  rewrite (ServiceFacts.arabicToRoman_valid repo n st Hn).
  destruct (law_findByArabic st l n Hc Hl Hn) as [Hmiss|(r & Hin & Hhit)].
  - rewrite Hmiss. simpl.
    destruct (canonical_consistent n Hn) as (r & Hr & Hp).
    rewrite Hr. simpl. exists r. eexists. split; [done|]. simpl.
    split; [done|]. split; [done|]. by apply save_served with l.
  - rewrite Hhit. pose proof (consistent_lookup l n r Hl Hin) as Hp.
    destruct (consistent_pair_truthy n r Hp) as [Ht _].
    simpl. rewrite Ht. exists r. eexists. split; [done|]. simpl.
    split; [done|]. split; [done|]. by exists l.
Qed.

Lemma serve_served st req :
  (∃ l, contents st l ∧ consistent_cache l) →
  ∃ l', contents (serve repo st req) l' ∧ consistent_cache l'.
Proof.
  intros (l & Hc & Hl). destruct req as [arabic|roman]; simpl.
  - destruct (in_range_dec arabic) as [(n & -> & Hn)|Hout].
    + by destruct (arabicToRoman_served st l n Hc Hl Hn)
        as (r & response & -> & _ & _ & H).
    + rewrite (ServiceFacts.arabicToRoman_invalid repo arabic st Hout).
      simpl. by exists l.
  - destruct (isValidRomanNumeral (toUpperCase (trim roman))) eqn:Hvalid.
    + by destruct (romanToArabic_served st l roman Hc Hl Hvalid)
        as (a & _ & _ & H).
    + rewrite (ServiceFacts.romanToArabic_invalid repo roman st Hvalid).
      simpl. by exists l.
Qed.

Lemma serve_all_served requests st :
  (∃ l, contents st l ∧ consistent_cache l) →
  ∃ l', contents (serve_all repo requests st) l' ∧ consistent_cache l'.
Proof.
  revert st. induction requests as [|req requests IH]; intros st H; [done|].
  apply IH. by apply serve_served.
Qed.

Lemma testInverseProperty_served st l arabic :
  contents st l → consistent_cache l →
  ∃ response,
    testInverseProperty repo arabic st = Some response
    ∧ (in_range arabic → result response = Returned true)
    ∧ (¬ in_range arabic → response = mkResponse (Returned false) [] st).
Proof.
  intros Hc Hl. unfold testInverseProperty.
  destruct (in_range_dec arabic) as [(n & -> & Hn)|Hout].
  - destruct (arabicToRoman_served st l n Hc Hl Hn)
      as (r & first & -> & Hr & Hp & l' & Hc' & Hl').
    simpl. rewrite Hr.
    eexists. split; [done|]. split; [|intros []; by exists n].
    intros _. simpl.
    destruct Hp as (Hnorm & Hvalid & Hscan).
    assert (isValidRomanNumeral (toUpperCase (trim r)) = true) as Hvalid'
      by (by rewrite Hnorm).
    destruct (romanToArabic_served (store first) l' r Hc' Hl' Hvalid')
      as (a & Ha & -> & _).
    rewrite Hnorm, Hscan in Ha. injection Ha as <-.
    simpl. by rewrite Z.eqb_refl.
  - rewrite (ServiceFacts.arabicToRoman_invalid repo arabic st Hout). simpl.
    eexists. split; [done|]. split; [done|]. done.
Qed.

End Lawful.

(** *** Redis keeps the laws *)

Lemma redis_law_findByArabic db l a :
  Redis.represents db l →
  Redis.findByArabic a db = Returned None
  ∨ ∃ r, (a, r) ∈ l ∧ Redis.findByArabic a db = Returned (Some r).
Proof.
  intros Hrep. destruct (db !! Redis.arabicKey a) as [v|] eqn:Hkey.
  - right. destruct Hrep as (Harabic & _).
    destruct (proj1 (Harabic a v) Hkey) as (r & -> & Hin).
    exists r. split; [done|]. unfold Redis.findByArabic, Redis.GET.
    by rewrite Hkey.
  - left. unfold Redis.findByArabic, Redis.GET. by rewrite Hkey.
Qed.

Lemma redis_law_findByRoman db l r :
  Redis.represents db l →
  Redis.findByRoman r db = Returned None
  ∨ ∃ a, (a, r) ∈ l ∧ Redis.findByRoman r db = Returned (Some (Int a)).
Proof.
  intros Hrep. destruct (db !! Redis.romanKey r) as [v|] eqn:Hkey.
  - right. pose proof Hrep as (_ & Hroman & _).
    destruct (proj1 (Hroman r v) Hkey) as (a & -> & Hin).
    exists a. split; [done|].
    by apply (RedisFacts.findByRoman_represents db l).
  - left. unfold Redis.findByRoman, Redis.GET. by rewrite Hkey.
Qed.

Lemma redis_law_save db l a r :
  Redis.represents db l →
  Redis.represents (Redis.save a r db).2 l
  ∨ Redis.represents (Redis.save a r db).2 ((a, r) :: l).
Proof.
  intros Hrep.
  destruct (db !! Redis.arabicKey a) as [v|] eqn:Harabic.
  { left. rewrite RedisFacts.save_present_store; [done|].
    intros [Hnone _]. by rewrite Harabic in Hnone. }
  destruct (db !! Redis.romanKey r) as [v|] eqn:Hroman.
  { left. rewrite RedisFacts.save_present_store; [done|].
    intros [_ Hnone]. by rewrite Hroman in Hnone. }
  right.
  rewrite RedisFacts.save_absent;
    [|by apply (RedisFacts.represents_index_is_a_set db l)|done|done].
  destruct (RedisFacts.represents_fresh db l a r Hrep Harabic Hroman).
  by apply RedisFacts.represents_written.
Qed.

(** *** PostgreSQL keeps the laws *)

Lemma numerals_not_spaces s n m :
  first_other s = None → (n + m <= String.length s)%nat →
  Postgres.all_spaces (String.substring n m s) = true → m = 0%nat.
Proof.
  revert n m. induction s as [|c s IH]; intros n m Hs Hlen Hspaces.
  - simpl in Hlen. lia.
  - simpl in Hs. destruct (is_numeral c) eqn:Hc; [|done].
    destruct n as [|n].
    + destruct m as [|m]; [done|]. simpl in Hspaces.
      apply andb_true_iff in Hspaces as [Hspace _].
      apply Ascii.eqb_eq in Hspace as ->. done.
    + simpl in Hspaces, Hlen. apply (IH n m); [done | lia | done].
Qed.

Lemma numeral_to_varchar20 s r :
  first_other s = None → Postgres.to_varchar20 s = Returned r → r = s.
Proof.
  intros Hs. unfold Postgres.to_varchar20.
  destruct (Nat.leb_spec (String.length s) 20) as [Hle|Hgt]; [congruence|].
  destruct (Postgres.all_spaces _) eqn:Hspaces; [|done].
  apply numerals_not_spaces in Hspaces; [lia | done | lia].
Qed.

Lemma postgres_law_findByArabic db l a :
  Postgres.contents db l → consistent_cache l → 1 <= a <= 3999 →
  Postgres.findByArabic a db = Returned None
  ∨ ∃ r, (a, r) ∈ l ∧ Postgres.findByArabic a db = Returned (Some r).
Proof.
  intros [_ Hsame] Hl Ha.
  unfold Postgres.findByArabic, Postgres.SELECT_roman_WHERE_arabic.
  assert (Postgres.in_int4 a = true) as ->.
  { unfold Postgres.in_int4. apply andb_true_iff. split; apply Z.leb_le; lia. }
  simpl.
  destruct (List.filter _ _) as [|row rows] eqn:Hrows; [by left|].
  right. assert (row ∈ row :: rows) as Hrow by left.
  rewrite <- Hrows in Hrow. apply list_elem_of_In, filter_In in Hrow as [Hin Heq].
  apply Z.eqb_eq in Heq. apply list_elem_of_In in Hin.
  assert ((a, Postgres.roman row) ∈ l) as Hpair.
  { apply Hsame, PostgresFacts.elem_of_records. by exists row. }
  exists (Postgres.roman row). split; [done|]. simpl.
  by destruct (consistent_pair_truthy _ _ (consistent_lookup l _ _ Hl Hpair))
    as [-> _].
Qed.

Lemma postgres_law_findByRoman db l r :
  Postgres.contents db l → consistent_cache l →
  Postgres.findByRoman r db = Returned None
  ∨ ∃ a, (a, r) ∈ l ∧ Postgres.findByRoman r db = Returned (Some (Int a)).
Proof.
  intros [_ Hsame] Hl.
  unfold Postgres.findByRoman, Postgres.SELECT_arabic_WHERE_roman.
  destruct (List.filter _ _) as [|row rows] eqn:Hrows; [by left|].
  right. assert (row ∈ row :: rows) as Hrow by left.
  rewrite <- Hrows in Hrow. apply list_elem_of_In, filter_In in Hrow as [Hin Heq].
  apply String.eqb_eq in Heq. apply list_elem_of_In in Hin.
  assert ((Postgres.arabic row, r) ∈ l) as Hpair.
  { apply Hsame, PostgresFacts.elem_of_records. by exists row. }
  exists (Postgres.arabic row). split; [done|]. simpl.
  destruct (consistent_pair_truthy _ _ (consistent_lookup l _ _ Hl Hpair))
    as [_ Hpos].
  destruct (Z.eqb_spec (Postgres.arabic row) 0); [lia | done].
Qed.

Lemma postgres_law_save db l a r :
  Postgres.contents db l → consistent_pair a r →
  Postgres.contents (Postgres.save a r db).2 l
  ∨ Postgres.contents (Postgres.save a r db).2 ((a, r) :: l).
Proof.
  intros [Hholds Hsame] Hp.
  pose proof (PostgresFacts.table_holds_save a r db Hholds) as Hholds'.
  destruct (StoreFacts.postgres_save_rows a r db)
    as [Hrows|(r' & i & Hr' & _ & Hrows)].
  - left. split; [done|]. intros pair. unfold Postgres.records.
    rewrite Hrows. apply Hsame.
  - right. split; [done|]. intros pair. unfold Postgres.records.
    rewrite Hrows, fmap_app. simpl.
    apply numeral_to_varchar20 in Hr' as ->;
      [|by apply (consistent_pair_numerals a)].
    rewrite elem_of_cons, elem_of_app, list_elem_of_singleton, (Hsame pair).
    unfold Postgres.records. tauto.
Qed.

(** *** The stores the service fills *)

Lemma redis_served requests :
  ∃ l, Redis.represents (serve_all Redis.repository requests ∅) l
       ∧ consistent_cache l.
Proof.
  apply (serve_all_served Redis.repository Redis.represents).
  - intros st l a Hc _ _. by apply redis_law_findByArabic.
  - intros st l r Hc _. by apply redis_law_findByRoman.
  - intros st l a r Hc _. by apply redis_law_save.
  - exists []. split; [apply RedisFacts.represents_empty | constructor].
Qed.

Lemma postgres_served requests :
  ∃ l, Postgres.contents
         (serve_all Postgres.repository requests Postgres.empty) l
       ∧ consistent_cache l.
Proof.
  apply (serve_all_served Postgres.repository Postgres.contents).
  - apply postgres_law_findByArabic.
  - apply postgres_law_findByRoman.
  - apply postgres_law_save.
  - exists []. split; [|constructor].
    split; [apply PostgresFacts.table_holds_empty | done].
Qed.

(** X9.  On a store that only the service has written to (any sequence of
    conversion requests from the empty store, Redis or PostgreSQL),
    [romanToArabic] does not depend on the cache: for an input the
    validator accepts it returns the value [convertRomanToArabic] gives the
    normalised input, whether it is served from the cache or computed. *)
Theorem romanToArabic_ignores_the_cache requests roman :
  isValidRomanNumeral (toUpperCase (trim roman)) = true →
  ∃ a, convertRomanToArabic (toUpperCase (trim roman)) = Returned a
       ∧ result (romanToArabic Redis.repository roman
                   (serve_all Redis.repository requests ∅))
         = Returned (Int a)
       ∧ result (romanToArabic Postgres.repository roman
                   (serve_all Postgres.repository requests Postgres.empty))
         = Returned (Int a).
Proof.
  intros Hvalid.
  destruct (redis_served requests) as (l & Hc & Hl).
  destruct (postgres_served requests) as (l' & Hc' & Hl').
  destruct (romanToArabic_served Redis.repository Redis.represents
              (λ st l r Hc _, redis_law_findByRoman st l r Hc)
              (λ st l a r Hc _, redis_law_save st l a r Hc)
              _ l roman Hc Hl Hvalid) as (a & Ha & Hredis & _).
  destruct (romanToArabic_served Postgres.repository Postgres.contents
              postgres_law_findByRoman postgres_law_save _ l' roman Hc' Hl' Hvalid)
    as (a' & Ha' & Hpostgres & _).
  rewrite Ha in Ha'. injection Ha' as <-.
  by exists a.
Qed.

Lemma romanToArabic_ignores_the_cache_witness :
  ∃ a, convertRomanToArabic (toUpperCase (trim " ix ")) = Returned a
       ∧ result (romanToArabic Redis.repository " ix "
                   (serve_all Redis.repository
                      [ArabicToRoman (Int 9); RomanToArabic "viv"] ∅))
         = Returned (Int a)
       ∧ result (romanToArabic Postgres.repository " ix "
                   (serve_all Postgres.repository
                      [ArabicToRoman (Int 9); RomanToArabic "viv"]
                      Postgres.empty))
         = Returned (Int a).
Proof.
  apply (romanToArabic_ignores_the_cache
           [ArabicToRoman (Int 9); RomanToArabic "viv"] " ix ").
  reflexivity.
Defined.

(** X10.  On a store that only the service has written to, [arabicToRoman]
    answers every integer from 1 to 3999 with a numeral the validator
    accepts and [convertRomanToArabic] reads back as that integer.  The
    numeral need not be the one [convertArabicToRoman] builds: after
    [romanToArabic("VIV")], [arabicToRoman(9)] answers ["VIV"]. *)
Theorem arabicToRoman_answers_a_numeral :
  (∀ requests n, 1 <= n <= 3999 →
     (∃ r response,
        arabicToRoman Redis.repository (Int n)
          (serve_all Redis.repository requests ∅) = Some response
        ∧ result response = Returned r
        ∧ isValidRomanNumeral r = true
        ∧ convertRomanToArabic r = Returned n)
     ∧ (∃ r response,
        arabicToRoman Postgres.repository (Int n)
          (serve_all Postgres.repository requests Postgres.empty)
        = Some response
        ∧ result response = Returned r
        ∧ isValidRomanNumeral r = true
        ∧ convertRomanToArabic r = Returned n))
  ∧ (∃ response,
       arabicToRoman Redis.repository (Int 9)
         (serve_all Redis.repository [RomanToArabic "VIV"] ∅) = Some response
       ∧ result response = Returned "VIV"
       ∧ convertArabicToRoman 9 = Some "IX")
  ∧ (∃ response,
       arabicToRoman Postgres.repository (Int 9)
         (serve_all Postgres.repository [RomanToArabic "VIV"] Postgres.empty)
       = Some response
       ∧ result response = Returned "VIV").
Proof.
  split; [|split].
  - intros requests n Hn.
    destruct (redis_served requests) as (l & Hc & Hl).
    destruct (postgres_served requests) as (l' & Hc' & Hl').
    split.
    + destruct (arabicToRoman_served Redis.repository Redis.represents
                  (λ st l a Hc _ _, redis_law_findByArabic st l a Hc)
                  (λ st l a r Hc _, redis_law_save st l a r Hc)
                  _ l n Hc Hl Hn)
        as (r & response & Hresponse & Hr & (_ & Hvalid & Hscan) & _).
      by exists r, response.
    + destruct (arabicToRoman_served Postgres.repository Postgres.contents
                  postgres_law_findByArabic postgres_law_save _ l' n Hc' Hl' Hn)
        as (r & response & Hresponse & Hr & (_ & Hvalid & Hscan) & _).
      by exists r, response.
  - exists (mkResponse (Returned "VIV") [FindByArabic 9]
              (serve_all Redis.repository [RomanToArabic "VIV"] ∅)).
    split; [vm_compute; reflexivity|].
    split; [reflexivity | vm_compute; reflexivity].
  - exists (mkResponse (Returned "VIV") [FindByArabic 9]
              (serve_all Postgres.repository [RomanToArabic "VIV"]
                 Postgres.empty)).
    split; [vm_compute; reflexivity | reflexivity].
Qed.

Lemma arabicToRoman_answers_a_numeral_witness :
  ∃ r response,
    arabicToRoman Postgres.repository (Int 1994)
      (serve_all Postgres.repository
         [RomanToArabic "mcmxciv"; ArabicToRoman (Int 4)] Postgres.empty)
    = Some response
    ∧ result response = Returned r
    ∧ isValidRomanNumeral r = true
    ∧ convertRomanToArabic r = Returned 1994.
Proof.
  apply (proj1 arabicToRoman_answers_a_numeral
           [RomanToArabic "mcmxciv"; ArabicToRoman (Int 4)] 1994).
  lia.
Defined.

(** X11.  [testInverseProperty] on a store that only the service has
    written to: it returns [true] for every integer from 1 to 3999, served
    from the cache or not, and for any other number it returns [false]
    without a repository call. *)
Theorem testInverseProperty_holds_on_the_domain requests arabic :
  (∃ response,
     testInverseProperty Redis.repository arabic
       (serve_all Redis.repository requests ∅) = Some response
     ∧ (in_range arabic → result response = Returned true)
     ∧ (¬ in_range arabic →
        response
        = mkResponse (Returned false) []
            (serve_all Redis.repository requests ∅)))
  ∧ (∃ response,
     testInverseProperty Postgres.repository arabic
       (serve_all Postgres.repository requests Postgres.empty)
     = Some response
     ∧ (in_range arabic → result response = Returned true)
     ∧ (¬ in_range arabic →
        response
        = mkResponse (Returned false) []
            (serve_all Postgres.repository requests Postgres.empty))).
Proof.
  destruct (redis_served requests) as (l & Hc & Hl).
  destruct (postgres_served requests) as (l' & Hc' & Hl').
  split.
  - apply (testInverseProperty_served Redis.repository Redis.represents
             (λ st l a Hc _ _, redis_law_findByArabic st l a Hc)
             (λ st l r Hc _, redis_law_findByRoman st l r Hc)
             (λ st l a r Hc _, redis_law_save st l a r Hc) _ l); done.
  - apply (testInverseProperty_served Postgres.repository Postgres.contents
             postgres_law_findByArabic postgres_law_findByRoman
             postgres_law_save _ l'); done.
Qed.

Lemma testInverseProperty_holds_on_the_domain_witness :
  ∃ response,
    testInverseProperty Redis.repository (Int 9)
      (serve_all Redis.repository [RomanToArabic "VIV"] ∅) = Some response
    ∧ result response = Returned true.
Proof.
  destruct (proj1 (testInverseProperty_holds_on_the_domain
                     [RomanToArabic "VIV"] (Int 9)))
    as (response & Hresponse & Hin & _).
  exists response. split; [exact Hresponse|].
  apply Hin. exists 9. split; [reflexivity | lia].
Defined.

End CachedServiceFacts.

(** ** The PostgreSQL listing *)

Module TableFacts.
Import JS Types.

Lemma insert_by_arabic_perm row rows :
  Postgres.insert_by_arabic row rows ≡ₚ row :: rows.
Proof.
  induction rows as [|row' rows IH]; simpl; [done|].
  destruct (Postgres.arabic row <? Postgres.arabic row'); [done|].
  rewrite IH. apply Permutation_swap.
Qed.

Lemma ORDER_BY_arabic_perm rows : Postgres.ORDER_BY_arabic rows ≡ₚ rows.
Proof.
  induction rows as [|row rows IH]; simpl; [done|].
  by rewrite insert_by_arabic_perm, IH.
Qed.

Lemma insert_by_arabic_sorted row rows :
  StronglySorted (λ x y, Postgres.arabic x <= Postgres.arabic y) rows →
  StronglySorted (λ x y, Postgres.arabic x <= Postgres.arabic y)
    (Postgres.insert_by_arabic row rows).
Proof.
  induction 1 as [|row' rows Hrows IH Hrow']; simpl; [repeat constructor|].
  destruct (Z.ltb_spec (Postgres.arabic row) (Postgres.arabic row'))
    as [Hlt|Hge].
  - constructor; [by constructor|].
    constructor; [lia|].
    eapply Forall_impl; [exact Hrow'|]. simpl. intros; lia.
  - constructor; [done|].
    rewrite insert_by_arabic_perm. by constructor.
Qed.

Lemma ORDER_BY_arabic_sorted rows :
  StronglySorted (λ x y, Postgres.arabic x <= Postgres.arabic y)
    (Postgres.ORDER_BY_arabic rows).
Proof.
  induction rows as [|row rows IH]; simpl; [constructor|].
  by apply insert_by_arabic_sorted.
Qed.

Lemma postgres_getAll_sorted db limit offset :
  let sorted :=
    (λ row, (Postgres.arabic row, Postgres.roman row))
      <$> Postgres.ORDER_BY_arabic (Postgres.conversions db) in
  Number_isSafeInteger limit = true → Number_isSafeInteger offset = true →
  Postgres.getAll limit offset db
  = if offset <? 0
    then Thrown Postgres.invalid_row_count_in_result_offset_clause
    else if limit <? 0
    then Thrown Postgres.invalid_row_count_in_limit_clause
    else Returned
           {| data := conversion_of
                        <$> take (Z.to_nat limit)
                              (drop (Z.to_nat offset) sorted);
              total := Int (Z.of_nat (List.length sorted));
              limit := limit; offset := offset |}.
Proof.
  intros sorted Hl%DecimalFacts.Number_isSafeInteger_spec
    Ho%DecimalFacts.Number_isSafeInteger_spec.
  unfold Postgres.getAll, Postgres.SELECT_COUNT,
    Postgres.SELECT_ORDER_BY_arabic_LIMIT_OFFSET.
  assert (Postgres.in_int8 limit = true) as ->
    by (apply DecimalFacts.in_int8_spec; lia).
  assert (Postgres.in_int8 offset = true) as ->
    by (apply DecimalFacts.in_int8_spec; lia).
  cbn [negb].
  destruct (offset <? 0); [done|]. destruct (limit <? 0); [done|].
  rewrite DecimalFacts.parseInt_toString. f_equal. f_equal.
  - unfold sorted. rewrite <- fmap_drop, <- fmap_take, <- list_fmap_compose.
    done.
  - unfold sorted. rewrite length_fmap.
    by rewrite (Permutation_length (ORDER_BY_arabic_perm _)).
Qed.

(** X12.  The PostgreSQL listing of a table that keeps its constraints, for
    a [limit] and an [offset] that are safe integers: a negative [offset]
    is rejected by the server (2201X) and then a negative [limit] (2201W);
    otherwise [total] is the number of rows and the page is the window of
    [limit] records at [offset] of the records in ascending order of their
    arabic value, each arabic value once.  A [limit] of zero gives an empty
    page. *)
Theorem postgres_listing db :
  Postgres.holds db →
  ∃ sorted : list (Z * string),
    sorted ≡ₚ Postgres.records db
    ∧ StronglySorted Z.le sorted.*1
    ∧ NoDup sorted.*1
    ∧ ∀ limit offset,
        Number_isSafeInteger limit = true →
        Number_isSafeInteger offset = true →
        Postgres.getAll limit offset db
        = if offset <? 0
          then Thrown Postgres.invalid_row_count_in_result_offset_clause
          else if limit <? 0
          then Thrown Postgres.invalid_row_count_in_limit_clause
          else Returned
                 {| data := conversion_of
                              <$> take (Z.to_nat limit)
                                    (drop (Z.to_nat offset) sorted);
                    total := Int (Z.of_nat (List.length sorted));
                    limit := limit; offset := offset |}.
Proof.
  intros Hholds.
  exists ((λ row, (Postgres.arabic row, Postgres.roman row))
            <$> Postgres.ORDER_BY_arabic (Postgres.conversions db)).
  assert (((λ row, (Postgres.arabic row, Postgres.roman row))
             <$> Postgres.ORDER_BY_arabic (Postgres.conversions db))
          ≡ₚ Postgres.records db) as Hperm.
  { unfold Postgres.records. by rewrite ORDER_BY_arabic_perm. }
  split; [done|]. split; [|split].
  - rewrite <- list_fmap_compose.
    apply (StronglySorted_fmap Postgres.arabic
             (λ x y, Postgres.arabic x <= Postgres.arabic y));
      [done | apply ORDER_BY_arabic_sorted].
  - rewrite Hperm. by destruct (PostgresFacts.records_NoDup db Hholds).
  - intros limit offset. apply postgres_getAll_sorted.
Qed.

Lemma postgres_listing_witness :
  let db :=
    Repository.run Postgres.repository
      (Repository.saves [(9, "IX"); (4, "IV")]) Postgres.empty in
  ∃ sorted : list (Z * string),
    sorted ≡ₚ Postgres.records db
    ∧ Postgres.getAll (-1) (-1) db
      = Thrown Postgres.invalid_row_count_in_result_offset_clause
    ∧ Postgres.getAll 1 1 db
      = Returned
          {| data := conversion_of <$> take 1 (drop 1 sorted);
             total := Int (Z.of_nat (List.length sorted));
             limit := 1; offset := 1 |}.
Proof.
  intros db.
  destruct (postgres_listing db) as (sorted & Hperm & _ & _ & Hpage).
  - unfold Postgres.holds. apply (bool_decide_unpack _). vm_compute. exact I.
  - exists sorted. split; [exact Hperm|]. split.
    + apply (Hpage (-1) (-1)); reflexivity.
    + apply (Hpage 1 1); reflexivity.
Defined.

End TableFacts.

(** ** The two backends behind the same service *)

Module BackendFacts.
Import JS Converter Types Service.

(** *** Lookups read the records *)

Lemma redis_findByArabic_exact db l a :
  Redis.represents db l →
  (Redis.findByArabic a db = Returned None ∧ ∀ r, (a, r) ∉ l)
  ∨ ∃ r, (a, r) ∈ l ∧ Redis.findByArabic a db = Returned (Some r).
Proof.
  intros Hrep.
  destruct (CachedServiceFacts.redis_law_findByArabic db l a Hrep)
    as [Hmiss|Hhit]; [left | by right].
  split; [done|]. intros r Hin.
  apply (RedisFacts.findByArabic_represents db l a r Hrep) in Hin. congruence.
Qed.

Lemma redis_findByRoman_exact db l r :
  Redis.represents db l →
  (Redis.findByRoman r db = Returned None ∧ ∀ a, (a, r) ∉ l)
  ∨ ∃ a, (a, r) ∈ l ∧ Redis.findByRoman r db = Returned (Some (Int a)).
Proof.
  intros Hrep.
  destruct (CachedServiceFacts.redis_law_findByRoman db l r Hrep)
    as [Hmiss|Hhit]; [left | by right].
  split; [done|]. intros a Hin.
  apply (RedisFacts.findByRoman_represents db l a r Hrep) in Hin. congruence.
Qed.

Lemma postgres_findByArabic_exact db l a :
  Postgres.contents db l → consistent_cache l → 1 <= a <= 3999 →
  (Postgres.findByArabic a db = Returned None ∧ ∀ r, (a, r) ∉ l)
  ∨ ∃ r, (a, r) ∈ l ∧ Postgres.findByArabic a db = Returned (Some r).
Proof.
  intros Hc Hl Ha.
  destruct (CachedServiceFacts.postgres_law_findByArabic db l a Hc Hl Ha)
    as [Hmiss|Hhit]; [left | by right].
  split; [done|]. intros r Hin.
  destruct (CachedServiceFacts.consistent_pair_truthy a r
              (CachedServiceFacts.consistent_lookup l a r Hl Hin)) as [Hr _].
  destruct Hc as [Hholds Hsame]. apply Hsame in Hin.
  apply (PostgresFacts.findByArabic_holds db a r Hholds) in Hin;
    [congruence | by destruct r].
Qed.

Lemma postgres_findByRoman_exact db l r :
  Postgres.contents db l → consistent_cache l →
  (Postgres.findByRoman r db = Returned None ∧ ∀ a, (a, r) ∉ l)
  ∨ ∃ a, (a, r) ∈ l ∧ Postgres.findByRoman r db = Returned (Some (Int a)).
Proof.
  intros Hc Hl.
  destruct (CachedServiceFacts.postgres_law_findByRoman db l r Hc Hl)
    as [Hmiss|Hhit]; [left | by right].
  split; [done|]. intros a Hin.
  destruct (CachedServiceFacts.consistent_pair_truthy a r
              (CachedServiceFacts.consistent_lookup l a r Hl Hin)) as [_ Ha].
  destruct Hc as [Hholds Hsame]. apply Hsame in Hin.
  apply (PostgresFacts.findByRoman_holds db a r Hholds) in Hin;
    [congruence | lia].
Qed.

Lemma findByArabic_agree keyspace table l a :
  Redis.represents keyspace l → Postgres.contents table l →
  consistent_cache l → 1 <= a <= 3999 →
  Postgres.findByArabic a table = Redis.findByArabic a keyspace.
Proof.
  intros Hrep Hc Hl Ha.
  destruct (redis_findByArabic_exact keyspace l a Hrep)
    as [[-> Hno]|(r & Hin & ->)];
    destruct (postgres_findByArabic_exact table l a Hc Hl Ha)
      as [[-> Hno']|(r' & Hin' & ->)]; try done.
  - by destruct (Hno r').
  - by destruct (Hno' r).
  - apply (RedisFacts.findByArabic_represents keyspace l a _ Hrep) in Hin, Hin'.
    congruence.
Qed.

Lemma findByRoman_agree keyspace table l r :
  Redis.represents keyspace l → Postgres.contents table l →
  consistent_cache l →
  Postgres.findByRoman r table = Redis.findByRoman r keyspace.
Proof.
  intros Hrep Hc Hl.
  destruct (redis_findByRoman_exact keyspace l r Hrep)
    as [[-> Hno]|(a & Hin & ->)];
    destruct (postgres_findByRoman_exact table l r Hc Hl)
      as [[-> Hno']|(a' & Hin' & ->)]; try done.
  - by destruct (Hno a').
  - by destruct (Hno' a).
  - apply (RedisFacts.findByRoman_represents keyspace l _ r Hrep) in Hin, Hin'.
    congruence.
Qed.

(** *** A [save] adds the pair unless one of its values is taken *)

Lemma redis_save_exact db l a r :
  Redis.represents db l →
  (((∃ r', (a, r') ∈ l) ∨ (∃ a', (a', r) ∈ l))
   ∧ Redis.represents (Redis.save a r db).2 l)
  ∨ ((∀ r', (a, r') ∉ l) ∧ (∀ a', (a', r) ∉ l)
     ∧ Redis.represents (Redis.save a r db).2 ((a, r) :: l)).
Proof.
  intros Hrep. pose proof Hrep as (Harabic & Hroman & _).
  destruct (db !! Redis.arabicKey a) as [v|] eqn:Ha.
  { left. split.
    - left. destruct (proj1 (Harabic a v) Ha) as (r' & _ & Hin). by exists r'.
    - rewrite RedisFacts.save_present_store; [done|].
      intros [Hnone _]. by rewrite Ha in Hnone. }
  destruct (db !! Redis.romanKey r) as [v|] eqn:Hr.
  { left. split.
    - right. destruct (proj1 (Hroman r v) Hr) as (a' & _ & Hin). by exists a'.
    - rewrite RedisFacts.save_present_store; [done|].
      intros [_ Hnone]. by rewrite Hr in Hnone. }
  right. destruct (RedisFacts.represents_fresh db l a r Hrep Ha Hr) as [Hfa Hfr].
  split; [done|]. split; [done|].
  rewrite RedisFacts.save_absent;
    [|by apply (RedisFacts.represents_index_is_a_set db l)|done|done].
  by apply RedisFacts.represents_written.
Qed.

Lemma postgres_save_exact db l a r :
  Postgres.contents db l → Postgres.sequence_ahead db →
  Postgres.conversions_id_seq db < 2147483647 →
  Postgres.in_int4 a = true → (String.length r <= 20)%nat →
  (((∃ r', (a, r') ∈ l) ∨ (∃ a', (a', r) ∈ l))
   ∧ Postgres.contents (Postgres.save a r db).2 l)
  ∨ ((∀ r', (a, r') ∉ l) ∧ (∀ a', (a', r) ∉ l)
     ∧ Postgres.contents (Postgres.save a r db).2 ((a, r) :: l)).
Proof.
  intros [Hholds Hsame] [Hseq Hahead] Hmax Ha Hlen.
  pose proof (PostgresFacts.table_holds_save a r db Hholds) as Hholds'.
  remember (Postgres.save a r db) as saved eqn:Hsaved.
  unfold Postgres.save, Postgres.INSERT_ON_CONFLICT_arabic_DO_NOTHING in Hsaved.
  rewrite Ha in Hsaved. unfold Postgres.to_varchar20 in Hsaved.
  destruct (Nat.leb_spec (String.length r) 20) as [_|?]; [|lia].
  assert (Postgres.in_int4 (Postgres.conversions_id_seq db + 1) = true) as Hid.
  { unfold Postgres.in_int4. apply andb_true_iff; split; apply Z.leb_le; lia. }
  cbv zeta in Hsaved. cbn [negb] in Hsaved. rewrite Hid in Hsaved.
  cbn [negb Postgres.conversions] in Hsaved.
  rewrite (StoreFacts.existsb_id_ahead _ _ Hahead 1) in Hsaved by lia.
  destruct (existsb (λ row, Postgres.arabic row =? a) (Postgres.conversions db))
    eqn:Harabic.
  { left. subst saved. split; [|by split].
    left. apply existsb_exists in Harabic as (row & Hin & Heq%Z.eqb_eq).
    exists (Postgres.roman row). apply Hsame, PostgresFacts.elem_of_records.
    exists row. split; [by apply list_elem_of_In | done]. }
  destruct (existsb (λ row, String.eqb (Postgres.roman row) r)
              (Postgres.conversions db)) eqn:Hroman.
  { left. subst saved. split; [|by split].
    right. apply existsb_exists in Hroman as (row & Hin & Heq%String.eqb_eq).
    exists (Postgres.arabic row). apply Hsame, PostgresFacts.elem_of_records.
    exists row. split; [by apply list_elem_of_In | done]. }
  right. subst saved. split; [|split; [|split; [done|]]].
  - intros r' Hin. apply Hsame, PostgresFacts.elem_of_records in Hin
      as (row & Hin & Heq & _).
    apply (PostgresFacts.existsb_false _ _ row Harabic) in Hin.
    apply Z.eqb_neq in Hin. done.
  - intros a' Hin. apply Hsame, PostgresFacts.elem_of_records in Hin
      as (row & Hin & _ & Heq).
    apply (PostgresFacts.existsb_false _ _ row Hroman) in Hin.
    apply String.eqb_neq in Hin. done.
  - intros pair. unfold Postgres.records. simpl. rewrite fmap_app. simpl.
    rewrite elem_of_cons, elem_of_app, list_elem_of_singleton, (Hsame pair).
    unfold Postgres.records. tauto.
Qed.

Lemma postgres_save_sequence a r db :
  Postgres.conversions_id_seq (Postgres.save a r db).2
  <= Postgres.conversions_id_seq db + 1.
Proof.
  unfold Postgres.save, Postgres.INSERT_ON_CONFLICT_arabic_DO_NOTHING.
  destruct (negb (Postgres.in_int4 a)); [simpl; lia|].
  destruct (Postgres.to_varchar20 r); [|simpl; lia]. cbv zeta.
  repeat match goal with
         | |- context [if ?b then _ else _] => destruct b
         end; simpl; lia.
Qed.

Lemma canonical_fits n r :
  1 <= n <= 3999 → convertArabicToRoman n = Some r →
  (String.length r <= 15)%nat.
Proof.
  intros Hn Hr.
  assert (forallb (λ n, match convertArabicToRoman n with
                        | Some r => (String.length r <=? 15)%nat
                        | None => false
                        end) domain = true) as Hall by (vm_compute; reflexivity).
  rewrite forallb_forall in Hall.
  specialize (Hall n (proj1 (list_elem_of_In _ _) (ConverterFacts.domain_spec n Hn))).
  rewrite Hr in Hall. by apply Nat.leb_le.
Qed.

Lemma save_agree keyspace table l a r :
  Redis.represents keyspace l → Postgres.contents table l →
  consistent_cache l → Postgres.sequence_ahead table →
  Postgres.conversions_id_seq table < 2147483647 →
  consistent_pair a r → (String.length r <= 20)%nat →
  ∃ l', Redis.represents (Redis.save a r keyspace).2 l'
        ∧ Postgres.contents (Postgres.save a r table).2 l'
        ∧ consistent_cache l'.
Proof.
  intros Hrep Hc Hl Hahead Hmax Hp Hlen.
  assert (Postgres.in_int4 a = true) as Ha.
  { pose proof (CachedServiceFacts.consistent_pair_numerals a r Hp) as Hnum.
    destruct Hp as (_ & _ & Hscan).
    pose proof (ScanFacts.scan_spec (String.length r) r 0 (le_n _)) as Hspec.
    rewrite Hnum in Hspec. destruct Hspec as (a' & Ha' & Hlo & Hhi).
    unfold convertRomanToArabic in Hscan. rewrite Hscan in Ha'.
    injection Ha' as ->.
    unfold Postgres.in_int4. apply andb_true_iff; split; apply Z.leb_le; lia. }
  destruct (redis_save_exact keyspace l a r Hrep)
    as [[Htaken Hrep']|(Hfa & Hfr & Hrep')];
    destruct (postgres_save_exact table l a r Hc Hahead Hmax Ha Hlen)
      as [[Htaken' Hc']|(Hfa' & Hfr' & Hc')].
  - by exists l.
  - destruct Htaken as [[r' ?]|[a' ?]];
      [by destruct (Hfa' r') | by destruct (Hfr' a')].
  - destruct Htaken' as [[r' ?]|[a' ?]];
      [by destruct (Hfa r') | by destruct (Hfr a')].
  - exists ((a, r) :: l). split; [done|]. split; [done|]. by constructor.
Qed.

(** *** A request is a lookup and at most one [save] *)

Lemma serve_ArabicToRoman {S} (repo : Repository.IConverterRepository S)
    st n r :
  1 <= n <= 3999 → convertArabicToRoman n = Some r →
  serve repo st (ArabicToRoman (Int n))
  = match Repository.findByArabic repo n st with
    | Returned cached =>
        match if_truthy cached with
        | Some _ => st
        | None => (Repository.save repo n r st).2
        end
    | Thrown _ => st
    end.
Proof.
  intros Hn Hr. unfold serve.
  rewrite (ServiceFacts.arabicToRoman_valid repo n st Hn).
  destruct (Repository.findByArabic repo n st) as [cached|e]; [|done].
  destruct (if_truthy cached); [done|]. by rewrite Hr.
Qed.

Lemma serve_RomanToArabic {S} (repo : Repository.IConverterRepository S)
    st roman a :
  isValidRomanNumeral (toUpperCase (trim roman)) = true →
  convertRomanToArabic (toUpperCase (trim roman)) = Returned a →
  serve repo st (RomanToArabic roman)
  = match Repository.findByRoman repo (toUpperCase (trim roman)) st with
    | Returned None =>
        (Repository.save repo a (toUpperCase (trim roman)) st).2
    | _ => st
    end.
Proof.
  intros Hvalid Ha. unfold serve.
  rewrite (ServiceFacts.romanToArabic_valid repo roman st Hvalid). cbv zeta.
  destruct (Repository.findByRoman repo _ st) as [[cached|]|e]; [done| |done].
  by rewrite Ha.
Qed.

Lemma serve_rejected {S} (repo : Repository.IConverterRepository S) st req :
  match req with
  | ArabicToRoman arabic => ¬ in_range arabic
  | RomanToArabic roman =>
      isValidRomanNumeral (toUpperCase (trim roman)) = false
  end →
  serve repo st req = st.
Proof.
  destruct req as [arabic|roman]; intros Hreq; unfold serve.
  - by rewrite (ServiceFacts.arabicToRoman_invalid repo arabic st Hreq).
  - by rewrite (ServiceFacts.romanToArabic_invalid repo roman st Hreq).
Qed.

Lemma serve_step {S} (repo : Repository.IConverterRepository S) st req :
  serve repo st req = st
  ∨ ∃ a r, serve repo st req = (Repository.save repo a r st).2.
Proof.
  destruct req as [arabic|roman].
  - destruct (CachedServiceFacts.in_range_dec arabic) as [(n & -> & Hn)|Hout];
      [|left; by apply (serve_rejected repo st (ArabicToRoman arabic))].
    destruct (CachedServiceFacts.canonical_consistent n Hn) as (r & Hr & _).
    rewrite (serve_ArabicToRoman repo st n r Hn Hr).
    destruct (Repository.findByArabic repo n st) as [cached|e]; [|by left].
    destruct (if_truthy cached); [by left | right; by exists n, r].
  - destruct (isValidRomanNumeral (toUpperCase (trim roman))) eqn:Hvalid;
      [|left; by apply (serve_rejected repo st (RomanToArabic roman))].
    destruct (CachedServiceFacts.accepted_consistent roman Hvalid)
      as (a & Ha & _).
    rewrite (serve_RomanToArabic repo st roman a Hvalid Ha).
    destruct (Repository.findByRoman repo _ st) as [[cached|]|e];
      [by left | right; by eexists _, _ | by left].
Qed.

Lemma serve_all_run {S} (repo : Repository.IConverterRepository S)
    requests st :
  ∃ ops, serve_all repo requests st = Repository.run repo ops st.
Proof.
  revert st. induction requests as [|req requests IH]; intros st.
  - by exists [].
  - destruct (IH (serve repo st req)) as (ops & Hops).
    destruct (serve_step repo st req) as [Hsame|(a & r & Hsave)].
    + exists ops. unfold serve_all in *. simpl. by rewrite Hops, Hsame.
    + exists (Repository.Save a r :: ops). unfold serve_all in *. simpl.
      by rewrite Hops, Hsave.
Qed.

(** *** The two stores hold the same pairs *)

Lemma serve_agree keyspace table l req :
  Redis.represents keyspace l → Postgres.contents table l →
  consistent_cache l → Postgres.sequence_ahead table →
  Postgres.conversions_id_seq table < 2147483647 →
  fits_varchar20 req →
  ∃ l', Redis.represents (serve Redis.repository keyspace req) l'
        ∧ Postgres.contents (serve Postgres.repository table req) l'
        ∧ consistent_cache l'.
Proof.
  intros Hrep Hc Hl Hahead Hmax Hfits. destruct req as [arabic|roman].
  - destruct (CachedServiceFacts.in_range_dec arabic) as [(n & -> & Hn)|Hout].
    + destruct (CachedServiceFacts.canonical_consistent n Hn) as (r & Hr & Hp).
      rewrite !(serve_ArabicToRoman _ _ n r Hn Hr).
      cbn [Repository.findByArabic Repository.save Redis.repository
           Postgres.repository].
      rewrite (findByArabic_agree keyspace table l n Hrep Hc Hl Hn).
      destruct (redis_findByArabic_exact keyspace l n Hrep)
        as [[-> _]|(r' & Hin & ->)].
      * cbn [if_truthy]. apply (save_agree _ _ l); try done.
        pose proof (canonical_fits n r Hn Hr). lia.
      * destruct (CachedServiceFacts.consistent_pair_truthy n r'
                    (CachedServiceFacts.consistent_lookup l n r' Hl Hin))
          as [Ht _].
        cbn [if_truthy]. rewrite Ht. by exists l.
    + rewrite !(serve_rejected _ _ (ArabicToRoman arabic) Hout). by exists l.
  - destruct (isValidRomanNumeral (toUpperCase (trim roman))) eqn:Hvalid.
    + destruct (CachedServiceFacts.accepted_consistent roman Hvalid)
        as (a & Ha & Hp).
      rewrite !(serve_RomanToArabic _ _ roman a Hvalid Ha).
      cbn [Repository.findByRoman Repository.save Redis.repository
           Postgres.repository].
      rewrite (findByRoman_agree keyspace table l _ Hrep Hc Hl).
      destruct (redis_findByRoman_exact keyspace l (toUpperCase (trim roman))
                  Hrep) as [[-> _]|(a' & Hin & ->)].
      * by apply (save_agree _ _ l).
      * by exists l.
    + rewrite !(serve_rejected _ _ (RomanToArabic roman) Hvalid). by exists l.
Qed.

Lemma serve_sequence table req :
  Postgres.sequence_ahead table →
  Postgres.sequence_ahead (serve Postgres.repository table req)
  ∧ Postgres.conversions_id_seq (serve Postgres.repository table req)
    <= Postgres.conversions_id_seq table + 1.
Proof.
  intros Hahead.
  destruct (serve_step Postgres.repository table req) as [->|(a & r & ->)].
  - split; [done | lia].
  - split; [by apply StoreFacts.sequence_ahead_save|].
    apply postgres_save_sequence.
Qed.

Lemma serve_all_agree requests keyspace table l :
  Redis.represents keyspace l → Postgres.contents table l →
  consistent_cache l → Postgres.sequence_ahead table →
  Postgres.conversions_id_seq table + Z.of_nat (List.length requests)
  <= 2147483647 →
  Forall fits_varchar20 requests →
  ∃ l', Redis.represents (serve_all Redis.repository requests keyspace) l'
        ∧ Postgres.contents (serve_all Postgres.repository requests table) l'
        ∧ consistent_cache l'.
Proof.
  revert keyspace table l.
  induction requests as [|req requests IH];
    intros keyspace table l Hrep Hc Hl Hahead Hmax Hfits.
  - by exists l.
  - apply Forall_cons in Hfits as [Hreq Hfits].
    rewrite length_cons, Nat2Z.inj_succ in Hmax.
    destruct (serve_agree keyspace table l req) as (l' & Hrep' & Hc' & Hl');
      [done..|lia|done|].
    destruct (serve_sequence table req Hahead) as [Hahead' Hseq].
    apply (IH _ _ l'); [done..|lia|done].
Qed.

(** *** Requests and listings on two stores that hold the same pairs *)

Lemma arabicToRoman_agree keyspace table l arabic :
  Redis.represents keyspace l → Postgres.contents table l →
  consistent_cache l →
  result <$> arabicToRoman Redis.repository arabic keyspace
  = result <$> arabicToRoman Postgres.repository arabic table
  ∧ calls <$> arabicToRoman Redis.repository arabic keyspace
    = calls <$> arabicToRoman Postgres.repository arabic table.
Proof.
  intros Hrep Hc Hl.
  destruct (CachedServiceFacts.in_range_dec arabic) as [(n & -> & Hn)|Hout].
  - rewrite !(ServiceFacts.arabicToRoman_valid _ n _ Hn).
    cbn [Repository.findByArabic Redis.repository Postgres.repository].
    rewrite (findByArabic_agree keyspace table l n Hrep Hc Hl Hn).
    destruct (Redis.findByArabic n keyspace) as [cached|e]; [|done].
    destruct (if_truthy cached); [done|].
    by destruct (convertArabicToRoman n).
  - by rewrite !(ServiceFacts.arabicToRoman_invalid _ arabic _ Hout).
Qed.

Lemma romanToArabic_agree keyspace table l roman :
  Redis.represents keyspace l → Postgres.contents table l →
  consistent_cache l →
  result (romanToArabic Redis.repository roman keyspace)
  = result (romanToArabic Postgres.repository roman table)
  ∧ calls (romanToArabic Redis.repository roman keyspace)
    = calls (romanToArabic Postgres.repository roman table).
Proof.
  intros Hrep Hc Hl.
  destruct (isValidRomanNumeral (toUpperCase (trim roman))) eqn:Hvalid.
  - rewrite !(ServiceFacts.romanToArabic_valid _ roman _ Hvalid). cbv zeta.
    cbn [Repository.findByRoman Redis.repository Postgres.repository].
    rewrite (findByRoman_agree keyspace table l _ Hrep Hc Hl).
    destruct (Redis.findByRoman _ keyspace) as [[cached|]|e]; [done| |done].
    by destruct (convertRomanToArabic _).
  - by rewrite !(ServiceFacts.romanToArabic_invalid _ roman _ Hvalid).
Qed.

Lemma sorted_strict (l : list (Z * string)) :
  StronglySorted Z.le l.*1 → NoDup l.*1 →
  StronglySorted (λ x y : Z * string, x.1 < y.1) l.
Proof.
  induction l as [|x l IH]; [constructor|].
  rewrite !fmap_cons. intros Hs Hn.
  apply StronglySorted_inv in Hs as [Hs Hx].
  apply NoDup_cons in Hn as [Hnotin Hn].
  constructor; [by apply IH|].
  apply Forall_forall. intros y Hy.
  rewrite Forall_fmap, Forall_forall in Hx. specialize (Hx y Hy). simpl in Hx.
  assert (x.1 ≠ y.1); [|lia].
  intros Heq. apply Hnotin. rewrite Heq. by apply list_elem_of_fmap_2.
Qed.

Lemma sorted_records_unique (l1 l2 : list (Z * string)) :
  l1 ≡ₚ l2 → NoDup l1.*1 →
  StronglySorted Z.le l1.*1 → StronglySorted Z.le l2.*1 → l1 = l2.
Proof.
  intros Hperm Hn Hs1 Hs2.
  assert (NoDup l2.*1) as Hn2 by (by rewrite <- Hperm).
  apply (StronglySorted_unique_strong (λ x y : Z * string, x.1 < y.1));
    [|by apply sorted_strict..|done].
  intros x1 x2 _ _ H1 H2. lia.
Qed.

Lemma numerals_no_colon s : first_other s = None → no_colon s = true.
Proof.
  induction s as [|c s IH]; simpl; [done|].
  destruct (is_numeral c) eqn:Hc; [|done]. intros Hs. rewrite IH by done.
  rewrite andb_true_r. apply negb_true_iff.
  destruct (Ascii.eqb_spec c ":") as [->|]; [|done]. by vm_compute in Hc.
Qed.

Lemma redis_getAll_page db sorted limit offset :
  Redis.index_is_a_set db →
  Redis.zset_sorted (Redis.index db) = Redis.member_of <$> sorted →
  size (Redis.index db) = List.length sorted →
  Forall (λ pair, no_colon pair.2 = true) sorted →
  1 <= limit → 0 <= offset → offset + limit <= MAX_SAFE_INTEGER →
  Redis.getAll limit offset db
  = Returned
      {| data := conversion_of
                   <$> take (Z.to_nat limit) (drop (Z.to_nat offset) sorted);
         total := Int (Z.of_nat (List.length sorted));
         limit := limit; offset := offset |}.
Proof.
  intros Hset Hzset Hsize Hcolon Hl Ho Hmax. unfold MAX_SAFE_INTEGER in Hmax.
  assert (Redis.parse_item <$> (Redis.member_of <$> sorted).*1
          = conversion_of <$> sorted) as Hitems.
  { rewrite <- !list_fmap_compose. apply Forall_fmap_ext_1.
    eapply Forall_impl; [exact Hcolon|]. intros [a r] Hr. simpl in *.
    by apply ListingFacts.parse_item_entry. }
  rewrite (ListingFacts.getAll_index limit offset db Hset), Hzset, Hsize;
    [|apply DecimalFacts.Number_isSafeInteger_spec; lia..].
  rewrite ListingFacts.window_page by done.
  by rewrite fmap_take, fmap_drop, Hitems, <- fmap_drop, <- fmap_take.
Qed.

Lemma listing_agree requests l limit offset :
  let keyspace := serve_all Redis.repository requests ∅ in
  let table := serve_all Postgres.repository requests Postgres.empty in
  Redis.represents keyspace l → Postgres.contents table l →
  consistent_cache l →
  1 <= limit → 0 <= offset → offset + limit <= MAX_SAFE_INTEGER →
  Redis.getAll limit offset keyspace = Postgres.getAll limit offset table.
Proof.
  intros keyspace table Hrep Hc Hl Hlimit Hoffset Hmax.
  destruct (serve_all_run Redis.repository requests ∅) as (ops & Hops).
  destruct (ListingFacts.redis_sorted_records ops)
    as (sorted & Hss & Hnd & Hin & Hzset & Hsize & Hset).
  rewrite <- Hops in Hin, Hzset, Hsize, Hset. fold keyspace in Hin, Hzset, Hsize, Hset.
  assert (∀ pair, pair ∈ sorted ↔ pair ∈ l) as Hsame.
  { intros [a r]. rewrite Hin. symmetry.
    by apply RedisFacts.findByArabic_represents. }
  assert (Forall (λ pair, no_colon pair.2 = true) sorted) as Hcolon.
  { apply Forall_forall. intros [a r] Hpair.
    apply numerals_no_colon, (CachedServiceFacts.consistent_pair_numerals a),
      (CachedServiceFacts.consistent_lookup l); [done|]. by apply Hsame. }
  rewrite (redis_getAll_page keyspace sorted limit offset) by done.
  pose proof (TableFacts.postgres_getAll_sorted table limit offset) as Hpg.
  cbv zeta in Hpg. unfold MAX_SAFE_INTEGER in Hmax.
  rewrite Hpg by (apply DecimalFacts.Number_isSafeInteger_spec; lia).
  clear Hpg.
  destruct (Z.ltb_spec offset 0); [lia|]. destruct (Z.ltb_spec limit 0); [lia|].
  set (sorted' := (λ row, (Postgres.arabic row, Postgres.roman row))
                    <$> Postgres.ORDER_BY_arabic (Postgres.conversions table)).
  assert (sorted = sorted') as <-; [|done].
  destruct Hc as [Hholds Hc].
  apply sorted_records_unique; [|done|done|].
  - apply NoDup_Permutation.
    + by eapply NoDup_fmap_1.
    + unfold sorted'. rewrite TableFacts.ORDER_BY_arabic_perm.
      destruct (PostgresFacts.records_NoDup table Hholds) as [Hn _].
      by eapply NoDup_fmap_1.
    + intros pair. rewrite Hsame, (Hc pair). unfold sorted'.
      by rewrite TableFacts.ORDER_BY_arabic_perm.
  - unfold sorted'. rewrite <- list_fmap_compose.
    apply (StronglySorted_fmap Postgres.arabic
             (λ x y, Postgres.arabic x <= Postgres.arabic y));
      [done | apply TableFacts.ORDER_BY_arabic_sorted].
Qed.

Lemma served_agree requests :
  Z.of_nat (List.length requests) <= 2147483647 →
  Forall fits_varchar20 requests →
  ∃ l, Redis.represents (serve_all Redis.repository requests ∅) l
       ∧ Postgres.contents
           (serve_all Postgres.repository requests Postgres.empty) l
       ∧ consistent_cache l.
Proof.
  intros Hmax Hfits. apply (serve_all_agree requests ∅ Postgres.empty []).
  - apply RedisFacts.represents_empty.
  - split; [apply PostgresFacts.table_holds_empty | done].
  - constructor.
  - split; [done | constructor].
  - simpl. lia.
  - done.
Qed.

(** X13.  The two backends are interchangeable behind the service.  After
    the same requests, fewer than 2^31 of them and each with a numeral of
    at most 20 characters once normalised, the Redis keyspace and the
    PostgreSQL table give every further conversion the same result through
    the same repository calls, and they list the same pages (for
    [limit >= 1] and [offset >= 0] with [offset + limit] a safe
    integer). *)
Theorem backends_are_interchangeable requests :
  let keyspace := serve_all Redis.repository requests ∅ in
  let table := serve_all Postgres.repository requests Postgres.empty in
  Z.of_nat (List.length requests) <= 2147483647 →
  Forall fits_varchar20 requests →
  (∀ arabic,
     result <$> arabicToRoman Redis.repository arabic keyspace
     = result <$> arabicToRoman Postgres.repository arabic table
     ∧ calls <$> arabicToRoman Redis.repository arabic keyspace
       = calls <$> arabicToRoman Postgres.repository arabic table)
  ∧ (∀ roman,
     result (romanToArabic Redis.repository roman keyspace)
     = result (romanToArabic Postgres.repository roman table)
     ∧ calls (romanToArabic Redis.repository roman keyspace)
       = calls (romanToArabic Postgres.repository roman table))
  ∧ (∀ limit offset,
     1 <= limit → 0 <= offset → offset + limit <= MAX_SAFE_INTEGER →
     Redis.getAll limit offset keyspace
     = Postgres.getAll limit offset table).
Proof.
  intros keyspace table Hmax Hfits.
  destruct (served_agree requests Hmax Hfits) as (l & Hrep & Hc & Hl).
  split; [|split].
  - intros arabic. by apply (arabicToRoman_agree keyspace table l).
  - intros roman. by apply (romanToArabic_agree keyspace table l).
  - intros limit offset Hlimit Hoffset Hsafe.
    by apply (listing_agree requests l).
Qed.

Lemma backends_are_interchangeable_witness :
  let requests :=
    [ArabicToRoman (Int 9); RomanToArabic "viv"; RomanToArabic " xlii ";
     ArabicToRoman (Frac 2); ArabicToRoman (Int 2023)] in
  let keyspace := serve_all Redis.repository requests ∅ in
  let table := serve_all Postgres.repository requests Postgres.empty in
  result <$> arabicToRoman Redis.repository (Int 9) keyspace
  = result <$> arabicToRoman Postgres.repository (Int 9) table
  ∧ Redis.getAll 2 1 keyspace = Postgres.getAll 2 1 table.
Proof.
  intros requests keyspace table.
  destruct (backends_are_interchangeable requests) as (Harabic & _ & Hlisting).
  - simpl. lia.
  - repeat constructor; simpl; lia.
  - split; [apply Harabic | apply Hlisting; [lia | lia | vm_compute; discriminate]].
Defined.

(** *** Numerals the table cannot hold *)

Lemma postgres_save_long a r db :
  first_other r = None → (20 < String.length r)%nat →
  ∃ e, Postgres.save a r db = (Thrown e, db) ∧ code e ≠ Some "23505".
Proof.
  intros Hnum Hlen.
  unfold Postgres.save, Postgres.INSERT_ON_CONFLICT_arabic_DO_NOTHING.
  destruct (negb (Postgres.in_int4 a)).
  { eexists. split; [reflexivity | done]. }
  unfold Postgres.to_varchar20.
  destruct (Nat.leb_spec (String.length r) 20) as [?|_]; [lia|].
  destruct (Postgres.all_spaces _) eqn:Hspaces.
  { apply CachedServiceFacts.numerals_not_spaces in Hspaces; [lia | done | lia]. }
  eexists. split; [reflexivity | done].
Qed.

(** X14.  The PostgreSQL backend never caches a numeral of more than 20
    characters, though the validator accepts some (["IVIVIVIVIVIVIVIVIVIVIV"],
    22 characters, value 44): the INSERT of [save] is rejected with an
    error other than 23505, which [save] throws on, and the request leaves
    the rows as they were, on any table.  Redis caches the same numeral. *)
Theorem postgres_drops_long_numerals :
  (∀ table roman,
     let normalizedRoman := toUpperCase (trim roman) in
     isValidRomanNumeral normalizedRoman = true →
     (20 < String.length normalizedRoman)%nat →
     (∀ arabic, ∃ e,
        Postgres.save arabic normalizedRoman table = (Thrown e, table))
     ∧ store (romanToArabic Postgres.repository roman table) = table)
  ∧ (let roman := "IVIVIVIVIVIVIVIVIVIVIV" in
     isValidRomanNumeral roman = true
     ∧ Redis.findByRoman roman
         (serve Redis.repository ∅ (RomanToArabic roman))
       = Returned (Some (Int 44))
     ∧ Postgres.findByRoman roman
         (serve Postgres.repository Postgres.empty (RomanToArabic roman))
       = Returned None).
Proof.
  split.
  - intros table roman normalizedRoman Hvalid Hlen.
    destruct (CachedServiceFacts.accepted_consistent roman Hvalid)
      as (a & Ha & Hp).
    pose proof (CachedServiceFacts.consistent_pair_numerals a _ Hp) as Hnum.
    split.
    + intros arabic.
      destruct (postgres_save_long arabic normalizedRoman table Hnum Hlen)
        as (e & He & _).
      by exists e.
    + change (store (romanToArabic Postgres.repository roman table))
        with (serve Postgres.repository table (RomanToArabic roman)).
      rewrite (serve_RomanToArabic _ _ roman a Hvalid Ha).
      destruct (Repository.findByRoman _ _ table) as [[cached|]|e];
        [done| |done].
      cbn [Repository.save Postgres.repository].
      destruct (postgres_save_long a normalizedRoman table Hnum Hlen)
        as (e & He & _).
      fold normalizedRoman. by rewrite He.
  - vm_compute. repeat split; reflexivity.
Qed.

Lemma postgres_drops_long_numerals_witness :
  store (romanToArabic Postgres.repository " ivivivivivivivivivivivi "
           (Postgres.save 4 "IV" Postgres.empty).2)
  = (Postgres.save 4 "IV" Postgres.empty).2.
Proof.
  apply (proj1 postgres_drops_long_numerals
           (Postgres.save 4 "IV" Postgres.empty).2
           " ivivivivivivivivivivivi ").
  - reflexivity.
  - vm_compute. lia.
Defined.

End BackendFacts.
